(** * PoESimpleStore: the index-backed multi-mod query and its client-side re-check

    A shallow embedding of [db/IndexQuery.go] (module [db]) and of the
    [MultiModSearch] predicate of package [cmd] (module [cmd]), followed by
    the properties of the specification that concern them.

    Conventions.
    - Go's [int] is a 64-bit two's complement integer and [uint16] a 16-bit
      unsigned one; both are carried as [Z] and every arithmetic operation of
      the source is followed by the wrap-around of its type.
    - A [[]byte] that the code compares with [nil] is an [option] of a byte
      list; everywhere else a slice is a list.
    - A method that mutates the query context takes the context and hands
      back the new one; a panic is an outcome of its own. *)

From Stdlib Require Import ZArith List String Lia Sorted.
From stdpp Require Import base gmap strings list fin_maps.

Local Open Scope Z_scope.

(** ** Machine integers *)

Definition int_wrap (z : Z) : Z := (z + 2 ^ 63) mod 2 ^ 64 - 2 ^ 63.
Definition uint16_wrap (z : Z) : Z := z mod 2 ^ 16.

(** [len] of a slice, as the [int] Go returns. *)
Definition len {A : Type} (l : list A) : Z := Z.of_nat (length l).

Definition bytes : Type := list Byte.byte.

(** A possibly-nil byte slice read by code that only looks at its content. *)
Definition content (b : option bytes) : bytes := default [] b.

(** ** Errors

    [errors.New], [errors.Errorf] and [errors.Wrap] of github.com/pkg/errors;
    [External] stands for an error value produced outside the files at hand
    (the key decoder, the bucket lookup, the store). *)
Inductive error : Type :=
  | External (code : N)
  | New (msg : string)
  | Errorf (format : string) (operands : list operand)
  | Wrap (cause : error) (msg : string)
with operand : Type :=
  | OpNum (n : Z)
  | OpErr (e : error)
  | OpBytes (b : bytes).

Module db.

(** Modelled from the spec: the declarations of [ID], [StringHeapID] and
    [LeagueHeapID] are not among the sources; the specification calls them
    an opaque fixed-width identifier with equality and hashing, and compact
    integers produced by interning. *)
Definition ID : Type := N.
Definition StringHeapID : Type := N.
Definition LeagueHeapID : Type := N.

Definition LookupItemsMultiModStrideLength : Z := 32.

(** *** The store, as far as the query reads it

    A bucket is its sequence of pairs in ascending key order.  A pair is what
    a cursor hands out: key and value, either of which may be [nil]. *)
Definition pair : Type := option bytes * option bytes.
Definition Bucket : Type := list pair.

(** A [*bolt.Cursor] that only ever moves with [Last] and [Prev]: the pairs it
    has not handed out yet, nearest first.  Both calls hand out the next one
    and leave the cursor on it, or hand out [(nil, nil)] once none is left.
    ([stride_cursor] below recurses on the cursor and reads [Prev] off its
    shape; [stride_cursor_Prev] states it with [Cursor_Prev].) *)
Definition Cursor : Type := list pair.

Definition Bucket_Cursor (b : Bucket) : Cursor := rev b.

Definition Cursor_Last (c : Cursor) : pair * Cursor :=
  match c with
  | [] => ((None, None), [])
  | p :: c' => (p, c')
  end.

Definition Cursor_Prev (c : Cursor) : pair * Cursor :=
  match c with
  | [] => ((None, None), [])
  | p :: c' => (p, c')
  end.

(** Modelled from the spec: [getItemModIndexBucketRO] is not among the
    sources.  A read transaction is represented by what that lookup answers
    for every (rootType, rootFlavor, mod, league): an error when the bucket
    cannot be opened, a bucket otherwise.  Following the specification, a mod
    that has no bucket answers with a bucket whose cursor is exhausted from
    the start, the empty one. *)
Record Tx : Type := mkTx {
  tx_lookup : StringHeapID → StringHeapID → StringHeapID → LeagueHeapID →
              error + Bucket
}.

Definition getItemModIndexBucketRO
    (rootType rootFlavor mod_ : StringHeapID) (league : LeagueHeapID) (tx : Tx)
  : error + Bucket :=
  tx_lookup tx rootType rootFlavor mod_ league.

Definition missing_bucket : Bucket := [].

(** [*bolt.DB]: [View] either fails to begin a read transaction or runs its
    argument in one. *)
Record DB : Type := mkDB { db_begin : error + Tx }.

(** *** IndexQuery.go *)

Record indexQueryContext : Type := mkCtx {
  tx : Tx;
  validCursors : Z;
  cursors : list (option Cursor);
  set : gmap ID Z;
  result : list ID
}.

Record IndexQuery : Type := mkQuery {
  rootType : StringHeapID;
  rootFlavor : StringHeapID;
  mods : list StringHeapID;
  minModValues : list Z;
  league : LeagueHeapID;
  maxDesired : Z;
  ctx : option indexQueryContext
}.

(** What a method leaves behind: its return value and the context, or a
    panic, or (for the driver loop only) no answer within the given number of
    passes. *)
Inductive outcome (A : Type) : Type :=
  | Ret (a : A) (c : indexQueryContext)
  | Panic
  | NoFuel.
Arguments Ret {A} a c.
Arguments Panic {A}.
Arguments NoFuel {A}.

Definition with_cursors (cs : list (option Cursor)) (c : indexQueryContext) :=
  mkCtx (tx c) (validCursors c) cs (set c) (result c).

(** [ctx.cursors[index] = nil; ctx.validCursors--] *)
Definition removeCursor (index : nat) (c : indexQueryContext)
  : outcome unit :=
  if decide (index < length (cursors c))%nat then
    Ret tt (mkCtx (tx c) (int_wrap (validCursors c - 1))
                  (<[index := None]> (cursors c)) (set c) (result c))
  else Panic.

Section Query.

(** Declared outside the files at hand: the scale factor shared with the
    writer, the key decoder and the enumeration of the IDs packed in an
    entry.  [maxSliceCap] is the largest capacity for which the runtime
    makes a slice of IDs; it depends on the platform and on the size of an
    ID. *)
Variable ItemModAverageScaleFactor : Z.
Variable maxSliceCap : Z.
Variable decodeModIndexKey : bytes → error + list Z.
Variable IndexEntry_IDs : bytes → list ID.

Definition NewIndexQuery (rootType rootFlavor : StringHeapID)
    (mods : list StringHeapID) (minModValues : list Z)
    (league : LeagueHeapID) (maxDesired : Z) : IndexQuery :=
  let minModValuesScaled :=
    map (λ minValue, uint16_wrap (minValue * ItemModAverageScaleFactor))
        minModValues in
  mkQuery rootType rootFlavor mods minModValuesScaled league maxDesired None.

(** The loop of [initContext] over [q.mods]: the first bucket that cannot be
    opened ends it. *)
Fixpoint open_cursors (q : IndexQuery) (t : Tx) (ms : list StringHeapID)
  : error + list (option Cursor) :=
  match ms with
  | [] => inr []
  | mod_ :: ms' =>
      match getItemModIndexBucketRO (rootType q) (rootFlavor q) mod_
                                    (league q) t with
      | inl err =>
          inl (Errorf "faield to get item mod index bucket, mod=%d err=%s"
                      [OpNum (Z.of_N mod_); OpErr err])
      | inr itemModBucket =>
          match open_cursors q t ms' with
          | inl e => inl e
          | inr cs => inr (Some (Bucket_Cursor itemModBucket) :: cs)
          end
      end
  end.

Inductive init_result : Type :=
  | InitOk (c : indexQueryContext)
  | InitErr (e : error)
  | InitPanic.

(** [initContext]: an error leaves [q.ctx] as it was; [make([]ID, 0, n)]
    panics for a negative [n] and for one beyond [maxSliceCap]. *)
Definition initContext (q : IndexQuery) (t : Tx) : init_result :=
  let validCursors := len (mods q) in
  match open_cursors q t (mods q) with
  | inl e => InitErr e
  | inr cursors =>
      if (maxDesired q <? 0) || (maxSliceCap <? maxDesired q) then InitPanic
      else InitOk (mkCtx t validCursors cursors ∅ [])
  end.

(** [registerID] *)
Definition registerID (q : IndexQuery) (id : ID) (c : indexQueryContext)
  : indexQueryContext :=
  let shared := default 0 (set c !! id) in
  let shared := int_wrap (shared + 1) in
  let set1 := <[id := shared]> (set c) in
  if len (mods q) <=? shared then
    mkCtx (tx c) (validCursors c) (cursors c) (delete id set1) (result c ++ [id])
  else
    mkCtx (tx c) (validCursors c) (cursors c) set1 (result c).

(** [IndexEntry(v).ForEachID(fn)] *)
Definition ForEachID (v : bytes) (fn : ID → indexQueryContext → indexQueryContext)
    (c : indexQueryContext) : indexQueryContext :=
  fold_left (λ c id, fn id c) (IndexEntry_IDs v) c.

(** [checkPair]: [idCount] is declared and returned, never assigned. *)
Definition checkPair (q : IndexQuery) (k v : bytes) (modIndex : nat)
    (c : indexQueryContext) : outcome (Z * option error) :=
  match decodeModIndexKey k with
  | inl err => Ret (0, Some (Wrap err "failed to decode mod index key")) c
  | inr values =>
      match values with
      | [] =>
          Ret (0, Some (Errorf "decoded item mod index key to no values, key=%v"
                               [OpBytes k])) c
      | primary :: _ =>
          match minModValues q !! modIndex with
          | None => Panic
          | Some minValue =>
              let valid := minValue <=? primary in
              let idCount := 0 in
              if valid then
                Ret (idCount, None) (ForEachID v (registerID q) c)
              else
                match removeCursor modIndex c with
                | Ret _ c' => Ret (idCount, None) c'
                | Panic => Panic
                | NoFuel => NoFuel
                end
          end
      end
  end.

(** The cursor of slot [i] has moved: the slot and the loop variable of
    [stride] point to the same cursor. *)
Definition moved (i : nat) (cur : Cursor) (c : indexQueryContext)
  : indexQueryContext :=
  with_cursors (<[i := Some cur]> (cursors c)) c.

(** The per-cursor loop of [stride],
    [for index := 0; index < LookupItemsMultiModStrideLength; { ... }],
    entered with the cursor of slot [i] at [cur]. *)
Fixpoint stride_cursor (q : IndexQuery) (i : nat) (index : Z) (cur : Cursor)
    (c : indexQueryContext) : outcome (option error) :=
  if index <? LookupItemsMultiModStrideLength then
    match cur with
    | [] =>
        (* Prev at the start of the bucket: both nil *)
        match removeCursor i c with
        | Ret _ c' => Ret None c'
        | Panic => Panic
        | NoFuel => NoFuel
        end
    | (k, v) :: cur' =>
        let c := moved i cur' c in
        match k with
        | None =>
            match v with
            | None =>
                match removeCursor i c with
                | Ret _ c' => Ret None c'
                | Panic => Panic
                | NoFuel => NoFuel
                end
            | Some _ => stride_cursor q i index cur' c
            end
        | Some kb =>
            match checkPair q kb (content v) i c with
            | Ret (countFound, Some err) c' =>
                Ret (Some (Wrap err "failed to check value pair")) c'
            | Ret (countFound, None) c' =>
                if countFound <? 1 then Ret None c'
                else stride_cursor q i (int_wrap (index + countFound)) cur' c'
            | Panic => Panic
            | NoFuel => NoFuel
            end
        end
    end
  else Ret None c.

(** [for i, c := range q.ctx.cursors]: slot [i] is read when its turn comes. *)
Fixpoint stride_slots (q : IndexQuery) (slots : list nat)
    (c : indexQueryContext) : outcome (option error) :=
  match slots with
  | [] => Ret None c
  | i :: slots' =>
      match cursors c !! i with
      | Some (Some cur) =>
          match stride_cursor q i 0 cur c with
          | Ret None c' => stride_slots q slots' c'
          | other => other
          end
      | Some None => stride_slots q slots' c
      | None => stride_slots q slots' c
      end
  end.

Definition stride (q : IndexQuery) (c : indexQueryContext)
  : outcome (option error) :=
  stride_slots q (seq 0 (length (cursors c))) c.

(** The priming loop of [Run]: every cursor is set to its last pair; calling
    [Last] through a nil slot panics.  (In both loops the last case, an index
    past the slice, does not arise: [slots] enumerates its indices.) *)
Fixpoint prime_slots (q : IndexQuery) (slots : list nat)
    (c : indexQueryContext) : outcome (option error) :=
  match slots with
  | [] => Ret None c
  | i :: slots' =>
      match cursors c !! i with
      | Some (Some cur) =>
          let '((k, v), cur') := Cursor_Last cur in
          let c := moved i cur' c in
          match k with
          | None => prime_slots q slots' c
          | Some kb =>
              match checkPair q kb (content v) i c with
              | Ret (_, Some err) c' =>
                  Ret (Some (Wrap err "failed to check value in bucekt")) c'
              | Ret (_, None) c' => prime_slots q slots' c'
              | Panic => Panic
              | NoFuel => NoFuel
              end
          end
      | Some None => Panic
      | None => prime_slots q slots' c
      end
  end.

(** The search loop of [Run],
    [for foundIDs < q.maxDesired && q.ctx.validCursors > 0 { ... }],
    run for at most [fuel] passes. *)
Fixpoint search (fuel : nat) (q : IndexQuery) (foundIDs : Z)
    (c : indexQueryContext) : outcome (option error) :=
  if (foundIDs <? maxDesired q) && (0 <? validCursors c) then
    match fuel with
    | O => NoFuel
    | S fuel' =>
        match stride q c with
        | Ret None c' => search fuel' q (len (result c')) c'
        | Ret (Some err) c' => Ret (Some (Wrap err "failed a stride")) c'
        | Panic => Panic
        | NoFuel => NoFuel
        end
    end
  else Ret None c.

(** Pairs the live cursors of a context can still hand out, plus one per live
    cursor for the call that finds it exhausted. *)
Definition slot_budget (s : option Cursor) : nat :=
  match s with
  | Some cur => S (length cur)
  | None => O
  end.

Definition budget (c : indexQueryContext) : nat :=
  sum_list (map slot_budget (cursors c)).

(** The function [Run] hands to [db.View].  On the right, the error it
    returns when [initContext] fails and [q.ctx] is what it was; on the left,
    what becomes of the context it has stored in [q.ctx].  The search loop is
    given [budget] passes, which is as many as it can use
    ([search_no_fuel], [search_more_fuel]). *)
Definition Run_body (q : IndexQuery) (t : Tx)
  : outcome (option error) + option error :=
  match initContext q t with
  | InitErr _ => inr (Some (New "failed to initialize query context"))
  | InitPanic => inl Panic
  | InitOk c =>
      match prime_slots q (seq 0 (length (cursors c))) c with
      | Ret None c' => inl (search (budget c') q 0 c')
      | other => inl other
      end
  end.

Inductive RunOutcome : Type :=
  | Returned (ids : list ID) (err : option error)
  | Panicked
  | Unfinished.

(** [Run]: the value of [q.ctx.result] is taken before the deferred
    [clearContext] resets [q.ctx], whichever way [Run] is left. *)
Definition Run (q : IndexQuery) (d : DB) : RunOutcome * IndexQuery :=
  let cleared :=
    mkQuery (rootType q) (rootFlavor q) (mods q) (minModValues q) (league q)
            (maxDesired q) None in
  let deref (oc : option indexQueryContext) (err : option error) :=
    match oc with
    | Some c => Returned (result c) err
    | None => Panicked
    end in
  match db_begin d with
  | inl e => (deref (ctx q) (Some e), cleared)
  | inr t =>
      match Run_body q t with
      | inr err => (deref (ctx q) err, cleared)
      | inl (Ret err c) => (Returned (result c) err, cleared)
      | inl Panic => (Panicked, cleared)
      | inl NoFuel => (Unfinished, cleared)
      end
  end.

End Query.

End db.

(** ** The user-facing predicate (package cmd) *)

Module cmd.

(** Modelled from the spec: package [stash] is not among the sources.  Of an
    item only [GetMods] is used, and of a mod its [Template] and its
    [Values], unsigned 16-bit numbers of which the first is the primary one. *)
Record ItemMod : Type := mkItemMod {
  Template : string;
  Values : list Z
}.

Record Item : Type := mkItem { GetMods : list ItemMod }.

Record MultiModSearch : Type := mkSearch {
  MaxDesired : Z;
  RootType : string;
  RootFlavor : string;
  League : string;
  Mods : list string;
  MinValues : list Z
}.

Inductive answer : Type :=
  | Answer (b : bool)
  | Panics.

(** [for i, mod := range search.Mods { required[mod] = search.MinValues[i] }] *)
Fixpoint fill_required (search : MultiModSearch) (i : nat) (ms : list string)
    (required : gmap string Z) : option (gmap string Z) :=
  match ms with
  | [] => Some required
  | mod_ :: ms' =>
      match MinValues search !! i with
      | Some minValue =>
          fill_required search (S i) ms' (<[mod_ := minValue]> required)
      | None => None
      end
  end.

(** The loop over the mods of one item; [None] when [mod.Values[0]] is read
    from an empty slice. *)
Fixpoint count_satisfied (required : gmap string Z) (ms : list ItemMod)
    (modsSatisfied : Z) : option Z :=
  match ms with
  | [] => Some modsSatisfied
  | mod_ :: ms' =>
      match required !! Template mod_ with
      | None => count_satisfied required ms' modsSatisfied
      | Some min =>
          match Values mod_ with
          | [] => None
          | primary :: _ =>
              if min <=? primary then
                count_satisfied required ms' (int_wrap (modsSatisfied + 1))
              else count_satisfied required ms' modsSatisfied
          end
      end
  end.

Fixpoint check_items (required : gmap string Z) (requiredSatisfiedMods : Z)
    (items : list Item) : answer :=
  match items with
  | [] => Answer true
  | item :: items' =>
      match count_satisfied required (GetMods item) 0 with
      | None => Panics
      | Some modsSatisfied =>
          if modsSatisfied <? requiredSatisfiedMods then Answer false
          else check_items required requiredSatisfiedMods items'
      end
  end.

Definition Satisfies (search : MultiModSearch) (result : list Item) : answer :=
  if decide (len (Mods search) ≠ len (MinValues search)) then Panics
  else
    match fill_required search 0 (Mods search) ∅ with
    | None => Panics
    | Some required => check_items required (len (Mods search)) result
    end.

(** *** The predicate in the words of the specification

    An item meets the search when, for each mod of the predicate, it carries
    a mod instance of that name whose primary value is at least the minimum
    given for it. *)
Definition has_instance (item : Item) (name : string) (min : Z) : bool :=
  existsb
    (λ m, bool_decide (Template m = name) &&
          match Values m with
          | primary :: _ => min <=? primary
          | [] => false
          end)
    (GetMods item).

Definition meets (search : MultiModSearch) (item : Item) : bool :=
  forallb (λ nm, has_instance item nm.1 nm.2)
          (zip (Mods search) (MinValues search)).

Definition all_meet (search : MultiModSearch) (items : list Item) : bool :=
  forallb (meets search) items.

End cmd.

(** ** Measures and invariants

    What the properties below are stated with; none of it is in the source. *)

Import db.

(** *** Live cursors *)

Definition is_live (s : option Cursor) : nat :=
  match s with
  | Some _ => 1
  | None => 0
  end.

(** The number of slots that hold a cursor. *)
Definition live (c : indexQueryContext) : nat :=
  sum_list (map is_live (cursors c)).

(** [validCursors] counts the live slots, as far as an [int] can. *)
Definition counts_live (c : indexQueryContext) : Prop :=
  ∃ k, 0 ≤ k ∧ Z.of_nat (live c) = validCursors c + 2 ^ 64 * k ∧
       - 2 ^ 63 ≤ validCursors c.

(** *** Registrations *)

(** How often [id] is listed in [l]. *)
Definition occ (id : ID) (l : list ID) : nat := count_occ N.eq_dec l id.

Definition weight (q : IndexQuery) : Z := Z.max 1 (len (mods q)).

(** Registrations of [id] accounted for: a full weight for each time it is
    in the result, and its current count. *)
Definition credit (q : IndexQuery) (id : ID) (c : indexQueryContext) : Z :=
  weight q * Z.of_nat (occ id (result c)) + default 0 (set c !! id).

(** The invariant of the data model: every count in the map is at least 1
    and below the number of mods. *)
Definition set_ok (q : IndexQuery) (c : indexQueryContext) : Prop :=
  ∀ id v, set c !! id = Some v → 1 ≤ v < len (mods q).

(** Nothing found yet, and no cursor with a pair to hand out. *)
Definition barren (c : indexQueryContext) : Prop :=
  result c = [] ∧ Forall (λ s, s = Some [] ∨ s = None) (cursors c).

(** *** Listings, given the enumeration of the IDs of an entry *)

Module acc.
Section Listed.

Variable IndexEntry_IDs : bytes → list ID.

(** The IDs a pair can contribute: those of its entry when it has a key. *)
Definition pair_ids (p : pair) : list ID :=
  match p.1 with
  | Some _ => IndexEntry_IDs (content p.2)
  | None => []
  end.

(** All the IDs listed in a bucket, or still ahead of a cursor. *)
Definition listed (ps : list pair) : list ID := flat_map pair_ids ps.

Definition slot_occ (id : ID) (s : option Cursor) : nat :=
  match s with
  | Some cur => occ id (listed cur)
  | None => 0
  end.

(** Listings of [id] that the live cursors have not reached yet. *)
Definition pending (id : ID) (c : indexQueryContext) : nat :=
  sum_list (map (slot_occ id) (cursors c)).


(** Credit and pending listings together never grow. *)
Definition potential (q : IndexQuery) (id : ID) (c : indexQueryContext) : Z :=
  credit q id c + Z.of_nat (pending id c).

(** Every bucket the query opens lists an item at most once. *)
Definition listed_once (q : IndexQuery) (t : Tx) : Prop :=
  ∀ m b, m ∈ mods q →
    getItemModIndexBucketRO (rootType q) (rootFlavor q) m (league q) t = inr b →
    NoDup (listed b).

End Listed.
End acc.

(** The cursors of [c'] are those of [c], each where it was or further on,
    or gone. *)
Definition advanced (c c' : indexQueryContext) : Prop :=
  length (cursors c') = length (cursors c) ∧
  ∀ j cur', cursors c' !! j = Some (Some cur') →
    ∃ cur, cursors c !! j = Some (Some cur) ∧ cur' `suffix_of` cur.

(** A pair a cursor passes over: a nil key with a value. *)
Definition nested (p : pair) : bool :=
  match p with
  | (None, Some _) => true
  | _ => false
  end.

(** *** Keys against a minimum, given the key decoder *)

Module idx.
Section Keys.

Variable decodeModIndexKey : bytes → error + list Z.
Variable IndexEntry_IDs : bytes → list ID.

(** The primary value of a pair: the first value its key decodes to. *)
Definition primary_of (p : pair) : option Z :=
  match p.1 with
  | Some kb =>
      match decodeModIndexKey kb with
      | inr (primary :: _) => Some primary
      | _ => None
      end
  | None => None
  end.

(** A pair whose primary value reaches the minimum. *)
Definition qualifies (minValue : Z) (p : pair) : bool :=
  match primary_of p with
  | Some primary => minValue <=? primary
  | None => false
  end.

(** A pair no error comes of: its key is nil or decodes to some values. *)
Definition readable (p : pair) : bool :=
  match p.1 with
  | Some _ => bool_decide (is_Some (primary_of p))
  | None => true
  end.

(** A pair at which the cursor is dropped: the start of the bucket, or a
    primary value below the minimum. *)
Definition stops (minValue : Z) (p : pair) : bool :=
  match p with
  | (None, None) => true
  | _ =>
      match primary_of p with
      | Some primary => primary <? minValue
      | None => false
      end
  end.

(** No pair behind one at which the cursor is dropped reaches the minimum;
    so it is when keys sort by primary value. *)
Fixpoint settled (minValue : Z) (cur : list pair) : bool :=
  match cur with
  | [] => true
  | p :: cur' =>
      (if stops minValue p
       then forallb (λ p', negb (qualifies minValue p')) cur'
       else true) && settled minValue cur'
  end.

(** The IDs the cursor of slot [i] brings in from a pair. *)
Definition taken (q : IndexQuery) (i : nat) (p : pair) : list ID :=
  match minModValues q !! i with
  | Some minValue =>
      if qualifies minValue p then IndexEntry_IDs (content p.2) else []
  | None => []
  end.

Definition taken_all (q : IndexQuery) (i : nat) (ps : list pair) : list ID :=
  flat_map (taken q i) ps.

Definition slot_settled (q : IndexQuery) (i : nat) (cur : list pair) : bool :=
  match minModValues q !! i with
  | Some minValue => settled minValue cur
  | None => true
  end.

Definition slot_owed (q : IndexQuery) (id : ID) (i : nat) (s : option Cursor)
  : nat :=
  match s with
  | Some cur => occ id (taken_all q i cur)
  | None => 0
  end.

(** Registrations of [id] the slots from the [i]-th on would still bring in
    if their cursors were read to the end. *)
Fixpoint owed_from (q : IndexQuery) (id : ID) (i : nat)
    (cs : list (option Cursor)) : nat :=
  match cs with
  | [] => 0
  | s :: cs' => slot_owed q id i s + owed_from q id (S i) cs'
  end.

Definition owed (q : IndexQuery) (id : ID) (c : indexQueryContext) : nat :=
  owed_from q id 0 (cursors c).

Definition balance (q : IndexQuery) (id : ID) (c : indexQueryContext) : Z :=
  credit q id c + Z.of_nat (owed q id c).

(** Every live cursor is settled for the minimum of its mod. *)
Definition tidy (q : IndexQuery) (c : indexQueryContext) : Prop :=
  ∀ i cur, cursors c !! i = Some (Some cur) → slot_settled q i cur = true.

(** Every live cursor has a minimum to compare with and only readable pairs
    ahead. *)
Definition clean (q : IndexQuery) (c : indexQueryContext) : Prop :=
  (length (cursors c) ≤ length (minModValues q))%nat ∧
  ∀ i cur, cursors c !! i = Some (Some cur) → forallb readable cur = true.

(** [id] is listed in the bucket of the [i]-th mod under a key whose primary
    value reaches the minimum of that mod. *)
Definition listed_under (q : IndexQuery) (t : Tx) (i : nat) (id : ID) : Prop :=
  ∃ m b kb v primary rest minValue,
    mods q !! i = Some m ∧
    getItemModIndexBucketRO (rootType q) (rootFlavor q) m (league q) t
      = inr b ∧
    (Some kb, v) ∈ b ∧
    decodeModIndexKey kb = inr (primary :: rest) ∧
    minModValues q !! i = Some minValue ∧
    minValue ≤ primary ∧
    id ∈ IndexEntry_IDs (content v).

(** The buckets of the query are settled: read from the tail, no pair
    behind one at which the cursor is dropped reaches the minimum. *)
Definition store_settled (q : IndexQuery) (t : Tx) : Prop :=
  ∀ i m b, mods q !! i = Some m →
    getItemModIndexBucketRO (rootType q) (rootFlavor q) m (league q) t
      = inr b →
    slot_settled q i (Bucket_Cursor b) = true.

(** Every bucket of the query opens and holds readable pairs only. *)
Definition store_readable (q : IndexQuery) (t : Tx) : Prop :=
  ∀ m, m ∈ mods q →
    ∃ b, getItemModIndexBucketRO (rootType q) (rootFlavor q) m (league q) t
           = inr b ∧
         forallb readable b = true.

(** The keys of a bucket all decode and their primary values ascend. *)
Definition ascending (b : Bucket) : Prop :=
  StronglySorted
    (λ p p', ∃ x x', primary_of p = Some x ∧ primary_of p' = Some x' ∧ x ≤ x')
    b.

Definition store_ascending (q : IndexQuery) (t : Tx) : Prop :=
  ∀ m b, m ∈ mods q →
    getItemModIndexBucketRO (rootType q) (rootFlavor q) m (league q) t
      = inr b →
    ascending b.

(** A pair the first mod of the query accepts. *)
Definition accepted (q : IndexQuery) (p : pair) : Prop :=
  ∃ minValue, minModValues q !! 0%nat = Some minValue ∧
              qualifies minValue p = true.

(** The context of a query with one mod whose cursor, opened at [cur0], has
    been read [j] pairs on: the result lists the IDs of those pairs, all of
    them accepted where they have a key, and the map is empty. *)
Definition read_to (q : IndexQuery) (cur0 : Cursor) (j : nat)
    (c : indexQueryContext) : Prop :=
  result c = flat_map (λ p, match p.1 with
                            | Some _ => IndexEntry_IDs (content p.2)
                            | None => []
                            end) (take j cur0) ∧
  set c = ∅ ∧
  ∀ p, p ∈ take j cur0 → is_Some p.1 → accepted q p.

(** An error [checkPair] makes of a key: the decoder's own, wrapped, or the
    complaint about a key without values. *)
Definition key_error (e : error) : Prop :=
  (∃ k err, decodeModIndexKey k = inl err ∧
            e = Wrap err "failed to decode mod index key") ∨
  (∃ k, decodeModIndexKey k = inr [] ∧
        e = Errorf "decoded item mod index key to no values, key=%v"
                   [OpBytes k]).

End Keys.
End idx.

(** *** Items against a predicate *)

Import cmd.

(** A mod instance that counts: its name is in the map and its primary value
    reaches the minimum found there. *)
Definition counts (required : gmap string Z) (m : ItemMod) : bool :=
  match required !! Template m with
  | Some min =>
      match Values m with
      | primary :: _ => min <=? primary
      | [] => false
      end
  | None => false
  end.

(** An item that carries each mod of the predicate at most once, and with at
    least one value. *)
Definition plain_for (search : MultiModSearch) (item : Item) : Prop :=
  NoDup (Template <$> filter (λ m, Template m ∈ Mods search) (GetMods item)) ∧
  ∀ m, m ∈ GetMods item → Template m ∈ Mods search → Values m ≠ [].

(** The names of the instances of an item that count. *)
Definition counted (required : gmap string Z) (item : Item) : list string :=
  Template <$> filter (λ m, counts required m = true) (GetMods item).

(** An item without the mods the predicate does not name. *)
Definition strip (search : MultiModSearch) (item : Item) : Item :=
  mkItem (filter (λ m, Template m ∈ Mods search) (GetMods item)).

(** No mod instance the predicate names comes without a value. *)
Definition valued (search : MultiModSearch) (item : Item) : Prop :=
  ∀ m, m ∈ GetMods item → Template m ∈ Mods search → Values m ≠ [].

(** ** Sample collaborators and stores

    A key decoder reading big-endian 16-bit numbers, an entry format with one
    ID per byte, and the reference scale factor of the specification. *)

Module sample.

Definition factor : Z := 10.
Definition max_cap : Z := 2 ^ 40.

Fixpoint decode (k : bytes) : error + list Z :=
  match k with
  | [] => inr []
  | [_] => inl (External 0)
  | hi :: lo :: k' =>
      match decode k' with
      | inl e => inl e
      | inr vs => inr ((256 * Z.of_N (Byte.to_N hi) + Z.of_N (Byte.to_N lo)) :: vs)
      end
  end.

Definition ids (v : bytes) : list ID := map Byte.to_N v.

(** The key of primary value 256 * hi + lo, and an entry of IDs. *)
Definition key (hi lo : Byte.byte) : option bytes := Some [hi; lo].
Definition entry (l : list Byte.byte) : option bytes := Some l.

(** A store in which every lookup answers with the same bucket. *)
Definition uniform (b : Bucket) : DB := mkDB (inr (mkTx (λ _ _ _ _, inr b))).

(** A store in which mod [m] is answered by [f m]. *)
Definition by_mod (f : StringHeapID → error + Bucket) : DB :=
  mkDB (inr (mkTx (λ _ _ m _, f m))).

(** One mod, at least 1 (stored as 10 and more), one item wanted; the
    bucket holds a single key, of primary value 10, with two items. *)
Definition one_wanted : IndexQuery :=
  NewIndexQuery factor 1%N 2%N [5%N] [1] 0%N 1.
Definition two_under_one_key : DB :=
  uniform [(key Byte.x00 Byte.x0a, entry [Byte.x01; Byte.x02])].

(** The same query over a bucket that lists item 7 twice under one key. *)
Definition listed_twice : DB :=
  uniform [(key Byte.x00 Byte.x0a, entry [Byte.x07; Byte.x07])].

(** Four keys of primary values 10 to 13, one item each; up to 40 wanted. *)
Definition forty_wanted : IndexQuery :=
  NewIndexQuery factor 1%N 2%N [5%N] [1] 0%N 40.
Definition four_keys : Bucket :=
  [(key Byte.x00 Byte.x0a, entry [Byte.x01]);
   (key Byte.x00 Byte.x0b, entry [Byte.x02]);
   (key Byte.x00 Byte.x0c, entry [Byte.x03]);
   (key Byte.x00 Byte.x0d, entry [Byte.x04])].
Definition four_keys_tx : Tx := mkTx (λ _ _ _ _, inr four_keys).

(** A store whose bucket for the one queried mod cannot be opened. *)
Definition unopenable : DB := by_mod (λ _, inl (External 3)).

(** No mod has a bucket; a negative number of items wanted. *)
Definition none_wanted_less : IndexQuery :=
  NewIndexQuery factor 1%N 2%N [5%N] [1] 0%N (-1).
Definition no_buckets : DB := uniform missing_bucket.

(** The same with no item wanted. *)
Definition none_wanted : IndexQuery :=
  NewIndexQuery factor 1%N 2%N [5%N] [1] 0%N 0.

(** Two mods, neither with a bucket; four items wanted. *)
Definition two_mods : IndexQuery :=
  NewIndexQuery factor 1%N 2%N [5%N; 6%N] [24; 27] 0%N 4.
Definition no_buckets_tx : Tx := mkTx (λ _ _ _ _, inr missing_bucket).

(** The context of [forty_wanted] over [four_keys] once primed. *)
Definition primed : indexQueryContext :=
  mkCtx four_keys_tx 1 [Some (rev (take 3 four_keys))] ∅ [4%N].

(** A minimum of 7000, stored as 70000 modulo 2^16. *)
Definition wrapped : IndexQuery :=
  NewIndexQuery factor 1%N 2%N [5%N] [7000] 0%N 1.

(** Boots with movement speed and fire resistance. *)
Definition boots : MultiModSearch :=
  mkSearch 4 "Armour" "Boots" "Legacy"
           ["#% increased Movement Speed"; "+#% to Fire Resistance"]%string
           [24; 27].

(** An item with two instances of movement speed and no fire resistance. *)
Definition fast_twice : Item :=
  mkItem [mkItemMod "#% increased Movement Speed" [30];
          mkItemMod "#% increased Movement Speed" [25]].

(** An item with both mods of [boots], and one mod more that has no value. *)
Definition good_boots : Item :=
  mkItem [mkItemMod "#% increased Movement Speed" [30];
          mkItemMod "+# to maximum Life" [];
          mkItemMod "+#% to Fire Resistance" [27; 3]].

(** Two mods over two buckets: movement speed at least 1 (stored as 10) and
    fire resistance at least 2 (stored as 20), four items wanted.  Items 1
    and 2 reach both minima; item 3 has fire resistance 10 only. *)
Definition speed_and_fire : IndexQuery :=
  NewIndexQuery factor 1%N 2%N [5%N; 6%N] [1; 2] 0%N 4.
Definition speed_bucket : Bucket :=
  [(key Byte.x00 Byte.x0a, entry [Byte.x01; Byte.x02]);
   (key Byte.x00 Byte.x14, entry [Byte.x03])].
Definition fire_bucket : Bucket :=
  [(key Byte.x00 Byte.x0a, entry [Byte.x03]);
   (key Byte.x00 Byte.x14, entry [Byte.x01]);
   (key Byte.x00 Byte.x1e, entry [Byte.x02])].
Definition two_buckets_tx : Tx :=
  mkTx (λ _ _ m _, if (m =? 5)%N then inr speed_bucket else inr fire_bucket).
Definition two_buckets : DB := mkDB (inr two_buckets_tx).

(** The context [Run] ends with for [speed_and_fire] over [two_buckets]. *)
Definition both_read : indexQueryContext :=
  mkCtx two_buckets_tx 0 [None; None] {[3%N := 1]} [2%N; 1%N].

(** The context [Run] ends with for [one_wanted] over [four_keys]. *)
Definition two_read : indexQueryContext :=
  mkCtx four_keys_tx 1 [Some (rev (take 2 four_keys))] ∅ [4%N; 3%N].

(** The context the search ends with from [primed]. *)
Definition all_read : indexQueryContext :=
  mkCtx four_keys_tx 0 [None] ∅ [4%N; 3%N; 2%N; 1%N].

(** A bucket whose only key has an odd number of bytes. *)
Definition odd_key : DB := uniform [(Some [Byte.x01], entry [Byte.x01])].

(** An item with movement speed twice and fire resistance once. *)
Definition fast_twice_warm : Item :=
  mkItem [mkItemMod "#% increased Movement Speed" [30];
          mkItemMod "#% increased Movement Speed" [25];
          mkItemMod "+#% to Fire Resistance" [27]].

(** [boots] with a lower minimum of movement speed. *)
Definition slower_boots : MultiModSearch :=
  mkSearch 4 "Armour" "Boots" "Legacy"
           ["#% increased Movement Speed"; "+#% to Fire Resistance"]%string
           [20; 27].

(** A predicate that names movement speed twice. *)
Definition speed_twice : MultiModSearch :=
  mkSearch 4 "Armour" "Boots" "Legacy"
           ["#% increased Movement Speed"; "#% increased Movement Speed"]%string
           [24; 24].

End sample.

(** * Properties *)

(** ** Machine integers *)

Lemma int_wrap_id z : - 2 ^ 63 ≤ z < 2 ^ 63 → int_wrap z = z.
Proof.
  intros Hz. unfold int_wrap.
  rewrite Z.mod_small; lia.
Qed.

Lemma int_wrap_range z : - 2 ^ 63 ≤ int_wrap z < 2 ^ 63.
Proof.
  unfold int_wrap.
  pose proof (Z.mod_pos_bound (z + 2 ^ 63) (2 ^ 64) ltac:(lia)). lia.
Qed.

Lemma int_wrap_cases z :
  ∃ k, int_wrap z = z - 2 ^ 64 * k.
Proof.
  unfold int_wrap. exists ((z + 2 ^ 63) `div` 2 ^ 64).
  pose proof (Z.div_mod (z + 2 ^ 63) (2 ^ 64) ltac:(lia)). lia.
Qed.

(** ** The context under the helpers *)

Section Frames.

Variable decodeModIndexKey : bytes → error + list Z.
Variable IndexEntry_IDs : bytes → list ID.

Local Abbreviation ForEachID := (db.ForEachID IndexEntry_IDs).
Local Abbreviation checkPair := (db.checkPair decodeModIndexKey IndexEntry_IDs).
Local Abbreviation stride_cursor :=
  (db.stride_cursor decodeModIndexKey IndexEntry_IDs).
Local Abbreviation stride_slots :=
  (db.stride_slots decodeModIndexKey IndexEntry_IDs).
Local Abbreviation stride := (db.stride decodeModIndexKey IndexEntry_IDs).
Local Abbreviation prime_slots :=
  (db.prime_slots decodeModIndexKey IndexEntry_IDs).
Local Abbreviation search := (db.search decodeModIndexKey IndexEntry_IDs).

Lemma registerID_cursors q id c :
  cursors (registerID q id c) = cursors c ∧
  validCursors (registerID q id c) = validCursors c.
Proof. unfold registerID. by case_match. Qed.

Lemma register_all_cursors q l c :
  cursors (fold_left (λ c id, registerID q id c) l c) = cursors c ∧
  validCursors (fold_left (λ c id, registerID q id c) l c) = validCursors c.
Proof.
  revert c. induction l as [|id l IH]; intros c; simpl; [done|].
  destruct (IH (registerID q id c)) as [-> ->]. apply registerID_cursors.
Qed.

Lemma ForEachID_cursors q v c :
  cursors (ForEachID v (registerID q) c) = cursors c ∧
  validCursors (ForEachID v (registerID q) c) = validCursors c.
Proof. apply register_all_cursors. Qed.

(** [checkPair] answers in one of four ways. *)
Lemma checkPair_cases q k v i c r c' :
  checkPair q k v i c = Ret r c' →
  (∃ e, r = (0, Some e) ∧ c' = c) ∨
  (∃ primary rest minValue,
      decodeModIndexKey k = inr (primary :: rest) ∧
      minModValues q !! i = Some minValue ∧ r = (0, None) ∧
      ((minValue ≤ primary ∧ c' = ForEachID v (registerID q) c) ∨
       (primary < minValue ∧ removeCursor i c = Ret tt c'))).
Proof.
  unfold db.checkPair.
  destruct (decodeModIndexKey k) as [e|[|primary rest]].
  - intros [= <- <-]. left. eauto.
  - intros [= <- <-]. left. eauto.
  - destruct (minModValues q !! i) as [minValue|]; [|done].
    destruct (Z.leb_spec minValue primary).
    + intros [= <- <-]. right. exists primary, rest, minValue. eauto 10.
    + destruct (removeCursor i c) as [[] c1| |] eqn:Hrm; [|done..].
      intros [= <- <-]. right. exists primary, rest, minValue. eauto 10.
Qed.

(** The count [checkPair] hands back is zero whatever it did. *)
Lemma checkPair_count_zero q k v i c n e c' :
  checkPair q k v i c = Ret (n, e) c' → n = 0.
Proof.
  intros H. apply checkPair_cases in H as [(e' & [= -> _] & _)|H]; [done|].
  destruct H as (? & ? & ? & _ & _ & [= -> _] & _). done.
Qed.

Lemma removeCursor_Ret i c u c' :
  removeCursor i c = Ret u c' →
  (i < length (cursors c))%nat ∧
  cursors c' = <[i := None]> (cursors c) ∧
  validCursors c' = int_wrap (validCursors c - 1) ∧
  set c' = set c ∧ result c' = result c.
Proof.
  unfold removeCursor. case_decide; [|done]. by intros [= <- <-].
Qed.

Lemma removeCursor_no_fuel i c : removeCursor i c ≠ NoFuel.
Proof. unfold removeCursor. by case_decide. Qed.

(** Slots other than the one a pair was read from are left alone. *)
Lemma checkPair_frame q k v i c r c' j :
  checkPair q k v i c = Ret r c' → j ≠ i →
  cursors c' !! j = cursors c !! j.
Proof.
  intros H Hj. apply checkPair_cases in H as [(e & _ & ->)|H]; [done|].
  destruct H as (? & ? & ? & _ & _ & _ & [[_ ->]|[_ Hrm]]).
  - by destruct (ForEachID_cursors q v c) as [-> _].
  - apply removeCursor_Ret in Hrm as (_ & -> & _).
    by rewrite list_lookup_insert_ne.
Qed.

Lemma stride_cursor_frame q i index cur c r c' j :
  stride_cursor q i index cur c = Ret r c' → j ≠ i →
  cursors c' !! j = cursors c !! j.
Proof.
  intros H Hj. revert index c H.
  induction cur as [|[k v] cur IH]; intros index c; simpl.
  - case_match; [|by intros [= _ <-]].
    destruct (removeCursor i c) as [[] c1| |] eqn:Hrm; [|done..].
    intros [= _ <-]. apply removeCursor_Ret in Hrm as (_ & -> & _).
    by rewrite list_lookup_insert_ne.
  - case_match; [|by intros [= _ <-]].
    assert (Hmv : cursors (moved i cur c) !! j = cursors c !! j).
    { simpl. by rewrite list_lookup_insert_ne. }
    destruct k as [kb|].
    + destruct (checkPair q kb (content v) i (moved i cur c))
        as [[n [e|]] c1| |] eqn:Hcp; [| |done..].
      * intros [= _ <-]. rewrite <- Hmv. eapply checkPair_frame; eauto.
      * pose proof (checkPair_frame _ _ _ _ _ _ _ j Hcp Hj) as Hfr.
        case_match.
        -- intros [= _ <-]. congruence.
        -- intros Hs. rewrite (IH _ _ Hs). congruence.
    + destruct v as [vb|].
      * intros Hs. by rewrite (IH _ _ Hs).
      * destruct (removeCursor i (moved i cur c)) as [[] c1| |] eqn:Hrm;
          [|done..].
        intros [= _ <-]. apply removeCursor_Ret in Hrm as (_ & -> & _).
        rewrite list_lookup_insert_ne; [done|congruence].
Qed.

(** A slot that holds nil holds nil after any number of passes. *)
Lemma stride_slots_nil q slots c r c' j :
  stride_slots q slots c = Ret r c' →
  cursors c !! j = Some None → cursors c' !! j = Some None.
Proof.
  revert c. induction slots as [|i slots IH]; intros c; simpl.
  - by intros [= _ <-].
  - destruct (cursors c !! i) as [[cur|]|] eqn:Hi; [|by apply IH..].
    destruct (stride_cursor q i 0 cur c) as [[e|] c1| |] eqn:Hsc; [| |done..].
    + intros [= _ <-] Hj.
      rewrite (stride_cursor_frame _ _ _ _ _ _ _ j Hsc); [done|congruence].
    + intros Hs Hj. apply (IH _ Hs).
      rewrite (stride_cursor_frame _ _ _ _ _ _ _ j Hsc); [done|congruence].
Qed.

Lemma stride_nil q c r c' j :
  stride q c = Ret r c' →
  cursors c !! j = Some None → cursors c' !! j = Some None.
Proof. apply stride_slots_nil. Qed.

Lemma search_nil fuel q found c r c' j :
  search fuel q found c = Ret r c' →
  cursors c !! j = Some None → cursors c' !! j = Some None.
Proof.
  revert found c. induction fuel as [|fuel IH]; intros found c; simpl.
  - case_match; [done|]. by intros [= _ <-].
  - case_match; [|by intros [= _ <-]].
    destruct (stride q c) as [[e|] c1| |] eqn:Hst; [| |done..].
    + intros [= _ <-]. by eapply stride_nil.
    + intros Hs Hj. eapply IH; [done|]. by eapply stride_nil.
Qed.

End Frames.

(** ** Progress of a pass *)


Lemma sum_list_insert {A : Type} (f : A → nat) (l : list A) i s s' :
  l !! i = Some s →
  (sum_list (map f (<[i := s']> l)) + f s = sum_list (map f l) + f s')%nat.
Proof.
  revert i. induction l as [|a l IH]; intros [|i]; simpl; try done.
  - intros [= ->]. lia.
  - intros Hi. specialize (IH _ Hi). lia.
Qed.

Lemma sum_list_pointwise {A : Type} (f g : A → nat) (l : list A) :
  (∀ a, f a ≤ g a)%nat → (sum_list (map f l) ≤ sum_list (map g l))%nat.
Proof.
  intros Hfg. induction l as [|a l IH]; simpl; [done|].
  specialize (Hfg a). lia.
Qed.

Lemma live_le_budget c : (live c ≤ budget c)%nat.
Proof.
  apply sum_list_pointwise. intros [cur|]; simpl; lia.
Qed.

Lemma live_exists l :
  (0 < sum_list (map is_live l))%nat →
  ∃ i cur, l !! i = Some (Some cur).
Proof.
  induction l as [|[cur|] l IH]; simpl; [lia| |].
  - intros _. by exists O, cur.
  - intros Hl. destruct (IH Hl) as (i & cur & Hi). by exists (S i), cur.
Qed.

Lemma counts_live_positive c :
  counts_live c → 0 < validCursors c →
  ∃ i cur, cursors c !! i = Some (Some cur).
Proof.
  intros (k & Hk & Hl & _) Hv. apply live_exists.
  fold (live c). nia.
Qed.

Lemma moved_live i cur cur' c :
  cursors c !! i = Some (Some cur) →
  cursors (moved i cur' c) !! i = Some (Some cur') ∧
  live (moved i cur' c) = live c ∧
  (budget (moved i cur' c) + length cur = budget c + length cur')%nat ∧
  validCursors (moved i cur' c) = validCursors c.
Proof.
  intros Hi. unfold live, budget, moved; simpl.
  pose proof (lookup_lt_Some _ _ _ Hi) as Hlt.
  pose proof (sum_list_insert is_live _ _ _ (Some cur') Hi) as Hl.
  pose proof (sum_list_insert slot_budget _ _ _ (Some cur') Hi) as Hb.
  simpl in *. split; [by apply list_lookup_insert_eq|]. lia.
Qed.

Lemma removeCursor_live i cur c :
  cursors c !! i = Some (Some cur) →
  ∃ c', removeCursor i c = Ret tt c' ∧
        cursors c' !! i = Some None ∧
        (budget c' < budget c)%nat ∧
        (counts_live c → counts_live c').
Proof.
  intros Hi. pose proof (lookup_lt_Some _ _ _ Hi) as Hlt.
  unfold removeCursor. case_decide; [|lia].
  eexists. split; [done|]. simpl.
  pose proof (sum_list_insert is_live _ _ _ None Hi) as Hl.
  pose proof (sum_list_insert slot_budget _ _ _ None Hi) as Hb.
  simpl in *. split; [by apply list_lookup_insert_eq|].
  split; [unfold budget; simpl; lia|].
  intros (k & Hk & Hc & Hv). unfold counts_live, live in *. simpl.
  destruct (int_wrap_cases (validCursors c - 1)) as [j Hj].
  pose proof (int_wrap_range (validCursors c - 1)) as Hr.
  exists (j + k). lia.
Qed.

Section Progress.

Variable maxSliceCap : Z.
Variable decodeModIndexKey : bytes → error + list Z.
Variable IndexEntry_IDs : bytes → list ID.

Local Abbreviation ForEachID := (db.ForEachID IndexEntry_IDs).
Local Abbreviation checkPair := (db.checkPair decodeModIndexKey IndexEntry_IDs).
Local Abbreviation stride_cursor :=
  (db.stride_cursor decodeModIndexKey IndexEntry_IDs).
Local Abbreviation stride_slots :=
  (db.stride_slots decodeModIndexKey IndexEntry_IDs).
Local Abbreviation stride := (db.stride decodeModIndexKey IndexEntry_IDs).
Local Abbreviation prime_slots :=
  (db.prime_slots decodeModIndexKey IndexEntry_IDs).
Local Abbreviation search := (db.search decodeModIndexKey IndexEntry_IDs).
Local Abbreviation Run_body := (db.Run_body maxSliceCap decodeModIndexKey IndexEntry_IDs).
Local Abbreviation initContext := (db.initContext maxSliceCap).
Local Abbreviation Run := (db.Run maxSliceCap decodeModIndexKey IndexEntry_IDs).

Lemma checkPair_no_fuel q k v i c : checkPair q k v i c ≠ NoFuel.
Proof.
  unfold db.checkPair. repeat case_match; try done.
  intros _. by eapply removeCursor_no_fuel.
Qed.

Lemma checkPair_live q k v i cur c r c' :
  checkPair q k v i c = Ret r c' →
  cursors c !! i = Some (Some cur) →
  (budget c' ≤ budget c)%nat ∧ (counts_live c → counts_live c').
Proof.
  intros H Hi. apply checkPair_cases in H as [(e & _ & ->)|H]; [done|].
  destruct H as (? & ? & ? & _ & _ & _ & [[_ ->]|[_ Hrm]]).
  - destruct (ForEachID_cursors IndexEntry_IDs q v c) as [Hc Hv].
    unfold budget, counts_live, live. by rewrite Hc, Hv.
  - destruct (removeCursor_live _ _ _ Hi) as (c1 & Hrm' & _ & Hb & Hl).
    rewrite Hrm in Hrm'. injection Hrm' as ->. split; [lia|done].
Qed.

Lemma stride_cursor_no_fuel q i index cur c :
  stride_cursor q i index cur c ≠ NoFuel.
Proof.
  revert index c. induction cur as [|[k v] cur IH]; intros index c; simpl.
  - repeat case_match; try done. intros _. by eapply removeCursor_no_fuel.
  - case_match; [|done]. destruct k as [kb|].
    + destruct (checkPair q kb (content v) i (moved i cur c))
        as [[n [e|]] c1| |] eqn:Hcp.
      * done.
      * case_match; [done|apply IH].
      * done.
      * by apply checkPair_no_fuel in Hcp.
    + destruct v; [apply IH|].
      repeat case_match; try done. intros _. by eapply removeCursor_no_fuel.
Qed.

(** One turn of the per-cursor loop on a live slot: the cursor moves towards
    the start of its bucket or the slot is cleared. *)
Lemma stride_cursor_progress q i index cur c r c' :
  stride_cursor q i index cur c = Ret r c' →
  cursors c !! i = Some (Some cur) →
  (budget c' ≤ budget c)%nat ∧
  (index < LookupItemsMultiModStrideLength → (budget c' < budget c)%nat) ∧
  (counts_live c → counts_live c').
Proof.
  revert index c. induction cur as [|[k v] cur IH]; intros index c; simpl.
  - destruct (Z.ltb_spec index LookupItemsMultiModStrideLength).
    + intros Hs Hi.
      destruct (removeCursor_live _ _ _ Hi) as (c1 & Hrm & _ & Hb & Hl).
      rewrite Hrm in Hs. injection Hs as _ <-. repeat split; [lia|done..].
    + intros [= _ <-] _. repeat split; [done|lia|done].
  - destruct (Z.ltb_spec index LookupItemsMultiModStrideLength);
      [|intros [= _ <-] _; repeat split; [done|lia|done]].
    intros Hs Hi.
    destruct (moved_live i _ cur c Hi) as (Hi1 & Hl1 & Hb1 & Hv1).
    assert (Hinv : counts_live c → counts_live (moved i cur c)).
    { unfold counts_live. by rewrite Hl1, Hv1. }
    simpl in Hb1.
    destruct k as [kb|].
    + destruct (checkPair q kb (content v) i (moved i cur c))
        as [[n [e|]] c1| |] eqn:Hcp; [| |done..].
      * injection Hs as _ <-.
        destruct (checkPair_live _ _ _ _ _ _ _ _ Hcp Hi1) as [Hb Hl].
        repeat split; [lia|lia|auto].
      * pose proof (checkPair_count_zero _ _ _ _ _ _ _ _ _ _ Hcp) as ->.
        simpl in Hs. injection Hs as _ <-.
        destruct (checkPair_live _ _ _ _ _ _ _ _ Hcp Hi1) as [Hb Hl].
        repeat split; [lia|lia|auto].
    + destruct v as [vb|].
      * destruct (IH _ _ Hs Hi1) as (Hb & _ & Hl).
        repeat split; [lia|lia|auto].
      * destruct (removeCursor_live _ _ _ Hi1) as (c1 & Hrm & _ & Hb & Hl).
        rewrite Hrm in Hs. injection Hs as _ <-.
        repeat split; [lia|lia|auto].
Qed.

(** The per-cursor loop is left after the first pair that has a key,
    whatever [checkPair] made of it: the count it hands back is zero. *)
Lemma stride_cursor_one_pair q i kb v cur c :
  stride_cursor q i 0 ((Some kb, v) :: cur) c =
    match checkPair q kb (content v) i (moved i cur c) with
    | Ret (_, Some err) c' =>
        Ret (Some (Wrap err "failed to check value pair")) c'
    | Ret (_, None) c' => Ret None c'
    | Panic => Panic
    | NoFuel => NoFuel
    end.
Proof.
  simpl.
  destruct (checkPair q kb (content v) i (moved i cur c))
    as [[n [e|]] c1| |] eqn:Hcp; try done.
  by rewrite (checkPair_count_zero _ _ _ _ _ _ _ _ _ _ Hcp).
Qed.

(** The per-cursor loop, one turn at a time, in terms of [Prev]. *)
Lemma stride_cursor_Prev q i index cur c :
  cursors c !! i = Some (Some cur) →
  stride_cursor q i index cur c =
    if index <? LookupItemsMultiModStrideLength then
      let '((k, v), cur') := Cursor_Prev cur in
      let c := moved i cur' c in
      match k with
      | None =>
          match v with
          | None =>
              match removeCursor i c with
              | Ret _ c' => Ret None c'
              | Panic => Panic
              | NoFuel => NoFuel
              end
          | Some _ => stride_cursor q i index cur' c
          end
      | Some kb =>
          match checkPair q kb (content v) i c with
          | Ret (countFound, Some err) c' =>
              Ret (Some (Wrap err "failed to check value pair")) c'
          | Ret (countFound, None) c' =>
              if countFound <? 1 then Ret None c'
              else stride_cursor q i (int_wrap (index + countFound)) cur' c'
          | Panic => Panic
          | NoFuel => NoFuel
          end
      end
    else Ret None c.
Proof.
  intros Hi. destruct cur as [|[k v] cur]; simpl; [|done].
  assert (Hid : moved i [] c = c).
  { destruct c. unfold moved, with_cursors. simpl in *. f_equal.
    by apply list_insert_id. }
  by rewrite Hid.
Qed.

Lemma stride_slots_no_fuel q slots c : stride_slots q slots c ≠ NoFuel.
Proof.
  revert c. induction slots as [|i slots IH]; intros c; simpl; [done|].
  destruct (cursors c !! i) as [[cur|]|]; [|apply IH..].
  destruct (stride_cursor q i 0 cur c) as [[e|] c1| |] eqn:Hsc;
    [done|apply IH|done|].
  by apply stride_cursor_no_fuel in Hsc.
Qed.

Lemma stride_slots_progress q slots c r c' :
  stride_slots q slots c = Ret r c' →
  (budget c' ≤ budget c)%nat ∧
  ((∃ i cur, i ∈ slots ∧ cursors c !! i = Some (Some cur)) →
   (budget c' < budget c)%nat) ∧
  (counts_live c → counts_live c').
Proof.
  revert c. induction slots as [|i slots IH]; intros c; simpl.
  - intros [= _ <-]. repeat split; [done| |done].
    intros (i & cur & Hi & _). by apply elem_of_nil in Hi.
  - destruct (cursors c !! i) as [[cur|]|] eqn:Hi.
    + destruct (stride_cursor q i 0 cur c) as [[e|] c1| |] eqn:Hsc;
        [| |done..];
        destruct (stride_cursor_progress _ _ _ _ _ _ _ Hsc Hi)
          as (Hb & Hlt & Hl);
        specialize (Hlt ltac:(done)).
      * intros [= _ <-]. repeat split; [lia|intros _; lia|done].
      * intros Hs. destruct (IH _ Hs) as (Hb' & _ & Hl').
        repeat split; [lia|intros _; lia|auto].
    + intros Hs. destruct (IH _ Hs) as (Hb' & Hlt' & Hl').
      repeat split; [done| |done].
      intros (j & cur & Hj & Hcur). apply Hlt'.
      apply elem_of_cons in Hj as [->|Hj]; [congruence|eauto].
    + intros Hs. destruct (IH _ Hs) as (Hb' & Hlt' & Hl').
      repeat split; [done| |done].
      intros (j & cur & Hj & Hcur). apply Hlt'.
      apply elem_of_cons in Hj as [->|Hj]; [congruence|eauto].
Qed.

(** A pass over a context with a live slot uses up some of its budget. *)
Lemma stride_progress q c r c' :
  stride q c = Ret r c' →
  (∃ i cur, cursors c !! i = Some (Some cur)) →
  (budget c' < budget c)%nat.
Proof.
  intros Hs (i & cur & Hi). apply stride_slots_progress in Hs as (_ & Hlt & _).
  apply Hlt. exists i, cur. split; [|done].
  apply elem_of_seq. pose proof (lookup_lt_Some _ _ _ Hi). lia.
Qed.

Lemma stride_counts_live q c r c' :
  stride q c = Ret r c' → counts_live c → counts_live c'.
Proof. intros Hs. by apply stride_slots_progress in Hs as (_ & _ & Hl). Qed.

(** The search loop answers within [budget] passes. *)
Lemma search_no_fuel fuel q found c :
  counts_live c → (budget c ≤ fuel)%nat → search fuel q found c ≠ NoFuel.
Proof.
  revert found c. induction fuel as [|fuel IH]; intros found c Hl Hb; simpl.
  - destruct ((found <? maxDesired q) && (0 <? validCursors c)) eqn:Hcond;
      [|done].
    apply andb_prop in Hcond as [_ Hv%Z.ltb_lt].
    destruct (counts_live_positive _ Hl Hv) as (i & cur & Hi).
    pose proof (live_le_budget c). pose proof (lookup_lt_Some _ _ _ Hi).
    assert (0 < live c)%nat; [|lia].
    destruct Hl as (k & ? & ? & ?). nia.
  - destruct ((found <? maxDesired q) && (0 <? validCursors c)) eqn:Hcond;
      [|done].
    apply andb_prop in Hcond as [_ Hv%Z.ltb_lt].
    destruct (stride q c) as [[e|] c1| |] eqn:Hs; [done| |done|].
    + apply IH; [by eapply stride_counts_live|].
      pose proof (stride_progress _ _ _ _ Hs
                    (counts_live_positive _ Hl Hv)). lia.
    + by apply stride_slots_no_fuel in Hs.
Qed.

(** More passes than needed change nothing. *)
Lemma search_more_fuel fuel fuel' q found c :
  search fuel q found c ≠ NoFuel → (fuel ≤ fuel')%nat →
  search fuel' q found c = search fuel q found c.
Proof.
  revert fuel' found c.
  induction fuel as [|fuel IH]; intros fuel' found c; simpl.
  - destruct ((found <? maxDesired q) && (0 <? validCursors c)) eqn:Hcond;
      [done|]. intros _ _. destruct fuel'; simpl; by rewrite Hcond.
  - destruct ((found <? maxDesired q) && (0 <? validCursors c)) eqn:Hcond.
    + intros Hs Hle. destruct fuel' as [|fuel']; [lia|]. simpl.
      rewrite Hcond. destruct (stride q c) as [[e|] c1| |]; try done.
      apply IH; [done|lia].
    + intros _ _. destruct fuel'; simpl; by rewrite Hcond.
Qed.

Lemma prime_slots_no_fuel q slots c : prime_slots q slots c ≠ NoFuel.
Proof.
  revert c. induction slots as [|i slots IH]; intros c; simpl; [done|].
  destruct (cursors c !! i) as [[cur|]|]; [|done|apply IH].
  destruct (Cursor_Last cur) as [[k v] cur'].
  destruct k as [kb|]; [|apply IH].
  destruct (checkPair q kb (content v) i (moved i cur' c))
    as [[n [e|]] c1| |] eqn:Hcp; [done|apply IH|done|].
  by apply checkPair_no_fuel in Hcp.
Qed.

Lemma prime_slots_counts_live q slots c r c' :
  prime_slots q slots c = Ret r c' → counts_live c → counts_live c'.
Proof.
  revert c. induction slots as [|i slots IH]; intros c; simpl.
  - by intros [= _ <-].
  - destruct (cursors c !! i) as [[cur|]|] eqn:Hi; [|done|apply IH].
    destruct (Cursor_Last cur) as [[k v] cur'].
    destruct (moved_live i _ cur' c Hi) as (Hi1 & Hl1 & _ & Hv1).
    assert (Hinv : counts_live c → counts_live (moved i cur' c)).
    { unfold counts_live. by rewrite Hl1, Hv1. }
    destruct k as [kb|]; [|intros Hs Hc; eapply IH; eauto].
    destruct (checkPair q kb (content v) i (moved i cur' c))
      as [[n [e|]] c1| |] eqn:Hcp; [| |done..];
      destruct (checkPair_live _ _ _ _ _ _ _ _ Hcp Hi1) as [_ Hl].
    + intros [= _ <-]. auto.
    + intros Hs Hc. eapply IH; eauto.
Qed.

Lemma open_cursors_live q t ms cs :
  open_cursors q t ms = inr cs →
  length cs = length ms ∧ sum_list (map is_live cs) = length ms.
Proof.
  revert cs. induction ms as [|m ms IH]; intros cs; simpl.
  - by intros [= <-].
  - destruct (getItemModIndexBucketRO _ _ _ _ _); [done|].
    destruct (open_cursors q t ms) as [|cs']; [done|].
    intros [= <-]. destruct (IH _ eq_refl) as [Hn Hl]. simpl.
    by rewrite Hn, Hl.
Qed.

Lemma initContext_counts_live q t c :
  initContext q t = InitOk c → counts_live c.
Proof.
  unfold db.initContext.
  destruct (open_cursors q t (mods q)) as [|cs] eqn:Ho; [done|].
  case_match; [done|]. intros [= <-].
  apply open_cursors_live in Ho as [_ Hl].
  exists 0. unfold live, len; simpl. rewrite Hl. lia.
Qed.

Lemma Run_body_no_fuel q t : Run_body q t ≠ inl NoFuel.
Proof.
  unfold db.Run_body. destruct (initContext q t) as [c| |] eqn:Hin; [|done..].
  destruct (prime_slots q (seq 0 (length (cursors c))) c)
    as [[e|] c1| |] eqn:Hp; [done| |done|].
  - intros [= Hs]. revert Hs. apply search_no_fuel; [|done].
    eapply prime_slots_counts_live; [done|].
    by eapply initContext_counts_live.
  - by apply prime_slots_no_fuel in Hp.
Qed.

End Progress.

(** ** The accumulator *)


Lemma occ_app id l1 l2 : occ id (l1 ++ l2) = (occ id l1 + occ id l2)%nat.
Proof. apply count_occ_app. Qed.

Lemma occ_one id id' :
  occ id' [id] = if decide (id' = id) then 1%nat else 0%nat.
Proof.
  unfold occ. simpl. destruct (N.eq_dec id id'); case_decide; congruence.
Qed.

Lemma NoDup_occ (l : list ID) : NoDup l ↔ ∀ id, (occ id l ≤ 1)%nat.
Proof. rewrite NoDup_ListNoDup. apply NoDup_count_occ. Qed.

Section Accumulator.

Variable decodeModIndexKey : bytes → error + list Z.
Variable IndexEntry_IDs : bytes → list ID.

Local Abbreviation pair_ids := (acc.pair_ids IndexEntry_IDs).
Local Abbreviation listed := (acc.listed IndexEntry_IDs).
Local Abbreviation slot_occ := (acc.slot_occ IndexEntry_IDs).
Local Abbreviation pending := (acc.pending IndexEntry_IDs).
Local Abbreviation potential := (acc.potential IndexEntry_IDs).

Local Abbreviation ForEachID := (db.ForEachID IndexEntry_IDs).
Local Abbreviation checkPair := (db.checkPair decodeModIndexKey IndexEntry_IDs).
Local Abbreviation stride_cursor :=
  (db.stride_cursor decodeModIndexKey IndexEntry_IDs).
Local Abbreviation stride_slots :=
  (db.stride_slots decodeModIndexKey IndexEntry_IDs).
Local Abbreviation stride := (db.stride decodeModIndexKey IndexEntry_IDs).
Local Abbreviation prime_slots :=
  (db.prime_slots decodeModIndexKey IndexEntry_IDs).
Local Abbreviation search := (db.search decodeModIndexKey IndexEntry_IDs).


Lemma listed_rev id ps : occ id (listed (rev ps)) = occ id (listed ps).
Proof.
  unfold acc.listed. induction ps as [|p ps IH]; simpl; [done|].
  rewrite flat_map_app, !occ_app, IH. simpl. rewrite app_nil_r. lia.
Qed.

Lemma registerID_credit q id c :
  len (mods q) < 2 ^ 63 → set_ok q c →
  set_ok q (registerID q id c) ∧
  ∀ id', credit q id' (registerID q id c) =
         credit q id' c + (if decide (id' = id) then 1 else 0).
Proof.
  intros Hn Hok. unfold registerID, credit, weight.
  assert (Hs : default 0 (set c !! id) = 0 ∨
               1 ≤ default 0 (set c !! id) < len (mods q)).
  { destruct (set c !! id) as [v|] eqn:Hv; simpl; [right; eauto|by left]. }
  assert (0 ≤ len (mods q)) by (unfold len; lia).
  rewrite int_wrap_id by lia.
  destruct (Z.leb_spec (len (mods q)) (default 0 (set c !! id) + 1));
    unfold set_ok; cbn [set result].
  - split.
    + intros id' v. rewrite lookup_delete, lookup_insert.
      repeat case_decide; try done. apply Hok.
    + intros id'. rewrite occ_app, occ_one, lookup_delete, lookup_insert.
      repeat case_decide; try congruence; subst; simpl; lia.
  - split.
    + intros id' v. rewrite lookup_insert.
      case_decide; [intros [= <-]; lia|apply Hok].
    + intros id'. rewrite lookup_insert.
      repeat case_decide; try congruence; subst; simpl; lia.
Qed.

Lemma register_all_credit q l c :
  len (mods q) < 2 ^ 63 → set_ok q c →
  set_ok q (fold_left (λ c id, registerID q id c) l c) ∧
  ∀ id, credit q id (fold_left (λ c id, registerID q id c) l c) =
        credit q id c + Z.of_nat (occ id l).
Proof.
  intros Hn. revert c. induction l as [|x l IH]; intros c Hok; cbn [fold_left].
  - split; [done|]. intros id. unfold occ. simpl. lia.
  - destruct (registerID_credit q x c Hn Hok) as [Hok1 Hc1].
    destruct (IH _ Hok1) as [Hok2 Hc2]. split; [done|].
    intros id. rewrite Hc2, Hc1.
    change (x :: l) with ([x] ++ l). rewrite occ_app, occ_one.
    case_decide; lia.
Qed.

Lemma pending_insert id i s c :
  (i < length (cursors c))%nat →
  (sum_list (map (slot_occ id) (<[i := s]> (cursors c))) ≤
   pending id c + slot_occ id s)%nat.
Proof.
  intros Hi. destruct (lookup_lt_is_Some_2 _ _ Hi) as [s0 Hs0].
  pose proof (sum_list_insert (slot_occ id) _ _ _ s Hs0).
  unfold acc.pending. lia.
Qed.

(** Reading a pair moves its IDs from pending to, at most, credit. *)
Lemma checkPair_potential q k v i c r c' :
  len (mods q) < 2 ^ 63 → set_ok q c →
  checkPair q k v i c = Ret r c' →
  set_ok q c' ∧
  ∀ id, credit q id c' + Z.of_nat (pending id c') ≤
        credit q id c + Z.of_nat (pending id c) +
        Z.of_nat (occ id (IndexEntry_IDs v)).
Proof.
  intros Hn Hok H. apply checkPair_cases in H as [(e & _ & ->)|H].
  { split; [done|]. intros id. lia. }
  destruct H as (? & ? & ? & _ & _ & _ & [[_ ->]|[_ Hrm]]).
  - destruct (register_all_credit q (IndexEntry_IDs v) c Hn Hok) as [Hok' Hc].
    split; [done|]. intros id. unfold db.ForEachID. rewrite Hc.
    unfold acc.pending.
    destruct (register_all_cursors q (IndexEntry_IDs v) c) as [-> _]. lia.
  - apply removeCursor_Ret in Hrm as (Hi & Hcs & _ & Hset & Hres).
    split; [unfold set_ok; by rewrite Hset|].
    intros id. unfold credit. rewrite Hset, Hres.
    pose proof (pending_insert id i None c Hi) as Hp.
    unfold acc.pending at 1. rewrite Hcs. simpl in Hp. lia.
Qed.

Lemma moved_pending id i p cur c :
  cursors c !! i = Some (Some (p :: cur)) →
  (pending id (moved i cur c) + occ id (pair_ids p) = pending id c)%nat ∧
  cursors (moved i cur c) !! i = Some (Some cur).
Proof.
  intros Hi. pose proof (lookup_lt_Some _ _ _ Hi).
  pose proof (sum_list_insert (slot_occ id) _ _ _ (Some cur) Hi) as Hs.
  unfold acc.pending, moved. simpl in *.
  unfold acc.listed in Hs. simpl in Hs. rewrite occ_app in Hs.
  split; [unfold acc.listed, Cursor in *; lia|by apply list_lookup_insert_eq].
Qed.


Lemma removeCursor_potential q i c u c' :
  removeCursor i c = Ret u c' → set_ok q c →
  set_ok q c' ∧ ∀ id, potential q id c' ≤ potential q id c.
Proof.
  intros Hrm Hok.
  apply removeCursor_Ret in Hrm as (Hi & Hcs & _ & Hset & Hres).
  split; [unfold set_ok; by rewrite Hset|].
  intros id. unfold acc.potential, credit. rewrite Hset, Hres.
  pose proof (pending_insert id i None c Hi) as Hp.
  unfold acc.pending at 1. rewrite Hcs. simpl in Hp. lia.
Qed.

Lemma stride_cursor_potential q i index cur c r c' :
  len (mods q) < 2 ^ 63 →
  stride_cursor q i index cur c = Ret r c' →
  cursors c !! i = Some (Some cur) → set_ok q c →
  set_ok q c' ∧ ∀ id, potential q id c' ≤ potential q id c.
Proof.
  intros Hn. revert index c.
  induction cur as [|[k v] cur IH]; intros index c; simpl.
  - case_match; [|by intros [= _ <-]].
    destruct (removeCursor i c) as [[] c1| |] eqn:Hrm; [|done..].
    intros [= _ <-] _ Hok. by eapply removeCursor_potential.
  - case_match; [|by intros [= _ <-]].
    intros Hs Hi Hok.
    assert (Hok1 : set_ok q (moved i cur c)) by done.
    assert (Hmv : ∀ id, potential q id (moved i cur c) +
                        Z.of_nat (occ id (pair_ids (k, v))) =
                        potential q id c).
    { intros id. destruct (moved_pending id i _ cur c Hi) as [Hp _].
      unfold acc.potential, credit. simpl in *. lia. }
    destruct (moved_pending 0%N i _ cur c Hi) as [_ Hi1].
    destruct k as [kb|].
    + destruct (checkPair q kb (content v) i (moved i cur c))
        as [[n [e|]] c1| |] eqn:Hcp; [| |done..].
      * injection Hs as _ <-.
        destruct (checkPair_potential _ _ _ _ _ _ _ Hn Hok1 Hcp) as [Hok2 Hc].
        split; [done|]. intros id. specialize (Hc id). specialize (Hmv id).
        unfold acc.potential, acc.pair_ids in *. simpl in *. lia.
      * pose proof (checkPair_count_zero _ _ _ _ _ _ _ _ _ _ Hcp) as ->.
        simpl in Hs. injection Hs as _ <-.
        destruct (checkPair_potential _ _ _ _ _ _ _ Hn Hok1 Hcp) as [Hok2 Hc].
        split; [done|]. intros id. specialize (Hc id). specialize (Hmv id).
        unfold acc.potential, acc.pair_ids in *. simpl in *. lia.
    + destruct v as [vb|].
      * destruct (IH _ _ Hs Hi1 Hok1) as [Hok2 Hc]. split; [done|].
        intros id. specialize (Hc id). specialize (Hmv id). lia.
      * destruct (removeCursor i (moved i cur c)) as [[] c1| |] eqn:Hrm;
          [|done..].
        injection Hs as _ <-.
        destruct (removeCursor_potential q _ _ _ _ Hrm Hok1) as [Hok2 Hc].
        split; [done|].
        intros id. specialize (Hc id). specialize (Hmv id). lia.
Qed.

Lemma stride_slots_potential q slots c r c' :
  len (mods q) < 2 ^ 63 →
  stride_slots q slots c = Ret r c' → set_ok q c →
  set_ok q c' ∧ ∀ id, potential q id c' ≤ potential q id c.
Proof.
  intros Hn. revert c. induction slots as [|i slots IH]; intros c; simpl.
  - intros [= _ <-] Hok. split; [done|]. intros id. lia.
  - destruct (cursors c !! i) as [[cur|]|] eqn:Hi; [|apply IH..].
    destruct (stride_cursor q i 0 cur c) as [[e|] c1| |] eqn:Hsc; [| |done..].
    + intros [= _ <-] Hok. by eapply stride_cursor_potential.
    + intros Hs Hok.
      destruct (stride_cursor_potential _ _ _ _ _ _ _ Hn Hsc Hi Hok)
        as [Hok1 Hc1].
      destruct (IH _ Hs Hok1) as [Hok2 Hc2]. split; [done|].
      intros id. specialize (Hc1 id). specialize (Hc2 id). lia.
Qed.

Lemma search_potential fuel q found c r c' :
  len (mods q) < 2 ^ 63 →
  search fuel q found c = Ret r c' → set_ok q c →
  set_ok q c' ∧ ∀ id, potential q id c' ≤ potential q id c.
Proof.
  intros Hn. revert found c.
  induction fuel as [|fuel IH]; intros found c; simpl.
  - case_match; [done|]. intros [= _ <-] Hok. split; [done|]. intros; lia.
  - case_match; [|intros [= _ <-] Hok; split; [done|intros; lia]].
    destruct (stride q c) as [[e|] c1| |] eqn:Hst; [| |done..].
    + intros [= _ <-] Hok. by eapply stride_slots_potential.
    + intros Hs Hok.
      destruct (stride_slots_potential _ _ _ _ _ Hn Hst Hok) as [Hok1 Hc1].
      destruct (IH _ _ Hs Hok1) as [Hok2 Hc2]. split; [done|].
      intros id. specialize (Hc1 id). specialize (Hc2 id). lia.
Qed.

Lemma prime_slots_potential q slots c r c' :
  len (mods q) < 2 ^ 63 →
  prime_slots q slots c = Ret r c' → set_ok q c →
  set_ok q c' ∧ ∀ id, potential q id c' ≤ potential q id c.
Proof.
  intros Hn. revert c. induction slots as [|i slots IH]; intros c; simpl.
  - intros [= _ <-] Hok. split; [done|]. intros id. lia.
  - destruct (cursors c !! i) as [[cur|]|] eqn:Hi; [|done|apply IH].
    destruct cur as [|[k v] cur]; simpl.
    { assert (Hid : moved i [] c = c).
      { destruct c. unfold moved, with_cursors. simpl in *. f_equal.
        by apply list_insert_id. }
      rewrite Hid. apply IH. }
    assert (Hmv : ∀ id, potential q id (moved i cur c) +
                        Z.of_nat (occ id (pair_ids (k, v))) =
                        potential q id c).
    { intros id. destruct (moved_pending id i _ cur c Hi) as [Hp _].
      unfold acc.potential, credit. simpl in *. lia. }
    destruct k as [kb|].
    + destruct (checkPair q kb (content v) i (moved i cur c))
        as [[n [e|]] c1| |] eqn:Hcp; [| |done..].
      * intros [= _ <-] Hok.
        assert (Hok1 : set_ok q (moved i cur c)) by done.
        destruct (checkPair_potential _ _ _ _ _ _ _ Hn Hok1 Hcp) as [Hok2 Hc].
        split; [done|]. intros id. specialize (Hc id). specialize (Hmv id).
        unfold acc.potential, acc.pair_ids in *. simpl in *. lia.
      * intros Hs Hok.
        assert (Hok1 : set_ok q (moved i cur c)) by done.
        destruct (checkPair_potential _ _ _ _ _ _ _ Hn Hok1 Hcp) as [Hok2 Hc].
        destruct (IH _ Hs Hok2) as [Hok3 Hc3]. split; [done|].
        intros id. specialize (Hc id). specialize (Hmv id).
        specialize (Hc3 id).
        unfold acc.potential, acc.pair_ids in *. simpl in *. lia.
    + intros Hs Hok. destruct (IH _ Hs Hok) as [Hok3 Hc3]. split; [done|].
      intros id. specialize (Hmv id). specialize (Hc3 id). lia.
Qed.

End Accumulator.

(** ** The query engine against its specification *)

Section Engine.

Variable ItemModAverageScaleFactor : Z.
Variable maxSliceCap : Z.
Variable decodeModIndexKey : bytes → error + list Z.
Variable IndexEntry_IDs : bytes → list ID.

Local Abbreviation NewIndexQuery := (db.NewIndexQuery ItemModAverageScaleFactor).
Local Abbreviation ForEachID := (db.ForEachID IndexEntry_IDs).
Local Abbreviation checkPair := (db.checkPair decodeModIndexKey IndexEntry_IDs).
Local Abbreviation stride_cursor :=
  (db.stride_cursor decodeModIndexKey IndexEntry_IDs).
Local Abbreviation stride_slots :=
  (db.stride_slots decodeModIndexKey IndexEntry_IDs).
Local Abbreviation stride := (db.stride decodeModIndexKey IndexEntry_IDs).
Local Abbreviation prime_slots :=
  (db.prime_slots decodeModIndexKey IndexEntry_IDs).
Local Abbreviation search := (db.search decodeModIndexKey IndexEntry_IDs).
Local Abbreviation Run_body := (db.Run_body maxSliceCap decodeModIndexKey IndexEntry_IDs).
Local Abbreviation initContext := (db.initContext maxSliceCap).
Local Abbreviation Run := (db.Run maxSliceCap decodeModIndexKey IndexEntry_IDs).

Lemma prime_slots_nil q slots c r c' j :
  prime_slots q slots c = Ret r c' →
  cursors c !! j = Some None → cursors c' !! j = Some None.
Proof.
  revert c. induction slots as [|i slots IH]; intros c; simpl.
  - by intros [= _ <-].
  - destruct (cursors c !! i) as [[cur|]|] eqn:Hi; [|done|apply IH].
    destruct (Cursor_Last cur) as [[k v] cur'].
    assert (Hmv : cursors c !! j = Some None →
                  cursors (moved i cur' c) !! j = Some None).
    { intros Hj. simpl. rewrite list_lookup_insert_ne; [done|congruence]. }
    destruct k as [kb|]; [|intros Hs Hj; eapply IH; eauto].
    destruct (checkPair q kb (content v) i (moved i cur' c))
      as [[n [e|]] c1| |] eqn:Hcp; [| |done..].
    + intros [= _ <-] Hj.
      rewrite (checkPair_frame _ _ _ _ _ _ _ _ _ j Hcp); [auto|congruence].
    + intros Hs Hj. apply (IH _ Hs).
      rewrite (checkPair_frame _ _ _ _ _ _ _ _ _ j Hcp); [auto|congruence].
Qed.

(** C6. When the key a cursor stands on decodes to a primary value below the
    scaled minimum of its mod, [checkPair] clears the slot of that cursor and
    registers none of the IDs of the entry: the map and the result list are
    as before.  From then on the slot stays nil: through the rest of the
    priming loop, through the rest of the pass and through every later pass;
    and a pass skips a nil slot without reading anything through it. *)
Theorem checkPair_below_minimum q k v i c primary rest minValue slot :
  decodeModIndexKey k = inr (primary :: rest) →
  minModValues q !! i = Some minValue →
  primary < minValue →
  cursors c !! i = Some slot →
  ∃ c', checkPair q k v i c = Ret (0, None) c' ∧
        cursors c' !! i = Some None ∧
        set c' = set c ∧ result c' = result c ∧
        validCursors c' = int_wrap (validCursors c - 1) ∧
        ∀ c1, cursors c1 !! i = Some None →
          (∀ slots, stride_slots q (i :: slots) c1 = stride_slots q slots c1) ∧
          (∀ slots r c2, prime_slots q slots c1 = Ret r c2 →
                         cursors c2 !! i = Some None) ∧
          (∀ slots r c2, stride_slots q slots c1 = Ret r c2 →
                         cursors c2 !! i = Some None) ∧
          (∀ fuel found r c2, search fuel q found c1 = Ret r c2 →
                              cursors c2 !! i = Some None).
Proof.
  intros Hk Hmin Hlt Hi. pose proof (lookup_lt_Some _ _ _ Hi) as Hlen.
  unfold db.checkPair. rewrite Hk, Hmin.
  destruct (Z.leb_spec minValue primary); [lia|].
  unfold removeCursor. case_decide; [|lia].
  eexists. split; [done|]. simpl.
  split; [by apply list_lookup_insert_eq|].
  repeat split; try done.
  - intros slots. simpl. by rewrite H1.
  - intros slots r c2 Hs. by eapply prime_slots_nil.
  - intros slots r c2 Hs. by eapply stride_slots_nil.
  - intros fuel found r c2 Hs. by eapply search_nil.
Qed.

(** C7. [Run] comes to an end on every query and every store: the search
    loop answers within the number of passes [Run] allows it, which is the
    number of pairs the live cursors can still hand out plus one per live
    cursor.  Every pass started with [validCursors] above zero uses up some
    of that budget, by moving a cursor towards the start of its bucket or by
    clearing a slot. *)
Theorem Run_terminates q d :
  (Run q d).1 ≠ Unfinished ∧
  ∀ c r c', counts_live c → 0 < validCursors c →
            stride q c = Ret r c' → (budget c' < budget c)%nat.
Proof.
  split.
  - unfold db.Run. destruct (db_begin d) as [e|t]; [by destruct (ctx q)|].
    pose proof (Run_body_no_fuel maxSliceCap decodeModIndexKey IndexEntry_IDs q t) as Hnf.
    destruct (db.Run_body _ _ _ q t) as [[err c| |]|err]; try done.
    by destruct (ctx q).
  - intros c r c' Hl Hv Hs. eapply stride_progress; [done|].
    by apply counts_live_positive.
Qed.

(** C8. [NewIndexQuery] stores, at each position, the given minimum times
    the scale factor, as the unsigned 16-bit product; [checkPair] compares
    the primary value of a key with that stored value: at or above it the
    IDs of the entry are registered, below it the cursor is removed. *)
Theorem NewIndexQuery_scaled_minimum
    rootType rootFlavor mods minModValues league maxDesired i minValue :
  minModValues !! i = Some minValue →
  let q := NewIndexQuery rootType rootFlavor mods minModValues league
                         maxDesired in
  let scaled := uint16_wrap (minValue * ItemModAverageScaleFactor) in
  length (db.minModValues q) = length minModValues ∧
  db.minModValues q !! i = Some scaled ∧
  ∀ k v c primary rest,
    decodeModIndexKey k = inr (primary :: rest) →
    checkPair q k v i c =
      if scaled <=? primary then Ret (0, None) (ForEachID v (registerID q) c)
      else match removeCursor i c with
           | Ret _ c' => Ret (0, None) c'
           | Panic => Panic
           | NoFuel => NoFuel
           end.
Proof.
  intros Hi q scaled.
  assert (Hq : db.minModValues q !! i = Some scaled).
  { unfold q, db.NewIndexQuery. simpl.
    change (map ?f ?l) with (f <$> l). by rewrite list_lookup_fmap, Hi. }
  split; [apply length_map|]. split; [done|].
  intros k v c primary rest Hk. unfold db.checkPair. by rewrite Hk, Hq.
Qed.

(** When a bucket cannot be opened, a query that holds no context makes
    [Run] panic: the error is on its way to the caller when [q.ctx.result]
    is read through the nil [q.ctx]. *)
Lemma Run_open_error_panics q d t m e :
  db_begin d = inr t → ctx q = None → m ∈ mods q →
  getItemModIndexBucketRO (rootType q) (rootFlavor q) m (league q) t = inl e →
  (Run q d).1 = Panicked.
Proof.
  intros Hd Hctx Hm He. unfold db.Run, db.Run_body, db.initContext.
  rewrite Hd, Hctx.
  assert (Ho : ∃ e', open_cursors q t (mods q) = inl e').
  { revert Hm. generalize (mods q). intros ms.
    induction ms as [|m' ms IH]; intros Hm; [by apply elem_of_nil in Hm|].
    simpl. apply elem_of_cons in Hm as [<-|Hm].
    - rewrite He. eauto.
    - destruct (getItemModIndexBucketRO _ _ m' _ _); [eauto|].
      destruct (IH Hm) as [e' ->]. eauto. }
  destruct Ho as [e' ->]. done.
Qed.

End Engine.

(** C1. The result can be longer than [maxDesired]: with one mod, one item
    wanted and a bucket whose only key holds two items at or above the
    minimum, priming registers both and [Run] returns the two of them. *)
Theorem Run_exceeds_maxDesired :
  (Run sample.max_cap sample.decode sample.ids sample.one_wanted sample.two_under_one_key).1
    = Returned [1%N; 2%N] None ∧
  maxDesired sample.one_wanted < len [1%N; 2%N].
Proof. split; by vm_compute. Qed.

(** C3. A pass reads one pair per cursor, not a stride of 32 IDs.  Over a
    bucket of four keys at or above the minimum, one item each, priming
    reads the highest key, and the pass that follows reads exactly one more:
    it stops with one ID seen, two pairs still ahead of the cursor and the
    slot still live. *)
Theorem stride_reads_one_pair :
  ∃ c0 c1 c2,
    initContext sample.max_cap sample.forty_wanted sample.four_keys_tx = InitOk c0 ∧
    prime_slots sample.decode sample.ids sample.forty_wanted [0%nat] c0
      = Ret None c1 ∧
    stride sample.decode sample.ids sample.forty_wanted c1 = Ret None c2 ∧
    result c1 = [4%N] ∧
    cursors c1 = [Some (rev (take 3 sample.four_keys))] ∧
    result c2 = [4%N; 3%N] ∧
    cursors c2 = [Some (rev (take 2 sample.four_keys))] ∧
    validCursors c2 = 1.
Proof.
  eexists _, _, _.
  split; [vm_compute; reflexivity|].
  split; [vm_compute; reflexivity|].
  split; [vm_compute; reflexivity|].
  repeat split.
Qed.

(** C4. When the bucket of a queried mod cannot be opened, [Run] does not
    hand an error to its caller: it panics. *)
Theorem Run_panics_on_open_error :
  (Run sample.max_cap sample.decode sample.ids sample.one_wanted sample.unopenable).1
    = Panicked.
Proof. by vm_compute. Qed.

(** ** The result list *)

Section Result.

Variable maxSliceCap : Z.
Variable decodeModIndexKey : bytes → error + list Z.
Variable IndexEntry_IDs : bytes → list ID.

Local Abbreviation stride_cursor :=
  (db.stride_cursor decodeModIndexKey IndexEntry_IDs).
Local Abbreviation stride_slots :=
  (db.stride_slots decodeModIndexKey IndexEntry_IDs).
Local Abbreviation stride := (db.stride decodeModIndexKey IndexEntry_IDs).
Local Abbreviation prime_slots :=
  (db.prime_slots decodeModIndexKey IndexEntry_IDs).
Local Abbreviation search := (db.search decodeModIndexKey IndexEntry_IDs).
Local Abbreviation Run_body := (db.Run_body maxSliceCap decodeModIndexKey IndexEntry_IDs).
Local Abbreviation initContext := (db.initContext maxSliceCap).
Local Abbreviation Run := (db.Run maxSliceCap decodeModIndexKey IndexEntry_IDs).
Local Abbreviation listed := (acc.listed IndexEntry_IDs).
Local Abbreviation slot_occ := (acc.slot_occ IndexEntry_IDs).
Local Abbreviation potential := (acc.potential IndexEntry_IDs).
Local Abbreviation listed_once := (acc.listed_once IndexEntry_IDs).


Lemma open_cursors_pending q t ms cs id :
  open_cursors q t ms = inr cs →
  (∀ m b, m ∈ ms →
     getItemModIndexBucketRO (rootType q) (rootFlavor q) m (league q) t
       = inr b → NoDup (listed b)) →
  (sum_list (map (slot_occ id) cs) ≤ length ms)%nat.
Proof.
  revert cs. induction ms as [|m ms IH]; intros cs; simpl.
  - by intros [= <-].
  - destruct (getItemModIndexBucketRO _ _ m _ _) as [|b] eqn:Hb; [done|].
    destruct (open_cursors q t ms) as [|cs']; [done|].
    intros [= <-] Hu. simpl.
    assert (occ id (listed (Bucket_Cursor b)) ≤ 1)%nat.
    { unfold Bucket_Cursor. rewrite listed_rev.
      apply NoDup_occ, (Hu m); [left|done]. }
    assert (sum_list (map (slot_occ id) cs') ≤ length ms)%nat.
    { apply IH; [done|]. intros m' b' Hm'. apply Hu. by right. }
    lia.
Qed.

Lemma initContext_potential q t c :
  initContext q t = InitOk c → listed_once q t →
  set_ok q c ∧ ∀ id, potential q id c ≤ weight q.
Proof.
  unfold db.initContext.
  destruct (open_cursors q t (mods q)) as [|cs] eqn:Ho; [done|].
  case_match; [done|]. intros [= <-] Hu. split; [done|].
  intros id. pose proof (open_cursors_pending _ _ _ _ id Ho Hu).
  unfold acc.potential, credit, acc.pending, weight, len, occ.
  simpl. rewrite lookup_empty. simpl. lia.
Qed.

Lemma potential_bounds_occ q id c :
  set_ok q c → potential q id c ≤ weight q → (occ id (result c) ≤ 1)%nat.
Proof.
  intros Hok. unfold acc.potential, credit, weight.
  assert (0 ≤ default 0 (set c !! id)).
  { destruct (set c !! id) as [v|] eqn:Hv; simpl; [|done].
    apply Hok in Hv. lia. }
  nia.
Qed.

(** C2, as the code has it.  For a query that holds no context and whose
    mods number fewer than 2^63, over buckets each of which lists an item at
    most once, the list [Run] returns has no duplicates, whether [Run]
    returns it with or without an error. *)
Theorem Run_result_NoDup q d t ids err :
  ctx q = None →
  len (mods q) < 2 ^ 63 →
  db_begin d = inr t →
  listed_once q t →
  (Run q d).1 = Returned ids err →
  NoDup ids.
Proof.
  intros Hctx Hn Hd Hu. unfold db.Run, db.Run_body. rewrite Hd, Hctx.
  destruct (initContext q t) as [c0| |] eqn:Hin; [|done..].
  destruct (initContext_potential _ _ _ Hin Hu) as [Hok0 Hp0].
  assert (Hend : ∀ c, set_ok q c → (∀ id, potential q id c ≤ potential q id c0) →
                      NoDup (result c)).
  { intros c Hok Hp. apply NoDup_occ. intros id.
    apply (potential_bounds_occ q); [done|].
    specialize (Hp id). specialize (Hp0 id). lia. }
  destruct (prime_slots q (seq 0 (length (cursors c0))) c0)
    as [[e|] c1| |] eqn:Hpr; [| |done..].
  - intros [= <- _].
    destruct (prime_slots_potential _ _ _ _ _ _ _ Hn Hpr Hok0). auto.
  - destruct (prime_slots_potential _ _ _ _ _ _ _ Hn Hpr Hok0) as [Hok1 Hp1].
    destruct (search (budget c1) q 0 c1) as [r c2| |] eqn:Hse; [|done..].
    intros [= <- _].
    destruct (search_potential _ _ _ _ _ _ _ _ Hn Hse Hok1) as [Hok2 Hp2].
    apply Hend; [done|]. intros id.
    specialize (Hp1 id). specialize (Hp2 id). lia.
Qed.

(** *** Mods without a bucket *)


Lemma barren_stride_slots q slots c :
  barren c → ∃ c', stride_slots q slots c = Ret None c' ∧ barren c'.
Proof.
  revert c. induction slots as [|i slots IH]; intros c Hb; simpl; [eauto|].
  destruct (cursors c !! i) as [[cur|]|] eqn:Hi; [|by apply IH..].
  destruct Hb as [Hres Hcs].
  pose proof (proj1 (Forall_lookup _ _) Hcs _ _ Hi) as [[= ->]|[=]].
  simpl. unfold removeCursor.
  pose proof (lookup_lt_Some _ _ _ Hi). case_decide; [|lia].
  apply IH. split; [done|]. simpl.
  apply Forall_insert; [done|by right].
Qed.

Lemma barren_search fuel q found c :
  barren c →
  search fuel q found c = NoFuel ∨
  ∃ c', search fuel q found c = Ret None c' ∧ barren c'.
Proof.
  revert found c. induction fuel as [|fuel IH]; intros found c Hb; simpl.
  - case_match; eauto.
  - case_match; [|eauto].
    destruct (barren_stride_slots q (seq 0 (length (cursors c))) c Hb)
      as (c1 & Hs & Hb1).
    unfold db.stride. rewrite Hs. by apply IH.
Qed.

Lemma untouched_prime_slots q slots c :
  Forall (λ s, s = Some []) (cursors c) →
  prime_slots q slots c = Ret None c.
Proof.
  intros Hcs. induction slots as [|i slots IH]; simpl; [done|].
  destruct (cursors c !! i) as [s|] eqn:Hi; [|done].
  pose proof (proj1 (Forall_lookup _ _) Hcs _ _ Hi) as ->. simpl.
  assert (Hid : moved i [] c = c).
  { destruct c. unfold moved, with_cursors. simpl in *. f_equal.
    by apply list_insert_id. }
  by rewrite Hid.
Qed.

Lemma open_cursors_missing q t ms :
  (∀ m, m ∈ ms →
     getItemModIndexBucketRO (rootType q) (rootFlavor q) m (league q) t
       = inr missing_bucket) →
  ∃ cs, open_cursors q t ms = inr cs ∧ Forall (λ s, s = Some []) cs.
Proof.
  induction ms as [|m ms IH]; intros Hm; simpl; [eauto|].
  rewrite (Hm m) by left.
  destruct IH as (cs & -> & Hcs); [intros m' Hm'; apply Hm; by right|].
  eexists. split; [done|]. by constructor.
Qed.

(** C5, as the code has it.  For a query whose [maxDesired] is a capacity
    the runtime makes a slice of, neither negative nor beyond [maxSliceCap]:
    a mod without a bucket raises no error.  Its cursor is cleared by
    the first pass that reaches it, with nothing registered (priming leaves
    it in place); and when no queried mod has a bucket, [Run] returns the
    empty list and no error. *)
Theorem Run_missing_buckets q d t :
  db_begin d = inr t →
  0 ≤ maxDesired q ≤ maxSliceCap →
  (∀ i c, cursors c !! i = Some (Some (Bucket_Cursor missing_bucket)) →
     prime_slots q [i] c = Ret None c ∧
     ∃ c', stride_cursor q i 0 (Bucket_Cursor missing_bucket) c = Ret None c' ∧
           cursors c' !! i = Some None ∧
           set c' = set c ∧ result c' = result c) ∧
  ((∀ m, m ∈ mods q →
      getItemModIndexBucketRO (rootType q) (rootFlavor q) m (league q) t
        = inr missing_bucket) →
   (Run q d).1 = Returned [] None).
Proof.
  intros Hd HK. split.
  - intros i c Hi. pose proof (lookup_lt_Some _ _ _ Hi). split.
    + simpl. rewrite Hi. simpl.
      assert (Hid : moved i [] c = c).
      { destruct c. unfold moved, with_cursors. simpl in *. f_equal.
        by apply list_insert_id. }
      by rewrite Hid.
    + simpl. unfold removeCursor. case_decide; [|lia].
      eexists. split; [done|]. simpl.
      split; [by apply list_lookup_insert_eq|done].
  - intros Hm.
    pose proof (Run_body_no_fuel maxSliceCap decodeModIndexKey IndexEntry_IDs q t) as Hnf.
    unfold db.Run. rewrite Hd. unfold db.Run_body in *.
    unfold db.initContext in *.
    destruct (open_cursors_missing q t (mods q) Hm) as (cs & Ho & Hcs).
    rewrite Ho in *.
    destruct (Z.ltb_spec (maxDesired q) 0); [lia|].
    destruct (Z.ltb_spec maxSliceCap (maxDesired q)); [lia|]. simpl in *.
    rewrite untouched_prime_slots in * by done.
    match goal with
    | |- context [search ?f q 0 ?c] =>
        destruct (barren_search f q 0 c) as [Hs|(c' & Hs & Hres & _)]
    end.
    + split; [done|]. simpl. eapply Forall_impl; [done|]. by left.
    + by rewrite Hs in Hnf.
    + rewrite Hs. simpl. by rewrite Hres.
Qed.

End Result.

(** C2, as stated, fails: with one mod, a bucket that lists item 7 twice
    under one key makes [Run] return it twice. *)
Lemma Run_returns_an_item_twice :
  (Run sample.max_cap sample.decode sample.ids sample.one_wanted sample.listed_twice).1
    = Returned [7%N; 7%N] None ∧
  ¬ NoDup [7%N; 7%N].
Proof.
  split; [by vm_compute|].
  intros Hnd. apply NoDup_cons in Hnd as [Hnin _]. apply Hnin. by left.
Qed.

(** C5, as stated, fails.  A query that wants -1 items makes [Run] panic
    even though no mod has a bucket, at [make([]ID, 0, -1)].  And a query
    that wants no item runs no pass: the function given to [db.View] ends
    with the cursor of its mod still in its slot and [validCursors] at 1. *)
Lemma Run_no_buckets_panics_or_keeps_cursors :
  (∀ m, m ∈ mods sample.none_wanted_less →
     getItemModIndexBucketRO 1%N 2%N m 0%N sample.no_buckets_tx
       = inr missing_bucket) ∧
  (Run sample.max_cap sample.decode sample.ids
       sample.none_wanted_less sample.no_buckets).1 = Panicked ∧
  ∃ c, Run_body sample.max_cap sample.decode sample.ids
         sample.none_wanted sample.no_buckets_tx = inl (Ret None c) ∧
       cursors c = [Some (Bucket_Cursor missing_bucket)] ∧
       validCursors c = 1.
Proof.
  split; [done|]. split; [by vm_compute|].
  eexists. split; [vm_compute; reflexivity|]. done.
Qed.

(** ** The client-side re-check *)


Lemma fill_required_spec search i ms r :
  (i + length ms ≤ length (MinValues search))%nat →
  ∃ r', fill_required search i ms r = Some r' ∧
        (∀ name, name ∉ ms → r' !! name = r !! name) ∧
        (NoDup ms → ∀ j name min,
           ms !! j = Some name → MinValues search !! (i + j)%nat = Some min →
           r' !! name = Some min) ∧
        (∀ name min, r' !! name = Some min →
           name ∈ ms ∨ r !! name = Some min).
Proof.
  revert i r. induction ms as [|m ms IH]; intros i r Hlen; simpl in *.
  - exists r. split; [done|]. split; [done|]. split; [|eauto].
    intros _ j name min Hj. by rewrite lookup_nil in Hj.
  - destruct (lookup_lt_is_Some_2 (MinValues search) i ltac:(lia)) as [v Hv].
    rewrite Hv.
    destruct (IH (S i) (<[m := v]> r) ltac:(lia)) as (r' & Hr' & Hout & Hin & Hdom).
    exists r'. split; [done|]. split; [|split].
    + intros name Hn. apply not_elem_of_cons in Hn as [Hne Hn].
      rewrite (Hout _ Hn). by rewrite lookup_insert_ne.
    + intros Hnd j name min Hj Hmin. apply NoDup_cons in Hnd as [Hm Hnd].
      destruct j as [|j]; simpl in Hj.
      * injection Hj as ->. rewrite Nat.add_0_r in Hmin.
        rewrite (Hout _ Hm), lookup_insert_eq. congruence.
      * apply (Hin Hnd j); [done|]. by rewrite <- Nat.add_succ_comm in Hmin.
    + intros name min Hn. destruct (Hdom _ _ Hn) as [Hms|Hins].
      * left. by right.
      * rewrite lookup_insert in Hins. case_decide; [|by right].
        subst. left. by left.
Qed.

Lemma count_satisfied_spec required ms acc :
  0 ≤ acc →
  acc + Z.of_nat (length (filter (λ m, counts required m = true) ms)) < 2 ^ 63 →
  (∀ m, m ∈ ms → is_Some (required !! Template m) → Values m ≠ []) →
  count_satisfied required ms acc =
    Some (acc + Z.of_nat (length (filter (λ m, counts required m = true) ms))).
Proof.
  revert acc. induction ms as [|m ms IH]; intros acc Hacc Hfit Hval; simpl.
  - f_equal. lia.
  - assert (Hval' : ∀ m', m' ∈ ms → is_Some (required !! Template m') →
                           Values m' ≠ []).
    { intros m' Hm'. apply Hval. by right. }
    destruct (counts required m) eqn:Hc.
    + rewrite filter_cons_True in * by done. simpl in Hfit.
      unfold counts in Hc.
      destruct (required !! Template m) as [min|]; [|done].
      destruct (Values m) as [|primary rest]; [done|]. rewrite Hc.
      rewrite int_wrap_id by lia. rewrite IH; [f_equal; simpl; lia|lia|lia|done].
    + rewrite filter_cons_False in * by (by rewrite Hc).
      unfold counts in Hc.
      destruct (required !! Template m) as [min|] eqn:Hreq; [|by apply IH].
      destruct (Values m) as [|primary rest] eqn:Hvs.
      { exfalso. apply (Hval m); [by left|by rewrite Hreq|done]. }
      rewrite Hc. by apply IH.
Qed.

Section Verdict.

Variable search : MultiModSearch.
Variable required : gmap string Z.

Hypothesis lengths : length (Mods search) = length (MinValues search).
Hypothesis mods_fit : len (Mods search) < 2 ^ 63.
Hypothesis mods_once : NoDup (Mods search).
Hypothesis required_has :
  ∀ j name min, Mods search !! j = Some name →
                MinValues search !! j = Some min →
                required !! name = Some min.
Hypothesis required_dom :
  ∀ name min, required !! name = Some min → name ∈ Mods search.


Lemma counted_NoDup item : plain_for search item → NoDup (counted required item).
Proof.
  intros [Hnd _]. unfold counted.
  eapply sublist_NoDup; [exact Hnd|]. apply fmap_sublist.
  rewrite <- (list_filter_iff
    (λ m, counts required m = true ∧ Template m ∈ Mods search)
    (λ m, counts required m = true)).
  - rewrite <- list_filter_filter. apply sublist_filter.
  - intros m. split; [tauto|]. intros Hc. split; [done|].
    unfold counts in Hc. destruct (required !! Template m) eqn:Hr; [|done].
    by eapply required_dom.
Qed.

Lemma counted_incl item : incl (counted required item) (Mods search).
Proof.
  intros name Hn. apply list_elem_of_In in Hn. apply list_elem_of_In.
  apply list_elem_of_fmap in Hn as (m & -> & Hm).
  apply list_elem_of_filter in Hm as [Hc _].
  unfold counts in Hc. destruct (required !! Template m) eqn:Hr; [|done].
  by eapply required_dom.
Qed.

Lemma counted_has_instance item name min :
  required !! name = Some min →
  name ∈ counted required item ↔ has_instance item name min = true.
Proof.
  intros Hr. unfold has_instance. rewrite existsb_exists. split.
  - intros Hn. apply list_elem_of_fmap in Hn as (m & -> & Hm).
    apply list_elem_of_filter in Hm as [Hc Hm].
    exists m. split; [by apply list_elem_of_In|].
    rewrite bool_decide_eq_true_2 by done. simpl.
    unfold counts in Hc. by rewrite Hr in Hc.
  - intros (m & Hm & Hc). apply andb_prop in Hc as [Ht Hv].
    apply bool_decide_eq_true_1 in Ht. apply list_elem_of_fmap.
    exists m. split; [done|]. apply list_elem_of_filter.
    split; [|by apply list_elem_of_In].
    unfold counts. by rewrite Ht, Hr.
Qed.

Lemma meets_counted item :
  meets search item = true ↔ incl (Mods search) (counted required item).
Proof.
  unfold meets. rewrite forallb_forall. split.
  - intros Hall name Hn. apply list_elem_of_In.
    apply list_elem_of_In, list_elem_of_lookup in Hn as [j Hj].
    destruct (lookup_lt_is_Some_2 (MinValues search) j) as [min Hmin].
    { rewrite <- lengths. by eapply lookup_lt_Some. }
    apply (counted_has_instance item name min); [by eapply required_has|].
    apply (Hall (name, min)), list_elem_of_In, list_elem_of_lookup.
    exists j. by apply lookup_zip_Some.
  - intros Hincl [name min] Hnm. simpl.
    apply list_elem_of_In, list_elem_of_lookup in Hnm as [j Hj].
    apply lookup_zip_Some in Hj as [Hname Hmin].
    apply counted_has_instance; [by eapply required_has|].
    apply list_elem_of_In, Hincl, list_elem_of_In.
    by eapply list_elem_of_lookup_2.
Qed.

Lemma item_verdict item :
  plain_for search item →
  ∃ k, count_satisfied required (GetMods item) 0 = Some k ∧
       (k <? len (Mods search)) = negb (meets search item).
Proof.
  intros Hplain.
  pose proof (counted_NoDup item Hplain) as Hnd.
  apply NoDup_ListNoDup in Hnd.
  pose proof (NoDup_incl_length Hnd (counted_incl item)) as Hle.
  unfold counted in Hle. rewrite length_fmap in Hle.
  eexists. split.
  - apply count_satisfied_spec; [done|unfold len in *; lia|].
    intros m Hm [min Hr]. apply Hplain; [done|]. by eapply required_dom.
  - destruct (meets search item) eqn:Hmeets; simpl.
    + apply meets_counted in Hmeets. apply Z.ltb_ge.
      pose proof (NoDup_incl_length
                    (proj1 (NoDup_ListNoDup _) mods_once) Hmeets) as Hge.
      unfold counted in Hge. rewrite length_fmap in Hge.
      unfold len. lia.
    + apply Z.ltb_lt. apply Z.nle_gt. intros Hge.
      assert (Hincl : incl (Mods search) (counted required item)).
      { apply NoDup_length_incl; [done| |apply counted_incl].
        unfold counted. rewrite length_fmap. unfold len in Hge. lia. }
      apply meets_counted in Hincl. congruence.
Qed.

Lemma check_items_verdict items :
  (∀ item, item ∈ items → plain_for search item) →
  check_items required (len (Mods search)) items =
    Answer (all_meet search items).
Proof.
  induction items as [|item items IH]; intros Hplain; simpl; [done|].
  destruct (item_verdict item) as (k & -> & ->); [apply Hplain; by left|].
  destruct (meets search item); simpl; [|done].
  apply IH. intros item' Hi. apply Hplain. by right.
Qed.

End Verdict.

(** C9, as the code has it.  For a predicate whose mods are pairwise
    different, as many as its minima and fewer than 2^63, and for items that
    carry each mod of the predicate at most once and never without a value,
    [Satisfies] answers whether every item has, for each mod of the
    predicate, an instance whose primary value is at least the unscaled
    minimum; mods outside the predicate play no part. *)
Theorem Satisfies_all_meet search items :
  len (Mods search) = len (MinValues search) →
  len (Mods search) < 2 ^ 63 →
  NoDup (Mods search) →
  (∀ item, item ∈ items → plain_for search item) →
  Satisfies search items = Answer (all_meet search items).
Proof.
  intros Hlen Hfit Hnd Hplain. unfold Satisfies.
  case_decide; [done|].
  assert (Hlen' : length (Mods search) = length (MinValues search)).
  { unfold len in Hlen. lia. }
  destruct (fill_required_spec search 0 (Mods search) ∅ ltac:(lia))
    as (required & -> & _ & Hhas & Hdom).
  apply check_items_verdict; try done.
  - intros j name min. by apply Hhas.
  - intros name min Hr. destruct (Hdom _ _ Hr) as [|Hr']; [done|].
    by rewrite lookup_empty in Hr'.
Qed.

(** C10. With as many mods as minima, [Satisfies] answers true on an empty
    list of items. *)
Theorem Satisfies_no_items search :
  len (Mods search) = len (MinValues search) →
  Satisfies search [] = Answer true.
Proof.
  intros Hlen. unfold Satisfies. case_decide; [done|].
  assert (Hlen' : length (Mods search) = length (MinValues search)).
  { unfold len in Hlen. lia. }
  by destruct (fill_required_spec search 0 (Mods search) ∅ ltac:(lia))
    as (required & -> & _).
Qed.

(** C9, as stated, fails: an item that carries movement speed twice and no
    fire resistance passes a predicate that asks for both. *)
Lemma Satisfies_counts_an_instance_twice :
  Satisfies sample.boots [sample.fast_twice] = Answer true ∧
  all_meet sample.boots [sample.fast_twice] = false.
Proof. split; by vm_compute. Qed.

(** ** Instances *)

(** The two items of [two_under_one_key] come back once each. *)
Lemma Run_result_NoDup_witness : NoDup [1%N; 2%N].
Proof.
  apply (Run_result_NoDup sample.max_cap sample.decode sample.ids
           sample.one_wanted sample.two_under_one_key
           (mkTx (λ _ _ _ _,
                  inr [(sample.key Byte.x00 Byte.x0a,
                        sample.entry [Byte.x01; Byte.x02])]))
           [1%N; 2%N] None).
  - reflexivity.
  - vm_compute. reflexivity.
  - reflexivity.
  - intros m b _ Hb. vm_compute in Hb. injection Hb as <-.
    apply (bool_decide_unpack _). vm_compute. exact I.
  - vm_compute. reflexivity.
Defined.

(** Two mods without buckets: the second cursor is cleared when a pass
    reaches it, and [Run] returns nothing and no error. *)
Lemma Run_missing_buckets_witness :
  (∃ c', stride_cursor sample.decode sample.ids sample.two_mods 1 0
           (Bucket_Cursor missing_bucket)
           (mkCtx sample.no_buckets_tx 2 [Some []; Some []] ∅ []) = Ret None c' ∧
         cursors c' !! 1%nat = Some None) ∧
  (Run sample.max_cap sample.decode sample.ids sample.two_mods
       sample.no_buckets).1 = Returned [] None.
Proof.
  destruct (Run_missing_buckets sample.max_cap sample.decode sample.ids
              sample.two_mods sample.no_buckets sample.no_buckets_tx)
    as [Hfirst Hall].
  - reflexivity.
  - vm_compute. split; discriminate.
  - split.
    + destruct (Hfirst 1%nat
                  (mkCtx sample.no_buckets_tx 2 [Some []; Some []] ∅ []))
        as (_ & c' & Hs & Hnil & _); [reflexivity|].
      exists c'. split; assumption.
    + apply Hall. intros m _. reflexivity.
Defined.

(** A key of primary value 9 against a stored minimum of 10. *)
Lemma checkPair_below_minimum_witness :
  ∃ c', checkPair sample.decode sample.ids sample.one_wanted
          [Byte.x00; Byte.x09] [Byte.x01] 0 sample.primed = Ret (0, None) c' ∧
        cursors c' !! 0%nat = Some None ∧
        result c' = [4%N].
Proof.
  destruct (checkPair_below_minimum sample.decode sample.ids
              sample.one_wanted [Byte.x00; Byte.x09] [Byte.x01] 0%nat
              sample.primed 9 [] 10 (Some (rev (take 3 sample.four_keys))))
    as (c' & Hcp & Hnil & _ & Hres & _).
  - reflexivity.
  - reflexivity.
  - lia.
  - reflexivity.
  - exists c'. repeat split; assumption.
Defined.

(** [Run] over [four_keys] ends, and a pass from the primed context uses up
    some of its budget. *)
Lemma Run_terminates_witness :
  (Run sample.max_cap sample.decode sample.ids sample.forty_wanted
       (sample.uniform sample.four_keys)).1 ≠ Unfinished ∧
  ∃ c', stride sample.decode sample.ids sample.forty_wanted sample.primed
          = Ret None c' ∧
        (budget c' < budget sample.primed)%nat.
Proof.
  destruct (Run_terminates sample.max_cap sample.decode sample.ids sample.forty_wanted
              (sample.uniform sample.four_keys)) as [Hrun Hpass].
  split; [exact Hrun|].
  eexists. split; [vm_compute; reflexivity|].
  apply (Hpass sample.primed None).
  - exists 0. vm_compute. repeat split; discriminate.
  - vm_compute. reflexivity.
  - vm_compute. reflexivity.
Defined.

(** 7000 * 10 is stored as 4464, 27 * 10 as 270. *)
Lemma NewIndexQuery_scaled_minimum_witness :
  minModValues sample.wrapped !! 0%nat = Some 4464 ∧
  minModValues sample.two_mods !! 1%nat = Some 270.
Proof.
  split.
  - destruct (NewIndexQuery_scaled_minimum sample.factor sample.decode
                sample.ids 1%N 2%N [5%N] [7000] 0%N 1 0%nat 7000)
      as (_ & Hq & _); [reflexivity|exact Hq].
  - destruct (NewIndexQuery_scaled_minimum sample.factor sample.decode
                sample.ids 1%N 2%N [5%N; 6%N] [24; 27] 0%N 4 1%nat 27)
      as (_ & Hq & _); [reflexivity|exact Hq].
Defined.

(** An item with both mods of [boots] and one more passes. *)
Lemma Satisfies_all_meet_witness :
  Satisfies sample.boots [sample.good_boots] = Answer true.
Proof.
  apply (Satisfies_all_meet sample.boots [sample.good_boots]).
  - reflexivity.
  - vm_compute. reflexivity.
  - apply (bool_decide_unpack _). vm_compute. exact I.
  - intros item Hitem. apply list_elem_of_singleton in Hitem as ->. split.
    + apply (bool_decide_unpack _). vm_compute. exact I.
    + intros m Hm Hin.
      repeat (apply elem_of_cons in Hm as [->|Hm]); try discriminate.
      * exfalso. revert Hin. apply (bool_decide_unpack _). vm_compute. exact I.
      * by apply elem_of_nil in Hm.
Defined.

(** No items, nothing to fail on. *)
Lemma Satisfies_no_items_witness :
  Satisfies sample.boots [] = Answer true.
Proof. apply (Satisfies_no_items sample.boots). reflexivity. Defined.

(** * More of the engine *)

(** ** Cursors only move on *)

Lemma advanced_refl c : advanced c c.
Proof. split; [done|]. intros j cur Hj. by exists cur. Qed.

Lemma advanced_trans c1 c2 c3 :
  advanced c1 c2 → advanced c2 c3 → advanced c1 c3.
Proof.
  intros [Hl12 H12] [Hl23 H23]. split; [congruence|].
  intros j cur3 Hj. destruct (H23 _ _ Hj) as (cur2 & Hj2 & Hs23).
  destruct (H12 _ _ Hj2) as (cur1 & Hj1 & Hs12).
  exists cur1. split; [done|]. by etrans.
Qed.

Lemma advanced_same_cursors c c' : cursors c' = cursors c → advanced c c'.
Proof.
  intros Hc. split; [by rewrite Hc|]. intros j cur Hj.
  exists cur. by rewrite <- Hc.
Qed.

Lemma moved_advanced i cur0 cur c :
  cursors c !! i = Some (Some cur0) → cur `suffix_of` cur0 →
  advanced c (moved i cur c).
Proof.
  intros Hi Hs. split; [apply length_insert|].
  intros j cur' Hj. simpl in Hj. destruct (decide (i = j)) as [->|Hne].
  - rewrite list_lookup_insert_eq in Hj by (by eapply lookup_lt_Some).
    injection Hj as <-. eauto.
  - rewrite list_lookup_insert_ne in Hj by done. by exists cur'.
Qed.

Lemma removeCursor_advanced i c u c' :
  removeCursor i c = Ret u c' → advanced c c'.
Proof.
  intros Hrm. apply removeCursor_Ret in Hrm as (Hi & Hcs & _).
  split; [rewrite Hcs; apply length_insert|].
  intros j cur' Hj. rewrite Hcs in Hj. destruct (decide (i = j)) as [->|Hne].
  - by rewrite list_lookup_insert_eq in Hj.
  - rewrite list_lookup_insert_ne in Hj by done. by exists cur'.
Qed.

Section Advance.

Variable maxSliceCap : Z.
Variable decodeModIndexKey : bytes → error + list Z.
Variable IndexEntry_IDs : bytes → list ID.

Local Abbreviation ForEachID := (db.ForEachID IndexEntry_IDs).
Local Abbreviation checkPair := (db.checkPair decodeModIndexKey IndexEntry_IDs).
Local Abbreviation stride_cursor :=
  (db.stride_cursor decodeModIndexKey IndexEntry_IDs).
Local Abbreviation stride_slots :=
  (db.stride_slots decodeModIndexKey IndexEntry_IDs).
Local Abbreviation stride := (db.stride decodeModIndexKey IndexEntry_IDs).
Local Abbreviation prime_slots :=
  (db.prime_slots decodeModIndexKey IndexEntry_IDs).
Local Abbreviation search := (db.search decodeModIndexKey IndexEntry_IDs).

Lemma checkPair_advanced q k v i c r c' :
  checkPair q k v i c = Ret r c' → advanced c c'.
Proof.
  intros H. apply checkPair_cases in H as [(e & _ & ->)|H];
    [apply advanced_refl|].
  destruct H as (? & ? & ? & _ & _ & _ & [[_ ->]|[_ Hrm]]).
  - apply advanced_same_cursors.
    by destruct (ForEachID_cursors IndexEntry_IDs q v c).
  - by eapply removeCursor_advanced.
Qed.

Lemma stride_cursor_advanced q i index cur c r c' :
  stride_cursor q i index cur c = Ret r c' →
  cursors c !! i = Some (Some cur) → advanced c c'.
Proof.
  revert index c. induction cur as [|[k v] cur IH]; intros index c; simpl.
  - case_match; [|intros [= _ <-] _; apply advanced_refl].
    destruct (removeCursor i c) as [[] c1| |] eqn:Hrm; [|done..].
    intros [= _ <-] _. by eapply removeCursor_advanced.
  - case_match; [|intros [= _ <-] _; apply advanced_refl].
    intros Hs Hi.
    assert (Hmv : advanced c (moved i cur c)).
    { eapply moved_advanced; [done|]. by apply suffix_cons_r. }
    assert (Hi1 : cursors (moved i cur c) !! i = Some (Some cur)).
    { simpl. apply list_lookup_insert_eq. by eapply lookup_lt_Some. }
    destruct k as [kb|].
    + destruct (checkPair q kb (content v) i (moved i cur c))
        as [[n [e|]] c1| |] eqn:Hcp; [| |done..].
      * injection Hs as _ <-. eapply advanced_trans; [done|].
        by eapply checkPair_advanced.
      * pose proof (checkPair_count_zero _ _ _ _ _ _ _ _ _ _ Hcp) as ->.
        simpl in Hs. injection Hs as _ <-. eapply advanced_trans; [done|].
        by eapply checkPair_advanced.
    + destruct v as [vb|].
      * eapply advanced_trans; [done|]. by eapply IH.
      * destruct (removeCursor i (moved i cur c)) as [[] c1| |] eqn:Hrm;
          [|done..].
        injection Hs as _ <-. eapply advanced_trans; [done|].
        by eapply removeCursor_advanced.
Qed.

Lemma stride_slots_advanced q slots c r c' :
  stride_slots q slots c = Ret r c' → advanced c c'.
Proof.
  revert c. induction slots as [|i slots IH]; intros c; simpl.
  - intros [= _ <-]. apply advanced_refl.
  - destruct (cursors c !! i) as [[cur|]|] eqn:Hi; [|apply IH..].
    destruct (stride_cursor q i 0 cur c) as [[e|] c1| |] eqn:Hsc; [| |done..].
    + intros [= _ <-]. by eapply stride_cursor_advanced.
    + intros Hs. eapply advanced_trans; [by eapply stride_cursor_advanced|].
      by apply IH.
Qed.

Lemma search_advanced fuel q found c r c' :
  search fuel q found c = Ret r c' → advanced c c'.
Proof.
  revert found c. induction fuel as [|fuel IH]; intros found c; simpl.
  - case_match; [done|]. intros [= _ <-]. apply advanced_refl.
  - case_match; [|intros [= _ <-]; apply advanced_refl].
    destruct (stride q c) as [[e|] c1| |] eqn:Hst; [| |done..].
    + intros [= _ <-]. by eapply stride_slots_advanced.
    + intros Hs. eapply advanced_trans; [by eapply stride_slots_advanced|].
      by eapply IH.
Qed.

Lemma prime_slots_advanced q slots c r c' :
  prime_slots q slots c = Ret r c' → advanced c c'.
Proof.
  revert c. induction slots as [|i slots IH]; intros c; simpl.
  - intros [= _ <-]. apply advanced_refl.
  - destruct (cursors c !! i) as [[cur|]|] eqn:Hi; [|done|apply IH].
    destruct cur as [|[k v] cur']; simpl.
    { intros Hs. eapply advanced_trans; [|by apply IH].
      by eapply moved_advanced. }
    assert (Hmv : advanced c (moved i cur' c)).
    { eapply moved_advanced; [done|]. by apply suffix_cons_r. }
    destruct k as [kb|].
    + destruct (checkPair q kb (content v) i (moved i cur' c))
        as [[n [e|]] c1| |] eqn:Hcp; [| |done..].
      * intros [= _ <-]. eapply advanced_trans; [done|].
        by eapply checkPair_advanced.
      * intros Hs. eapply advanced_trans; [done|].
        eapply advanced_trans; [by eapply checkPair_advanced|]. by apply IH.
    + intros Hs. eapply advanced_trans; [done|]. by apply IH.
Qed.

End Advance.

(** ** What the cursors still owe *)

Section Balance.

Variable maxSliceCap : Z.
Variable decodeModIndexKey : bytes → error + list Z.
Variable IndexEntry_IDs : bytes → list ID.

Local Abbreviation ForEachID := (db.ForEachID IndexEntry_IDs).
Local Abbreviation checkPair := (db.checkPair decodeModIndexKey IndexEntry_IDs).
Local Abbreviation stride_cursor :=
  (db.stride_cursor decodeModIndexKey IndexEntry_IDs).
Local Abbreviation stride_slots :=
  (db.stride_slots decodeModIndexKey IndexEntry_IDs).
Local Abbreviation stride := (db.stride decodeModIndexKey IndexEntry_IDs).
Local Abbreviation prime_slots :=
  (db.prime_slots decodeModIndexKey IndexEntry_IDs).
Local Abbreviation search := (db.search decodeModIndexKey IndexEntry_IDs).
Local Abbreviation primary_of := (idx.primary_of decodeModIndexKey).
Local Abbreviation qualifies := (idx.qualifies decodeModIndexKey).
Local Abbreviation stops := (idx.stops decodeModIndexKey).
Local Abbreviation settled := (idx.settled decodeModIndexKey).
Local Abbreviation slot_settled := (idx.slot_settled decodeModIndexKey).
Local Abbreviation taken := (idx.taken decodeModIndexKey IndexEntry_IDs).
Local Abbreviation taken_all :=
  (idx.taken_all decodeModIndexKey IndexEntry_IDs).
Local Abbreviation slot_owed :=
  (idx.slot_owed decodeModIndexKey IndexEntry_IDs).
Local Abbreviation owed_from :=
  (idx.owed_from decodeModIndexKey IndexEntry_IDs).
Local Abbreviation owed := (idx.owed decodeModIndexKey IndexEntry_IDs).
Local Abbreviation balance := (idx.balance decodeModIndexKey IndexEntry_IDs).
Local Abbreviation tidy := (idx.tidy decodeModIndexKey).

Lemma owed_from_insert q id i cs j s s' :
  cs !! j = Some s →
  (owed_from q id i (<[j := s']> cs) + slot_owed q id (i + j) s =
   owed_from q id i cs + slot_owed q id (i + j) s')%nat.
Proof.
  revert i j. induction cs as [|a cs IH]; intros i [|j]; simpl; try done.
  - intros [= ->]. rewrite Nat.add_0_r. lia.
  - intros Hj. specialize (IH (S i) j Hj).
    replace (i + S j)%nat with (S i + j)%nat by lia. lia.
Qed.

Lemma moved_owed q id i p cur c :
  cursors c !! i = Some (Some (p :: cur)) →
  (owed q id (moved i cur c) + occ id (taken q i p) = owed q id c)%nat.
Proof.
  intros Hi.
  pose proof (owed_from_insert q id 0 _ _ _ (Some cur) Hi) as Ho.
  unfold idx.owed, moved. simpl in *. unfold idx.taken_all in Ho.
  simpl in Ho. rewrite occ_app in Ho. unfold idx.taken_all, Cursor in *. lia.
Qed.

Lemma removeCursor_owed q id i s c u c' :
  removeCursor i c = Ret u c' → cursors c !! i = Some s →
  (owed q id c' + slot_owed q id i s = owed q id c)%nat ∧
  credit q id c' = credit q id c ∧ (set_ok q c → set_ok q c').
Proof.
  intros Hrm Hi. apply removeCursor_Ret in Hrm as (_ & Hcs & _ & Hset & Hres).
  pose proof (owed_from_insert q id 0 _ _ _ None Hi) as Ho.
  unfold idx.owed, credit, set_ok. rewrite Hcs, Hset, Hres.
  simpl in Ho. split; [lia|done].
Qed.

Lemma unqualified_taken q i cur id minValue :
  minModValues q !! i = Some minValue →
  forallb (λ p, negb (qualifies minValue p)) cur = true →
  occ id (taken_all q i cur) = 0%nat.
Proof.
  intros Hmin. unfold idx.taken_all.
  induction cur as [|p cur IH]; simpl; [done|].
  intros [Hp Hcur]%andb_prop. rewrite occ_app, (IH Hcur).
  unfold idx.taken. rewrite Hmin.
  by destruct (qualifies minValue p).
Qed.

Lemma slot_settled_tail q i p cur :
  slot_settled q i (p :: cur) = true → slot_settled q i cur = true.
Proof.
  unfold idx.slot_settled. destruct (minModValues q !! i); [|done].
  simpl. by intros [_ ?]%andb_prop.
Qed.

Lemma slot_settled_stop q i p cur id minValue :
  minModValues q !! i = Some minValue →
  slot_settled q i (p :: cur) = true →
  stops minValue p = true →
  occ id (taken_all q i cur) = 0%nat.
Proof.
  intros Hmin. unfold idx.slot_settled. rewrite Hmin. simpl.
  intros [Hp _]%andb_prop Hstop. rewrite Hstop in Hp.
  by eapply unqualified_taken.
Qed.

Lemma slot_settled_suffix q i cur cur' :
  cur' `suffix_of` cur → slot_settled q i cur = true →
  slot_settled q i cur' = true.
Proof.
  intros [k ->]. induction k as [|p k IH]; simpl; [done|].
  intros Hs. apply IH. by eapply slot_settled_tail.
Qed.

Lemma advanced_tidy q c c' : advanced c c' → tidy q c → tidy q c'.
Proof.
  intros [_ Hadv] Ht i cur' Hi. destruct (Hadv _ _ Hi) as (cur & Hc & Hs).
  eapply slot_settled_suffix; [done|]. by eapply Ht.
Qed.

(** No slot owes anything for a mod that has no minimum. *)
Lemma no_minimum_taken q i cur id :
  minModValues q !! i = None → occ id (taken_all q i cur) = 0%nat.
Proof.
  intros Hmin. unfold idx.taken_all.
  induction cur as [|p cur IH]; simpl; [done|].
  rewrite occ_app, IH. unfold idx.taken. by rewrite Hmin.
Qed.

(** Reading a keyed pair: what the pair brings in leaves the slot and goes,
    at most, to the count of the ID; all of it when the pair qualifies and
    nothing that qualifies is lost with the cursor. *)
Lemma checkPair_balance q kb v i cur c r c' :
  len (mods q) < 2 ^ 63 → set_ok q c →
  cursors c !! i = Some (Some cur) →
  checkPair q kb (content v) i c = Ret r c' →
  set_ok q c' ∧
  (∀ id, balance q id c' ≤
         balance q id c + Z.of_nat (occ id (taken q i (Some kb, v)))) ∧
  (slot_settled q i ((Some kb, v) :: cur) = true → r.2 = None →
   ∀ id, balance q id c' =
         balance q id c + Z.of_nat (occ id (taken q i (Some kb, v)))).
Proof.
  intros Hn Hok Hi H. apply checkPair_cases in H as [(e & -> & ->)|H].
  { split; [done|]. split; [intros id; lia|done]. }
  destruct H as (primary & rest & minValue & Hk & Hmin & -> & H).
  assert (Hprim : primary_of (Some kb, v) = Some primary).
  { unfold idx.primary_of. simpl. by rewrite Hk. }
  destruct H as [[Hle ->]|[Hlt Hrm]].
  - destruct (register_all_credit q (IndexEntry_IDs (content v)) c Hn Hok)
      as [Hok' Hc].
    assert (Htk : taken q i (Some kb, v) = IndexEntry_IDs (content v)).
    { unfold idx.taken, idx.qualifies. rewrite Hmin, Hprim.
      by destruct (Z.leb_spec minValue primary); [|lia]. }
    assert (Hbal : ∀ id, balance q id (ForEachID (content v) (registerID q) c)
                       = balance q id c +
                         Z.of_nat (occ id (taken q i (Some kb, v)))).
    { intros id. unfold idx.balance, db.ForEachID. rewrite Hc, Htk.
      unfold idx.owed.
      destruct (register_all_cursors q (IndexEntry_IDs (content v)) c)
        as [-> _]. lia. }
    split; [done|]. split; [intros id; rewrite Hbal; lia|done].
  - assert (Htk : taken q i (Some kb, v) = []).
    { unfold idx.taken, idx.qualifies. rewrite Hmin, Hprim.
      by destruct (Z.leb_spec minValue primary); [lia|]. }
    rewrite Htk.
    split; [by eapply (removeCursor_owed q 0%N)|].
    split.
    + intros id.
      destruct (removeCursor_owed q id _ _ _ _ _ Hrm Hi) as (Ho & Hc & _).
      unfold idx.balance. rewrite Hc. simpl. lia.
    + intros Hset _ id.
      destruct (removeCursor_owed q id _ _ _ _ _ Hrm Hi) as (Ho & Hc & _).
      assert (occ id (taken_all q i cur) = 0%nat) as Hz.
      { eapply slot_settled_stop; [done..|].
        unfold idx.stops. rewrite Hprim. by apply Z.ltb_lt. }
      unfold idx.balance. rewrite Hc. simpl in *. lia.
Qed.

Lemma stride_cursor_balance q i index cur c r c' :
  len (mods q) < 2 ^ 63 →
  stride_cursor q i index cur c = Ret r c' →
  cursors c !! i = Some (Some cur) → set_ok q c →
  set_ok q c' ∧
  (∀ id, balance q id c' ≤ balance q id c) ∧
  (slot_settled q i cur = true → r = None →
   ∀ id, balance q id c' = balance q id c).
Proof.
  intros Hn. revert index c.
  induction cur as [|[k v] cur IH]; intros index c; simpl.
  - case_match; [|intros [= _ <-] _ Hok; split; [done|]; split;
                   [intros; lia|done]].
    destruct (removeCursor i c) as [[] c1| |] eqn:Hrm; [|done..].
    intros [= _ <-] Hi Hok.
    split; [by eapply (removeCursor_owed q 0%N)|].
    assert (Heq : ∀ id, balance q id c1 = balance q id c).
    { intros id.
      destruct (removeCursor_owed q id _ _ _ _ _ Hrm Hi) as (Ho & Hc & _).
      unfold idx.balance. rewrite Hc. simpl in Ho. unfold occ in Ho.
      simpl in Ho. lia. }
    split; [intros id; rewrite Heq; lia|done].
  - case_match; [|intros [= _ <-] _ Hok; split; [done|]; split;
                   [intros; lia|done]].
    intros Hs Hi Hok.
    assert (Hok1 : set_ok q (moved i cur c)) by done.
    assert (Hmv : ∀ id, balance q id (moved i cur c) +
                        Z.of_nat (occ id (taken q i (k, v))) =
                        balance q id c).
    { intros id. pose proof (moved_owed q id i _ cur c Hi).
      unfold idx.balance, credit. simpl in *. lia. }
    assert (Hi1 : cursors (moved i cur c) !! i = Some (Some cur)).
    { simpl. apply list_lookup_insert_eq. by eapply lookup_lt_Some. }
    destruct k as [kb|].
    + destruct (checkPair q kb (content v) i (moved i cur c))
        as [[n [e|]] c1| |] eqn:Hcp; [| |done..].
      * injection Hs as <- <-.
        destruct (checkPair_balance _ _ _ _ _ _ _ _ Hn Hok1 Hi1 Hcp)
          as (Hok2 & Hle & _).
        split; [done|]. split; [|done].
        intros id. specialize (Hle id). specialize (Hmv id). lia.
      * pose proof (checkPair_count_zero _ _ _ _ _ _ _ _ _ _ Hcp) as ->.
        simpl in Hs. injection Hs as <- <-.
        destruct (checkPair_balance _ _ _ _ _ _ _ _ Hn Hok1 Hi1 Hcp)
          as (Hok2 & Hle & Heq).
        split; [done|]. split.
        -- intros id. specialize (Hle id). specialize (Hmv id). lia.
        -- intros Hset _ id. specialize (Heq Hset eq_refl id).
           specialize (Hmv id). lia.
    + assert (Htk : taken q i (None, v) = []).
      { unfold idx.taken, idx.qualifies, idx.primary_of. simpl.
        by destruct (minModValues q !! i). }
      rewrite Htk in Hmv.
      destruct v as [vb|].
      * destruct (IH _ _ Hs Hi1 Hok1) as (Hok2 & Hle & Heq).
        split; [done|]. split.
        -- intros id. specialize (Hle id). specialize (Hmv id).
           unfold occ in Hmv. simpl in Hmv. lia.
        -- intros Hset Hr id.
           specialize (Heq (slot_settled_tail _ _ _ _ Hset) Hr id).
           specialize (Hmv id). unfold occ in Hmv. simpl in Hmv. lia.
      * destruct (removeCursor i (moved i cur c)) as [[] c1| |] eqn:Hrm;
          [|done..].
        injection Hs as <- <-.
        split; [by eapply (removeCursor_owed q 0%N)|]. split.
        -- intros id.
           destruct (removeCursor_owed q id _ _ _ _ _ Hrm Hi1)
             as (Ho & Hc & _).
           specialize (Hmv id). unfold idx.balance in *. rewrite Hc.
           unfold occ in Hmv. simpl in Hmv. lia.
        -- intros Hset _ id.
           destruct (removeCursor_owed q id _ _ _ _ _ Hrm Hi1)
             as (Ho & Hc & _).
           assert (occ id (taken_all q i cur) = 0%nat) as Hz.
           { destruct (minModValues q !! i) as [minValue|] eqn:Hmin.
             - by eapply (slot_settled_stop q i (None, None)).
             - by apply no_minimum_taken. }
           specialize (Hmv id). unfold idx.balance in *. rewrite Hc.
           unfold occ in Hmv. simpl in *. lia.
Qed.

Lemma stride_slots_balance q slots c r c' :
  len (mods q) < 2 ^ 63 →
  stride_slots q slots c = Ret r c' → set_ok q c →
  set_ok q c' ∧
  (∀ id, balance q id c' ≤ balance q id c) ∧
  (tidy q c → r = None → ∀ id, balance q id c' = balance q id c).
Proof.
  intros Hn. revert c. induction slots as [|i slots IH]; intros c; simpl.
  - intros [= _ <-] Hok. split; [done|]. split; [intros; lia|done].
  - destruct (cursors c !! i) as [[cur|]|] eqn:Hi; [|apply IH..].
    destruct (stride_cursor q i 0 cur c) as [[e|] c1| |] eqn:Hsc; [| |done..].
    + intros [= <- <-] Hok.
      destruct (stride_cursor_balance _ _ _ _ _ _ _ Hn Hsc Hi Hok)
        as (Hok1 & Hle & _).
      split; [done|]. split; [done|done].
    + intros Hs Hok.
      destruct (stride_cursor_balance _ _ _ _ _ _ _ Hn Hsc Hi Hok)
        as (Hok1 & Hle1 & Heq1).
      destruct (IH _ Hs Hok1) as (Hok2 & Hle2 & Heq2).
      split; [done|]. split.
      * intros id. specialize (Hle1 id). specialize (Hle2 id). lia.
      * intros Ht Hr id.
        assert (Ht1 : tidy q c1).
        { eapply advanced_tidy; [by eapply stride_cursor_advanced|done]. }
        rewrite (Heq2 Ht1 Hr id). by apply Heq1; [apply Ht|].
Qed.

Lemma search_balance fuel q found c r c' :
  len (mods q) < 2 ^ 63 →
  search fuel q found c = Ret r c' → set_ok q c →
  set_ok q c' ∧
  (∀ id, balance q id c' ≤ balance q id c) ∧
  (tidy q c → r = None → ∀ id, balance q id c' = balance q id c).
Proof.
  intros Hn. revert found c.
  induction fuel as [|fuel IH]; intros found c; simpl.
  - case_match; [done|]. intros [= _ <-] Hok.
    split; [done|]. split; [intros; lia|done].
  - case_match; [|intros [= _ <-] Hok; split; [done|]; split;
                   [intros; lia|done]].
    destruct (stride q c) as [[e|] c1| |] eqn:Hst; [| |done..].
    + intros [= <- <-] Hok.
      destruct (stride_slots_balance _ _ _ _ _ Hn Hst Hok) as (Hok1 & Hle & _).
      split; [done|]. split; [done|done].
    + intros Hs Hok.
      destruct (stride_slots_balance _ _ _ _ _ Hn Hst Hok)
        as (Hok1 & Hle1 & Heq1).
      destruct (IH _ _ Hs Hok1) as (Hok2 & Hle2 & Heq2).
      split; [done|]. split.
      * intros id. specialize (Hle1 id). specialize (Hle2 id). lia.
      * intros Ht Hr id.
        assert (Ht1 : tidy q c1).
        { eapply advanced_tidy; [by eapply stride_slots_advanced|done]. }
        rewrite (Heq2 Ht1 Hr id). by apply Heq1.
Qed.

Lemma prime_slots_balance q slots c r c' :
  len (mods q) < 2 ^ 63 →
  prime_slots q slots c = Ret r c' → set_ok q c →
  set_ok q c' ∧
  (∀ id, balance q id c' ≤ balance q id c) ∧
  (tidy q c → r = None → ∀ id, balance q id c' = balance q id c).
Proof.
  intros Hn. revert c. induction slots as [|i slots IH]; intros c; simpl.
  - intros [= _ <-] Hok. split; [done|]. split; [intros; lia|done].
  - destruct (cursors c !! i) as [[cur|]|] eqn:Hi; [|done|apply IH].
    destruct cur as [|[k v] cur]; simpl.
    { assert (Hid : moved i [] c = c).
      { destruct c. unfold moved, with_cursors. simpl in *. f_equal.
        by apply list_insert_id. }
      rewrite Hid. apply IH. }
    assert (Hmv : ∀ id, balance q id (moved i cur c) +
                        Z.of_nat (occ id (taken q i (k, v))) =
                        balance q id c).
    { intros id. pose proof (moved_owed q id i _ cur c Hi).
      unfold idx.balance, credit. simpl in *. lia. }
    assert (Hi1 : cursors (moved i cur c) !! i = Some (Some cur)).
    { simpl. apply list_lookup_insert_eq. by eapply lookup_lt_Some. }
    assert (Hadv : advanced c (moved i cur c)).
    { eapply moved_advanced; [done|]. by apply suffix_cons_r. }
    destruct k as [kb|].
    + destruct (checkPair q kb (content v) i (moved i cur c))
        as [[n [e|]] c1| |] eqn:Hcp; [| |done..].
      * intros [= <- <-] Hok.
        assert (Hok1 : set_ok q (moved i cur c)) by done.
        destruct (checkPair_balance _ _ _ _ _ _ _ _ Hn Hok1 Hi1 Hcp)
          as (Hok2 & Hle & _).
        split; [done|]. split; [|done].
        intros id. specialize (Hle id). specialize (Hmv id). lia.
      * intros Hs Hok.
        assert (Hok1 : set_ok q (moved i cur c)) by done.
        destruct (checkPair_balance _ _ _ _ _ _ _ _ Hn Hok1 Hi1 Hcp)
          as (Hok2 & Hle & Heq).
        destruct (IH _ Hs Hok2) as (Hok3 & Hle3 & Heq3).
        split; [done|]. split.
        -- intros id. specialize (Hle id). specialize (Hmv id).
           specialize (Hle3 id). lia.
        -- intros Ht Hr id.
           assert (Ht1 : tidy q c1).
           { eapply advanced_tidy; [|exact Ht].
             eapply advanced_trans; [exact Hadv|].
             by eapply checkPair_advanced. }
           rewrite (Heq3 Ht1 Hr id).
           specialize (Heq (Ht _ _ Hi) eq_refl id). specialize (Hmv id). lia.
    + assert (Htk : taken q i (None, v) = []).
      { unfold idx.taken, idx.qualifies, idx.primary_of. simpl.
        by destruct (minModValues q !! i). }
      rewrite Htk in Hmv.
      intros Hs Hok. destruct (IH _ Hs Hok) as (Hok3 & Hle3 & Heq3).
      split; [done|]. split.
      * intros id. specialize (Hmv id). specialize (Hle3 id).
        unfold occ in Hmv. simpl in Hmv. lia.
      * intros Ht Hr id. rewrite (Heq3 (advanced_tidy _ _ _ Hadv Ht) Hr id).
        specialize (Hmv id). unfold occ in Hmv. simpl in Hmv. lia.
Qed.

End Balance.

(** ** What [Run] returns *)

Lemma occ_pos id l : (0 < occ id l)%nat ↔ id ∈ l.
Proof.
  rewrite list_elem_of_In, (count_occ_In N.eq_dec). unfold occ. lia.
Qed.

Lemma live_le_length c : (live c ≤ length (cursors c))%nat.
Proof.
  unfold live. induction (cursors c) as [|[cur|] l IH]; simpl; lia.
Qed.

Lemma live_zero_nil c : live c = 0%nat → Forall (λ s, s = None) (cursors c).
Proof.
  unfold live. induction (cursors c) as [|[cur|] l IH]; simpl; [done|lia|].
  intros Hl. constructor; auto.
Qed.

(** Within the range of an [int], [validCursors] is the number of live
    slots. *)
Lemma counts_live_exact c :
  counts_live c → Z.of_nat (length (cursors c)) < 2 ^ 63 →
  validCursors c = Z.of_nat (live c).
Proof.
  intros (k & Hk & Hl & Hv) Hlen. pose proof (live_le_length c). nia.
Qed.

Section Outcome.

Variable maxSliceCap : Z.
Variable decodeModIndexKey : bytes → error + list Z.
Variable IndexEntry_IDs : bytes → list ID.

Local Abbreviation stride := (db.stride decodeModIndexKey IndexEntry_IDs).
Local Abbreviation prime_slots :=
  (db.prime_slots decodeModIndexKey IndexEntry_IDs).
Local Abbreviation search := (db.search decodeModIndexKey IndexEntry_IDs).
Local Abbreviation initContext := (db.initContext maxSliceCap).
Local Abbreviation Run_body :=
  (db.Run_body maxSliceCap decodeModIndexKey IndexEntry_IDs).
Local Abbreviation Run := (db.Run maxSliceCap decodeModIndexKey IndexEntry_IDs).
Local Abbreviation listed := (acc.listed IndexEntry_IDs).
Local Abbreviation listed_once := (acc.listed_once IndexEntry_IDs).
Local Abbreviation qualifies := (idx.qualifies decodeModIndexKey).
Local Abbreviation taken := (idx.taken decodeModIndexKey IndexEntry_IDs).
Local Abbreviation taken_all :=
  (idx.taken_all decodeModIndexKey IndexEntry_IDs).
Local Abbreviation slot_owed :=
  (idx.slot_owed decodeModIndexKey IndexEntry_IDs).
Local Abbreviation owed_from :=
  (idx.owed_from decodeModIndexKey IndexEntry_IDs).
Local Abbreviation owed := (idx.owed decodeModIndexKey IndexEntry_IDs).
Local Abbreviation balance := (idx.balance decodeModIndexKey IndexEntry_IDs).
Local Abbreviation tidy := (idx.tidy decodeModIndexKey).
Local Abbreviation slot_settled := (idx.slot_settled decodeModIndexKey).
Local Abbreviation listed_under :=
  (idx.listed_under decodeModIndexKey IndexEntry_IDs).
Local Abbreviation store_settled := (idx.store_settled decodeModIndexKey).

Lemma Run_Returned q d t ids err :
  ctx q = None → db_begin d = inr t → (Run q d).1 = Returned ids err →
  ∃ c, Run_body q t = inl (Ret err c) ∧ result c = ids.
Proof.
  intros Hctx Hd. unfold db.Run. rewrite Hd, Hctx.
  destruct (db.Run_body _ _ _ q t) as [[e c| |]|e]; simpl; try done.
  intros [= <- <-]. eauto.
Qed.

Lemma Run_body_Ret q t err c :
  Run_body q t = inl (Ret err c) →
  ∃ c0, initContext q t = InitOk c0 ∧
    ((is_Some err ∧
      prime_slots q (seq 0 (length (cursors c0))) c0 = Ret err c) ∨
     (∃ c1, prime_slots q (seq 0 (length (cursors c0))) c0 = Ret None c1 ∧
            search (budget c1) q 0 c1 = Ret err c)).
Proof.
  unfold db.Run_body. destruct (db.initContext _ q t) as [c0| |]; [|done..].
  intros H. exists c0. split; [done|].
  destruct (prime_slots q (seq 0 (length (cursors c0))) c0)
    as [[e|] c1| |]; [| |done..].
  - injection H as <- <-. left. eauto.
  - injection H as H. right. eauto.
Qed.

Lemma open_cursors_Forall2 q t ms cs :
  open_cursors q t ms = inr cs →
  Forall2 (λ m s, ∃ b,
             getItemModIndexBucketRO (rootType q) (rootFlavor q) m
                                     (league q) t = inr b ∧
             s = Some (Bucket_Cursor b)) ms cs.
Proof.
  revert cs. induction ms as [|m ms IH]; intros cs; simpl.
  - intros [= <-]. constructor.
  - destruct (getItemModIndexBucketRO _ _ m _ _) as [|b] eqn:Hb; [done|].
    destruct (open_cursors q t ms) as [|cs']; [done|].
    intros [= <-]. constructor; eauto.
Qed.

Lemma initContext_Ok q t c0 :
  initContext q t = InitOk c0 →
  open_cursors q t (mods q) = inr (cursors c0) ∧
  validCursors c0 = len (mods q) ∧ set c0 = ∅ ∧ result c0 = [] ∧
  0 ≤ maxDesired q ≤ maxSliceCap.
Proof.
  unfold db.initContext.
  destruct (open_cursors q t (mods q)) as [|cs]; [done|].
  destruct (Z.ltb_spec (maxDesired q) 0); [done|].
  destruct (Z.ltb_spec maxSliceCap (maxDesired q)); [done|].
  simpl. intros [= <-]. simpl. repeat split; done || lia.
Qed.

Lemma search_counts_live fuel q found c r c' :
  search fuel q found c = Ret r c' → counts_live c → counts_live c'.
Proof.
  revert found c. induction fuel as [|fuel IH]; intros found c; simpl.
  - case_match; [done|]. by intros [= _ <-].
  - case_match; [|by intros [= _ <-]].
    destruct (stride q c) as [[e|] c1| |] eqn:Hst; [| |done..].
    + intros [= _ <-]. by eapply stride_counts_live.
    + intros Hs Hl. eapply IH; [done|]. by eapply stride_counts_live.
Qed.

(** How the search loop is left without an error. *)
Lemma search_exit fuel q found c c' :
  search fuel q found c = Ret None c' →
  (c' = c ∧ maxDesired q ≤ found) ∨
  maxDesired q ≤ len (result c') ∨ validCursors c' ≤ 0.
Proof.
  revert found c. induction fuel as [|fuel IH]; intros found c; simpl.
  - destruct (Z.ltb_spec found (maxDesired q));
      destruct (Z.ltb_spec 0 (validCursors c)); simpl; try done;
      intros [= <-]; auto.
  - destruct (Z.ltb_spec found (maxDesired q));
      destruct (Z.ltb_spec 0 (validCursors c)); simpl;
      try (intros [= <-]; by auto).
    destruct (stride q c) as [[e|] c1| |] eqn:Hst; [done| |done..].
    intros Hs. destruct (IH _ _ Hs) as [[-> Hf]|Hrest]; auto.
Qed.

(** Everything the lemmas above say of the context [Run] ends with. *)
Lemma Run_body_facts q t err c :
  len (mods q) < 2 ^ 63 →
  Run_body q t = inl (Ret err c) →
  ∃ c0, initContext q t = InitOk c0 ∧
        advanced c0 c ∧ set_ok q c ∧ counts_live c ∧
        (∀ id, balance q id c ≤ balance q id c0) ∧
        (tidy q c0 → err = None → ∀ id, balance q id c = balance q id c0) ∧
        (err = None →
         maxDesired q ≤ len (result c) ∨ validCursors c ≤ 0).
Proof.
  intros Hn H. apply Run_body_Ret in H as (c0 & Hin & H).
  exists c0. split; [done|].
  pose proof (initContext_counts_live _ _ _ _ Hin) as Hl0.
  destruct (initContext_Ok _ _ _ Hin) as (_ & _ & Hset0 & _).
  assert (Hok0 : set_ok q c0).
  { intros id v. by rewrite Hset0, lookup_empty. }
  destruct H as [[[e ->] Hpr]|(c1 & Hpr & Hse)].
  - destruct (prime_slots_balance _ _ _ _ _ _ _ Hn Hpr Hok0)
      as (Hok & Hle & _).
    split; [by eapply prime_slots_advanced|]. split; [done|].
    split; [by eapply prime_slots_counts_live|]. split; [done|].
    split; done.
  - destruct (prime_slots_balance _ _ _ _ _ _ _ Hn Hpr Hok0)
      as (Hok1 & Hle1 & Heq1).
    destruct (search_balance _ _ _ _ _ _ _ _ Hn Hse Hok1)
      as (Hok & Hle & Heq).
    pose proof (prime_slots_advanced _ _ _ _ _ _ _ Hpr) as Hadv1.
    split; [eapply advanced_trans; [done|]; by eapply search_advanced|].
    split; [done|].
    split.
    { eapply search_counts_live; [done|].
      by eapply prime_slots_counts_live. }
    split; [intros id; specialize (Hle id); specialize (Hle1 id); lia|].
    split.
    + intros Ht Herr id.
      rewrite (Heq (advanced_tidy _ _ _ _ Hadv1 Ht) Herr id).
      by apply Heq1.
    + intros ->. destruct (search_exit _ _ _ _ _ Hse) as [[-> Hf]|Hrest];
        [|done].
      left. unfold len. lia.
Qed.

Lemma initial_balance q c0 id :
  set c0 = ∅ → result c0 = [] →
  balance q id c0 = Z.of_nat (owed_from q id 0 (cursors c0)).
Proof.
  intros Hset Hres. unfold idx.balance, credit, idx.owed.
  rewrite Hset, Hres, lookup_empty. unfold occ. simpl. lia.
Qed.

Lemma credit_bounds q id c :
  set_ok q c →
  weight q * Z.of_nat (occ id (result c)) ≤ credit q id c <
  weight q * Z.of_nat (occ id (result c)) + weight q.
Proof.
  intros Hok. unfold credit, weight.
  destruct (set c !! id) as [v|] eqn:Hv; simpl; [apply Hok in Hv|]; lia.
Qed.

Lemma owed_from_le q id i cs :
  (∀ j s, cs !! j = Some s → slot_owed q id (i + j) s ≤ 1)%nat →
  (owed_from q id i cs ≤ length cs)%nat.
Proof.
  revert i. induction cs as [|a cs IH]; intros i Hall; simpl; [done|].
  pose proof (Hall 0%nat a eq_refl) as Ha. rewrite Nat.add_0_r in Ha.
  assert (owed_from q id (S i) cs ≤ length cs)%nat; [|lia].
  apply IH. intros j s Hj. specialize (Hall (S j) s Hj).
  by rewrite <- Nat.add_succ_comm in Hall.
Qed.

Lemma owed_from_saturated q id i cs :
  (∀ j s, cs !! j = Some s → slot_owed q id (i + j) s ≤ 1)%nat →
  (length cs ≤ owed_from q id i cs)%nat →
  ∀ j s, cs !! j = Some s → (1 ≤ slot_owed q id (i + j) s)%nat.
Proof.
  revert i. induction cs as [|a cs IH]; intros i Hall Hsum j s Hj;
    [by rewrite lookup_nil in Hj|].
  simpl in Hsum.
  pose proof (Hall 0%nat a eq_refl) as Ha. rewrite Nat.add_0_r in Ha.
  assert (Hall' : ∀ j s, cs !! j = Some s →
                         (slot_owed q id (S i + j) s ≤ 1)%nat).
  { intros j' s' Hj'. specialize (Hall (S j') s' Hj').
    by rewrite <- Nat.add_succ_comm in Hall. }
  pose proof (owed_from_le q id (S i) cs Hall').
  destruct j as [|j]; simpl in Hj.
  - injection Hj as <-. rewrite Nat.add_0_r. lia.
  - rewrite <- Nat.add_succ_comm. apply IH; [done|lia|done].
Qed.

Lemma owed_from_ge q id i cs :
  (∀ j s, cs !! j = Some s → 1 ≤ slot_owed q id (i + j) s)%nat →
  (length cs ≤ owed_from q id i cs)%nat.
Proof.
  revert i. induction cs as [|a cs IH]; intros i Hall; simpl; [done|].
  pose proof (Hall 0%nat a eq_refl) as Ha. rewrite Nat.add_0_r in Ha.
  assert (length cs ≤ owed_from q id (S i) cs)%nat; [|lia].
  apply IH. intros j s Hj. specialize (Hall (S j) s Hj).
  by rewrite <- Nat.add_succ_comm in Hall.
Qed.

Lemma owed_from_nil q id i cs :
  Forall (λ s, s = None) cs → owed_from q id i cs = 0%nat.
Proof.
  intros Hall. revert i. induction Hall as [|s cs -> _ IH]; intros i; simpl;
    [done|]. by rewrite IH.
Qed.

Lemma taken_elem q i p id :
  id ∈ taken q i p ↔
  ∃ kb primary rest minValue,
    p.1 = Some kb ∧ decodeModIndexKey kb = inr (primary :: rest) ∧
    minModValues q !! i = Some minValue ∧ minValue ≤ primary ∧
    id ∈ IndexEntry_IDs (content p.2).
Proof.
  unfold idx.taken, idx.qualifies, idx.primary_of. split.
  - destruct (minModValues q !! i) as [minValue|];
      [|by intros ?%elem_of_nil].
    destruct p.1 as [kb|]; [|by intros ?%elem_of_nil].
    destruct (decodeModIndexKey kb) as [|[|primary rest]] eqn:Hdec;
      try by intros ?%elem_of_nil.
    destruct (Z.leb_spec minValue primary); [|by intros ?%elem_of_nil].
    intros Hid. by exists kb, primary, rest, minValue.
  - intros (kb & primary & rest & minValue & -> & -> & -> & Hle & Hid).
    by destruct (Z.leb_spec minValue primary); [|lia].
Qed.

Lemma taken_all_elem q i ps id :
  id ∈ taken_all q i ps ↔ ∃ p, p ∈ ps ∧ id ∈ taken q i p.
Proof.
  unfold idx.taken_all. rewrite list_elem_of_In, in_flat_map.
  split; intros (p & Hp & Hid); exists p;
    by rewrite ?list_elem_of_In in *.
Qed.

Lemma taken_le_listed q i ps id :
  (occ id (taken_all q i ps) ≤ occ id (listed ps))%nat.
Proof.
  unfold idx.taken_all, acc.listed.
  induction ps as [|p ps IH]; simpl; [done|]. rewrite !occ_app.
  assert (occ id (taken q i p) ≤ occ id (acc.pair_ids IndexEntry_IDs p))%nat;
    [|lia].
  unfold idx.taken, idx.qualifies, idx.primary_of, acc.pair_ids.
  destruct (minModValues q !! i); [|unfold occ; simpl; lia].
  destruct p.1; [|unfold occ; simpl; lia].
  repeat case_match; unfold occ; simpl; lia.
Qed.

(** A slot of the opening context owes one registration for an ID listed
    under a key that reaches the minimum, and only then. *)
Lemma opening_slot_owed q t i m b id :
  mods q !! i = Some m →
  getItemModIndexBucketRO (rootType q) (rootFlavor q) m (league q) t = inr b →
  (1 ≤ slot_owed q id i (Some (Bucket_Cursor b)))%nat ↔ listed_under q t i id.
Proof.
  intros Hm Hb. simpl. change (1 ≤ ?n)%nat with (0 < n)%nat.
  rewrite occ_pos, taken_all_elem. unfold Bucket_Cursor. split.
  - intros (p & Hp & Hid).
    apply list_elem_of_In, in_rev, list_elem_of_In in Hp.
    apply taken_elem in Hid
      as (kb & primary & rest & minValue & Hk & Hdec & Hmin & Hle & Hid).
    destruct p as [k v]. simpl in *. subst k.
    by exists m, b, kb, v, primary, rest, minValue.
  - intros (m' & b' & kb & v & primary & rest & minValue
            & Hm' & Hb' & Hp & Hdec & Hmin & Hle & Hid).
    assert (m' = m) as -> by congruence.
    assert (b' = b) as -> by congruence.
    exists (Some kb, v). split.
    + by apply list_elem_of_In, in_rev, list_elem_of_In in Hp.
    + apply taken_elem. by exists kb, primary, rest, minValue.
Qed.

Lemma opening_slots q t c0 :
  initContext q t = InitOk c0 →
  length (cursors c0) = length (mods q) ∧
  ∀ j s, cursors c0 !! j = Some s →
    ∃ m b, mods q !! j = Some m ∧
           getItemModIndexBucketRO (rootType q) (rootFlavor q) m
                                   (league q) t = inr b ∧
           s = Some (Bucket_Cursor b).
Proof.
  intros Hin. destruct (initContext_Ok _ _ _ Hin) as (Ho & _).
  apply open_cursors_Forall2 in Ho. split.
  - symmetry. by eapply Forall2_length.
  - intros j s Hj. destruct (Forall2_lookup_r _ _ _ _ _ Ho Hj)
      as (m & Hm & b & Hb & ->). eauto.
Qed.

(** X1. Under per-bucket uniqueness, every ID [Run] returns is listed in the
    bucket of every queried mod under a key whose primary value reaches the
    scaled minimum of that mod. *)
Theorem Run_result_listed q d t ids err id i :
  ctx q = None →
  len (mods q) < 2 ^ 63 →
  db_begin d = inr t →
  listed_once q t →
  (Run q d).1 = Returned ids err →
  id ∈ ids → (i < length (mods q))%nat →
  listed_under q t i id.
Proof.
  intros Hctx Hn Hd Hu Hrun Hid Hi.
  destruct (Run_Returned _ _ _ _ _ Hctx Hd Hrun) as (c & Hbody & <-).
  destruct (Run_body_facts _ _ _ _ Hn Hbody)
    as (c0 & Hin & _ & Hok & _ & Hle & _).
  destruct (initContext_Ok _ _ _ Hin) as (_ & _ & Hset0 & Hres0 & _).
  destruct (opening_slots _ _ _ Hin) as [Hlen Hslots].
  specialize (Hle id). rewrite (initial_balance q c0 id Hset0 Hres0) in Hle.
  pose proof (credit_bounds q id c Hok) as [Hcr _].
  apply occ_pos in Hid.
  assert (Hw : weight q = Z.of_nat (length (cursors c0))).
  { unfold weight, len. lia. }
  assert (Hone : ∀ j s, cursors c0 !! j = Some s →
                        (slot_owed q id (0 + j) s ≤ 1)%nat).
  { intros j s Hj. destruct (Hslots _ _ Hj) as (m & b & Hm & Hb & ->).
    simpl. etrans; [apply taken_le_listed|].
    unfold Bucket_Cursor. rewrite listed_rev. apply NoDup_occ.
    eapply Hu; [|done]. by eapply list_elem_of_lookup_2. }
  assert (Hfull : (length (cursors c0) ≤ owed_from q id 0 (cursors c0))%nat).
  { unfold idx.balance in Hle. nia. }
  destruct (lookup_lt_is_Some_2 (cursors c0) i ltac:(lia)) as [s Hs].
  pose proof (owed_from_saturated q id 0 _ Hone Hfull i s Hs) as Hslot.
  destruct (Hslots _ _ Hs) as (m & b & Hm & Hb & ->).
  by eapply opening_slot_owed.
Qed.

(** When the buckets are settled and [Run] returns, without an error,
    fewer IDs than [maxDesired], it has missed nothing. *)
Lemma Run_complete_settled q d t ids id :
  ctx q = None →
  len (mods q) < 2 ^ 63 →
  db_begin d = inr t →
  store_settled q t →
  (Run q d).1 = Returned ids None →
  len ids < maxDesired q →
  (0 < length (mods q))%nat →
  (∀ i, (i < length (mods q))%nat → listed_under q t i id) →
  id ∈ ids.
Proof.
  intros Hctx Hn Hd Hst Hrun Hshort Hmods Hall.
  destruct (Run_Returned _ _ _ _ _ Hctx Hd Hrun) as (c & Hbody & <-).
  destruct (Run_body_facts _ _ _ _ Hn Hbody)
    as (c0 & Hin & [Hlenc _] & Hok & Hlive & _ & Heq & Hexit).
  destruct (initContext_Ok _ _ _ Hin) as (_ & _ & Hset0 & Hres0 & _).
  destruct (opening_slots _ _ _ Hin) as [Hlen Hslots].
  assert (Ht0 : tidy q c0).
  { intros j cur Hj. destruct (Hslots _ _ Hj) as (m & b & Hm & Hb & [= ->]).
    by eapply Hst. }
  specialize (Heq Ht0 eq_refl id).
  rewrite (initial_balance q c0 id Hset0 Hres0) in Heq.
  destruct (Hexit eq_refl) as [Hfull|Hvc]; [lia|].
  assert (Hnone : Forall (λ s, s = None) (cursors c)).
  { apply live_zero_nil.
    pose proof (counts_live_exact c Hlive) as Hex.
    rewrite Hlenc, Hlen in Hex. unfold len in Hn. lia. }
  assert (Hge : (length (cursors c0) ≤ owed_from q id 0 (cursors c0))%nat).
  { apply owed_from_ge. intros j s Hj.
    destruct (Hslots _ _ Hj) as (m & b & Hm & Hb & ->).
    eapply opening_slot_owed; [done..|]. apply Hall.
    rewrite <- Hlen. by eapply lookup_lt_Some. }
  pose proof (credit_bounds q id c Hok) as [_ Hcr].
  unfold idx.balance, idx.owed in Heq.
  rewrite (owed_from_nil q id 0 _ Hnone) in Heq.
  assert (Hw : weight q = Z.of_nat (length (cursors c0))).
  { unfold weight, len. lia. }
  apply occ_pos. nia.
Qed.

(** X2. The context [Run] ends with keeps the invariant of the accumulator:
    every count in the map is at least 1 and below the number of mods. *)
Theorem Run_body_counts_in_range q t err c id v :
  len (mods q) < 2 ^ 63 →
  Run_body q t = inl (Ret err c) →
  set c !! id = Some v →
  1 ≤ v < len (mods q).
Proof.
  intros Hn Hbody. destruct (Run_body_facts _ _ _ _ Hn Hbody)
    as (c0 & _ & _ & Hok & _). apply Hok.
Qed.

(** X3. In the context [Run] ends with, [validCursors] is the number of
    slots that still hold a cursor, and there is one slot per mod. *)
Theorem Run_body_validCursors q t err c :
  len (mods q) < 2 ^ 63 →
  Run_body q t = inl (Ret err c) →
  validCursors c = Z.of_nat (live c) ∧
  length (cursors c) = length (mods q).
Proof.
  intros Hn Hbody. destruct (Run_body_facts _ _ _ _ Hn Hbody)
    as (c0 & Hin & [Hlenc _] & _ & Hlive & _).
  destruct (opening_slots _ _ _ Hin) as [Hlen _].
  split; [|congruence].
  apply counts_live_exact; [done|]. rewrite Hlenc, Hlen. by unfold len in Hn.
Qed.

(** X4. A cursor that is still in its slot when [Run] ends stands in the
    bucket of the mod of that slot, at or behind the tail it was opened
    at: cursors are never swapped and never move back. *)
Theorem Run_body_cursor_in_own_bucket q t err c i cur :
  Run_body q t = inl (Ret err c) →
  cursors c !! i = Some (Some cur) →
  ∃ m b, mods q !! i = Some m ∧
         getItemModIndexBucketRO (rootType q) (rootFlavor q) m (league q) t
           = inr b ∧
         cur `suffix_of` Bucket_Cursor b.
Proof.
  intros Hbody Hi. apply Run_body_Ret in Hbody as (c0 & Hin & H).
  assert (Hadv : advanced c0 c).
  { destruct H as [[_ Hpr]|(c1 & Hpr & Hse)].
    - by eapply prime_slots_advanced.
    - eapply advanced_trans; [by eapply prime_slots_advanced|].
      by eapply search_advanced. }
  destruct Hadv as [_ Hadv]. destruct (Hadv _ _ Hi) as (cur0 & Hi0 & Hsuf).
  destruct (opening_slots _ _ _ Hin) as [_ Hslots].
  destruct (Hslots _ _ Hi0) as (m & b & Hm & Hb & [= ->]). eauto.
Qed.

(** X5. When [Run] ends without an error and with fewer IDs than
    [maxDesired], no slot holds a cursor any more: every cursor was run to
    the start of its bucket or dropped below its minimum. *)
Theorem Run_body_short_of_maxDesired q t c :
  len (mods q) < 2 ^ 63 →
  Run_body q t = inl (Ret None c) →
  len (result c) < maxDesired q →
  validCursors c = 0 ∧ Forall (λ s, s = None) (cursors c).
Proof.
  intros Hn Hbody Hshort. destruct (Run_body_facts _ _ _ _ Hn Hbody)
    as (c0 & Hin & [Hlenc _] & _ & Hlive & _ & _ & Hexit).
  destruct (opening_slots _ _ _ Hin) as [Hlen _].
  destruct (Hexit eq_refl) as [Hfull|Hvc]; [lia|].
  pose proof (counts_live_exact c Hlive) as Hex.
  rewrite Hlenc, Hlen in Hex. unfold len in Hn. specialize (Hex Hn).
  split; [lia|]. apply live_zero_nil. lia.
Qed.

End Outcome.

(** ** One pass, slot by slot *)

Section Passes.

Variable maxSliceCap : Z.
Variable decodeModIndexKey : bytes → error + list Z.
Variable IndexEntry_IDs : bytes → list ID.

Local Abbreviation ForEachID := (db.ForEachID IndexEntry_IDs).
Local Abbreviation checkPair := (db.checkPair decodeModIndexKey IndexEntry_IDs).
Local Abbreviation stride_cursor :=
  (db.stride_cursor decodeModIndexKey IndexEntry_IDs).
Local Abbreviation stride_slots :=
  (db.stride_slots decodeModIndexKey IndexEntry_IDs).
Local Abbreviation stride := (db.stride decodeModIndexKey IndexEntry_IDs).
Local Abbreviation prime_slots :=
  (db.prime_slots decodeModIndexKey IndexEntry_IDs).
Local Abbreviation search := (db.search decodeModIndexKey IndexEntry_IDs).
Local Abbreviation initContext := (db.initContext maxSliceCap).
Local Abbreviation Run_body :=
  (db.Run_body maxSliceCap decodeModIndexKey IndexEntry_IDs).
Local Abbreviation Run := (db.Run maxSliceCap decodeModIndexKey IndexEntry_IDs).
Local Abbreviation primary_of := (idx.primary_of decodeModIndexKey).
Local Abbreviation readable := (idx.readable decodeModIndexKey).
Local Abbreviation clean := (idx.clean decodeModIndexKey).
Local Abbreviation store_readable := (idx.store_readable decodeModIndexKey).
Local Abbreviation key_error := (idx.key_error decodeModIndexKey).

Lemma stride_slots_frame q slots c r c' j :
  stride_slots q slots c = Ret r c' → j ∉ slots →
  cursors c' !! j = cursors c !! j.
Proof.
  revert c. induction slots as [|i slots IH]; intros c; simpl.
  - by intros [= _ <-].
  - intros Hs [Hne Hj]%not_elem_of_cons.
    destruct (cursors c !! i) as [[cur|]|] eqn:Hi; [|by apply IH..].
    destruct (stride_cursor q i 0 cur c) as [[e|] c1| |] eqn:Hsc; [| |done..].
    + injection Hs as _ <-. by eapply stride_cursor_frame.
    + rewrite (IH _ Hs Hj). by eapply stride_cursor_frame.
Qed.

(** What the per-cursor loop leaves of a cursor when it ends without an
    error: nothing, or what lies behind the first pair with a key. *)
Lemma stride_cursor_shape q i index cur c c' :
  stride_cursor q i index cur c = Ret None c' →
  cursors c !! i = Some (Some cur) →
  index < LookupItemsMultiModStrideLength →
  cursors c' !! i = Some None ∨
  ∃ skipped p cur', cur = skipped ++ p :: cur' ∧
                    forallb nested skipped = true ∧ is_Some p.1 ∧
                    cursors c' !! i = Some (Some cur').
Proof.
  revert index c. induction cur as [|[k v] cur IH]; intros index c; simpl.
  - destruct (Z.ltb_spec index LookupItemsMultiModStrideLength); [|lia].
    intros Hs Hi _. left.
    destruct (removeCursor i c) as [[] c1| |] eqn:Hrm; [|done..].
    injection Hs as <-. apply removeCursor_Ret in Hrm as (Hlt & -> & _).
    by apply list_lookup_insert_eq.
  - destruct (Z.ltb_spec index LookupItemsMultiModStrideLength); [|lia].
    intros Hs Hi _.
    assert (Hi1 : cursors (moved i cur c) !! i = Some (Some cur)).
    { simpl. apply list_lookup_insert_eq. by eapply lookup_lt_Some. }
    destruct k as [kb|].
    + destruct (checkPair q kb (content v) i (moved i cur c))
        as [[n [e|]] c1| |] eqn:Hcp; [done| |done..].
      pose proof (checkPair_count_zero _ _ _ _ _ _ _ _ _ _ Hcp) as ->.
      simpl in Hs. injection Hs as <-.
      apply checkPair_cases in Hcp as [(e & [=] & _)|Hcp].
      destruct Hcp as (? & ? & ? & _ & _ & _ & [[_ ->]|[_ Hrm]]).
      * right. exists [], (Some kb, v), cur. repeat split; [by eexists|].
        by destruct (ForEachID_cursors IndexEntry_IDs q (content v)
                       (moved i cur c)) as [-> _].
      * left. apply removeCursor_Ret in Hrm as (Hlt & -> & _).
        by apply list_lookup_insert_eq.
    + destruct v as [vb|].
      * destruct (IH _ _ Hs Hi1 ltac:(done))
          as [Hnil|(skipped & p & cur' & -> & Hsk & Hp & Hc')]; [by left|].
        right. exists ((None, Some vb) :: skipped), p, cur'.
        repeat split; done.
      * left. destruct (removeCursor i (moved i cur c)) as [[] c1| |] eqn:Hrm;
          [|done..].
        injection Hs as <-. apply removeCursor_Ret in Hrm as (Hlt & -> & _).
        by apply list_lookup_insert_eq.
Qed.

Lemma stride_slots_shape q slots c c' i cur :
  NoDup slots →
  stride_slots q slots c = Ret None c' →
  i ∈ slots → cursors c !! i = Some (Some cur) →
  cursors c' !! i = Some None ∨
  ∃ skipped p cur', cur = skipped ++ p :: cur' ∧
                    forallb nested skipped = true ∧ is_Some p.1 ∧
                    cursors c' !! i = Some (Some cur').
Proof.
  intros Hnd. revert c. induction Hnd as [|j slots Hj Hnd IH]; intros c; simpl.
  - by intros _ ?%elem_of_nil.
  - intros Hs Hin Hi. destruct (decide (i = j)) as [->|Hne].
    + unfold Cursor in *. rewrite Hi in Hs.
      destruct (stride_cursor q j 0 cur c) as [[e|] c1| |] eqn:Hsc;
        [done| |done..].
      pose proof (stride_slots_frame _ _ _ _ _ j Hs Hj) as Hfr.
      unfold Cursor in *. rewrite Hfr.
      by eapply stride_cursor_shape.
    + apply elem_of_cons in Hin as [?|Hin]; [done|].
      destruct (cursors c !! j) as [[curj|]|] eqn:Hcj; [|by eapply IH..].
      destruct (stride_cursor q j 0 curj c) as [[e|] c1| |] eqn:Hsc;
        [done| |done..].
      eapply IH; [done..|].
      pose proof (stride_cursor_frame _ _ _ _ _ _ _ _ _ i Hsc Hne) as Hfr.
      unfold Cursor in *. by rewrite Hfr.
Qed.

(** X6. A pass that ends without an error has dealt with every live cursor
    once: it has cleared the slot, or it has moved the cursor over the
    pairs without a key that lay first and over exactly one pair with a
    key. *)
Theorem stride_one_keyed_pair_per_cursor q c c' i cur :
  stride q c = Ret None c' →
  cursors c !! i = Some (Some cur) →
  cursors c' !! i = Some None ∨
  ∃ skipped p cur', cur = skipped ++ p :: cur' ∧
                    forallb nested skipped = true ∧ is_Some p.1 ∧
                    cursors c' !! i = Some (Some cur').
Proof.
  intros Hs Hi. eapply stride_slots_shape; [apply NoDup_seq|exact Hs| |done].
  apply elem_of_seq. pose proof (lookup_lt_Some _ _ _ Hi).
  unfold Cursor in *. lia.
Qed.

(** *** Errors *)

Lemma checkPair_error q k v i c n e c' :
  checkPair q k v i c = Ret (n, Some e) c' → key_error e ∧ c' = c.
Proof.
  unfold db.checkPair.
  destruct (decodeModIndexKey k) as [err|[|primary rest]] eqn:Hk.
  - intros [= _ <- <-]. split; [|done]. left. eauto.
  - intros [= _ <- <-]. split; [|done]. right. eauto.
  - destruct (minModValues q !! i); [|done]. case_match; [done|].
    by destruct (removeCursor i c).
Qed.

Lemma stride_cursor_error q i index cur c e c' :
  stride_cursor q i index cur c = Ret (Some e) c' →
  ∃ e0, key_error e0 ∧ e = Wrap e0 "failed to check value pair".
Proof.
  revert index c. induction cur as [|[k v] cur IH]; intros index c; simpl.
  - case_match; [|done]. by destruct (removeCursor i c).
  - case_match; [|done]. destruct k as [kb|].
    + destruct (checkPair q kb (content v) i (moved i cur c))
        as [[n [e0|]] c1| |] eqn:Hcp; [| |done..].
      * intros [= <- _]. apply checkPair_error in Hcp as [He _]. eauto.
      * case_match; [done|]. apply IH.
    + destruct v; [apply IH|]. by destruct (removeCursor i (moved i cur c)).
Qed.

Lemma stride_slots_error q slots c e c' :
  stride_slots q slots c = Ret (Some e) c' →
  ∃ e0, key_error e0 ∧ e = Wrap e0 "failed to check value pair".
Proof.
  revert c. induction slots as [|i slots IH]; intros c; simpl; [done|].
  destruct (cursors c !! i) as [[cur|]|]; [|apply IH..].
  destruct (stride_cursor q i 0 cur c) as [[e1|] c1| |] eqn:Hsc; [| |done..].
  - intros [= <- _]. by eapply stride_cursor_error.
  - apply IH.
Qed.

Lemma search_error fuel q found c e c' :
  search fuel q found c = Ret (Some e) c' →
  ∃ e0, key_error e0 ∧
        e = Wrap (Wrap e0 "failed to check value pair") "failed a stride".
Proof.
  revert found c. induction fuel as [|fuel IH]; intros found c; simpl.
  - by case_match.
  - case_match; [|done].
    destruct (stride q c) as [[e1|] c1| |] eqn:Hst; [| |done..].
    + intros [= <- _].
      apply stride_slots_error in Hst as (e0 & He0 & ->). eauto.
    + apply IH.
Qed.

Lemma prime_slots_error q slots c e c' :
  prime_slots q slots c = Ret (Some e) c' →
  ∃ e0, key_error e0 ∧ e = Wrap e0 "failed to check value in bucekt".
Proof.
  revert c. induction slots as [|i slots IH]; intros c; simpl; [done|].
  destruct (cursors c !! i) as [[cur|]|]; [|done|apply IH].
  destruct (Cursor_Last cur) as [[k v] cur'].
  destruct k as [kb|]; [|apply IH].
  destruct (checkPair q kb (content v) i (moved i cur' c))
    as [[n [e0|]] c1| |] eqn:Hcp; [| |done..].
  - intros [= <- _]. apply checkPair_error in Hcp as [He _]. eauto.
  - apply IH.
Qed.

(** X7. The only errors a query without a context gets back from [Run]
    with a list are those of a key: the decoder's error or the complaint
    about a key without values, wrapped once by priming or twice by a
    pass.  A store that does not begin a transaction and a bucket that does
    not open never come back as an error. *)
Theorem Run_error_is_key_error q d ids e :
  ctx q = None →
  (Run q d).1 = Returned ids (Some e) →
  ∃ e0, key_error e0 ∧
        (e = Wrap e0 "failed to check value in bucekt" ∨
         e = Wrap (Wrap e0 "failed to check value pair") "failed a stride").
Proof.
  intros Hctx. unfold db.Run, db.Run_body. rewrite Hctx.
  destruct (db_begin d) as [|t]; [done|].
  destruct (db.initContext _ q t) as [c0| |]; [|done..].
  destruct (prime_slots q (seq 0 (length (cursors c0))) c0)
    as [[e1|] c1| |] eqn:Hpr; [| |done..].
  - intros [= _ <-]. apply prime_slots_error in Hpr as (e0 & He0 & ->). eauto.
  - destruct (search (budget c1) q 0 c1) as [[e1|] c2| |] eqn:Hse; [|done..].
    intros [= _ <-]. apply search_error in Hse as (e0 & He0 & ->). eauto.
Qed.

(** X8. A query without a context gets a list back from [Run] only when
    the store began a transaction, every bucket opened and [maxDesired] was
    a capacity a slice can be made with. *)
Theorem Run_returns_after_opening q d ids err :
  ctx q = None →
  (Run q d).1 = Returned ids err →
  ∃ t, db_begin d = inr t ∧
       (∀ m, m ∈ mods q →
          ∃ b, getItemModIndexBucketRO (rootType q) (rootFlavor q) m
                                       (league q) t = inr b) ∧
       0 ≤ maxDesired q ≤ maxSliceCap.
Proof.
  intros Hctx. unfold db.Run. rewrite Hctx.
  destruct (db_begin d) as [|t]; [done|]. intros Hrun. exists t.
  split; [done|].
  destruct (db.Run_body _ _ _ q t) as [[e c| |]|e] eqn:Hbody; try done.
  apply Run_body_Ret in Hbody as (c0 & Hin & _).
  destruct (initContext_Ok _ _ _ _ Hin) as (Ho & _ & _ & _ & HK).
  split; [|done]. intros m Hm.
  apply open_cursors_Forall2 in Ho.
  apply list_elem_of_lookup in Hm as [j Hj].
  destruct (Forall2_lookup_l _ _ _ _ _ Ho Hj) as (s & _ & b & Hb & _). eauto.
Qed.

(** *** A readable store *)

Lemma advanced_clean q c c' : advanced c c' → clean q c → clean q c'.
Proof.
  intros [Hlen Hadv] [Hmin Hread]. split; [by rewrite Hlen|].
  intros i cur' Hi. destruct (Hadv _ _ Hi) as (cur & Hc & [k ->]).
  specialize (Hread _ _ Hc). rewrite forallb_app in Hread.
  by apply andb_prop in Hread as [_ ?].
Qed.

Lemma checkPair_readable q kb v i c :
  readable (Some kb, v) = true →
  (i < length (minModValues q))%nat → (i < length (cursors c))%nat →
  ∃ c', checkPair q kb (content v) i c = Ret (0, None) c'.
Proof.
  unfold idx.readable, idx.primary_of, db.checkPair. simpl.
  intros Hr Hmin Hi.
  destruct (decodeModIndexKey kb) as [|[|primary rest]];
    try (apply bool_decide_eq_true_1 in Hr as [? [=]]).
  destruct (lookup_lt_is_Some_2 _ _ Hmin) as [minValue ->].
  case_match; [eauto|]. unfold removeCursor. case_decide; [eauto|unfold Cursor in *; lia].
Qed.

Lemma stride_cursor_readable q i index cur c :
  forallb readable cur = true →
  (i < length (minModValues q))%nat →
  cursors c !! i = Some (Some cur) →
  ∃ c', stride_cursor q i index cur c = Ret None c'.
Proof.
  intros Hread Hmin. revert index c Hread.
  induction cur as [|[k v] cur IH]; intros index c Hread Hi; simpl.
  - case_match; [|eauto]. unfold removeCursor.
    pose proof (lookup_lt_Some _ _ _ Hi). case_decide; [eauto|unfold Cursor in *; lia].
  - case_match; [|eauto].
    simpl in Hread. apply andb_prop in Hread as [Hp Hread].
    assert (Hi1 : cursors (moved i cur c) !! i = Some (Some cur)).
    { simpl. apply list_lookup_insert_eq. by eapply lookup_lt_Some. }
    pose proof (lookup_lt_Some _ _ _ Hi1) as Hlt.
    destruct k as [kb|].
    + destruct (checkPair_readable q kb v i (moved i cur c) Hp Hmin Hlt)
        as [c1 ->]. simpl. eauto.
    + destruct v; [by apply IH|].
      unfold removeCursor. case_decide; [eauto|unfold Cursor in *; lia].
Qed.

Lemma stride_slots_readable q slots c :
  clean q c → ∃ c', stride_slots q slots c = Ret None c' ∧ clean q c'.
Proof.
  revert c. induction slots as [|i slots IH]; intros c Hc; simpl; [eauto|].
  destruct (cursors c !! i) as [[cur|]|] eqn:Hi; [|by apply IH..].
  destruct Hc as [Hmin Hread].
  destruct (stride_cursor_readable q i 0 cur c) as [c1 Hsc];
    [by eapply Hread| |done|].
  { pose proof (lookup_lt_Some _ _ _ Hi). unfold Cursor in *. lia. }
  rewrite Hsc. apply IH. eapply advanced_clean; [|by split].
  by eapply stride_cursor_advanced.
Qed.

Lemma search_readable fuel q found c :
  clean q c →
  search fuel q found c = NoFuel ∨ ∃ c', search fuel q found c = Ret None c'.
Proof.
  revert found c. induction fuel as [|fuel IH]; intros found c Hc; simpl.
  - case_match; eauto.
  - case_match; [|eauto].
    destruct (stride_slots_readable q (seq 0 (length (cursors c))) c Hc)
      as (c1 & Hs & Hc1).
    unfold db.stride. rewrite Hs. by apply IH.
Qed.

Lemma prime_slots_readable q slots c :
  clean q c → NoDup slots →
  (∀ i, i ∈ slots → ∃ cur, cursors c !! i = Some (Some cur)) →
  ∃ c', prime_slots q slots c = Ret None c' ∧ clean q c'.
Proof.
  intros Hc Hnd. revert c Hc.
  induction Hnd as [|i slots Hi Hnd IH]; intros c Hc Hlive; simpl; [eauto|].
  destruct (Hlive i ltac:(left)) as [cur Hcur]. rewrite Hcur.
  assert (Hrest : ∀ c1, (∀ j, j ≠ i → cursors c1 !! j = cursors c !! j) →
                        ∀ j, j ∈ slots →
                             ∃ cur, cursors c1 !! j = Some (Some cur)).
  { intros c1 Hfr j Hj. rewrite Hfr by (intros ->; done).
    apply Hlive. by right. }
  pose proof Hc as [Hmin Hread]. specialize (Hread _ _ Hcur).
  destruct cur as [|[k v] cur']; simpl.
  { apply IH.
    - eapply advanced_clean; [|done]. by eapply moved_advanced.
    - apply Hrest. intros j Hj. simpl. by rewrite list_lookup_insert_ne. }
  simpl in Hread. apply andb_prop in Hread as [Hp Hread].
  assert (Hadv : advanced c (moved i cur' c)).
  { eapply moved_advanced; [done|]. by apply suffix_cons_r. }
  assert (Hfr : ∀ j, j ≠ i → cursors (moved i cur' c) !! j = cursors c !! j).
  { intros j Hj. simpl. by rewrite list_lookup_insert_ne. }
  pose proof (lookup_lt_Some _ _ _ Hcur) as Hlt.
  destruct k as [kb|].
  - destruct (checkPair_readable q kb v i (moved i cur' c) Hp) as [c1 Hcp].
    { unfold Cursor in *. lia. }
    { simpl. rewrite length_insert. unfold Cursor in *. lia. }
    rewrite Hcp. apply IH.
    + eapply advanced_clean; [|done].
      eapply advanced_trans; [done|]. by eapply checkPair_advanced.
    + apply Hrest. intros j Hj.
      rewrite (checkPair_frame _ _ _ _ _ _ _ _ _ j Hcp Hj). by apply Hfr.
  - apply IH; [by eapply advanced_clean|]. by apply Hrest.
Qed.

(** X9. Over a store that begins a transaction and whose buckets open and
    hold readable pairs only, a query with a minimum for every mod and a
    [maxDesired] a slice can be made with gets a list and no error from
    [Run], whether or not it holds a context. *)
Theorem Run_succeeds q d t :
  db_begin d = inr t →
  store_readable q t →
  (length (mods q) ≤ length (minModValues q))%nat →
  0 ≤ maxDesired q ≤ maxSliceCap →
  ∃ ids, (Run q d).1 = Returned ids None.
Proof.
  intros Hd Hstore Hmin HK.
  pose proof (Run_body_no_fuel maxSliceCap decodeModIndexKey IndexEntry_IDs
                q t) as Hnf.
  unfold db.Run. rewrite Hd. unfold db.Run_body, db.initContext in *.
  assert (Ho : ∃ cs, open_cursors q t (mods q) = inr cs ∧
                     length cs = length (mods q) ∧
                     ∀ i s, cs !! i = Some s →
                       ∃ cur, s = Some cur ∧ forallb readable cur = true).
  { revert Hstore. unfold idx.store_readable. generalize (mods q).
    intros ms. induction ms as [|m ms IH]; intros Hms; simpl.
    - exists []. split; [done|]. split; [done|].
      intros i s Hi. by rewrite lookup_nil in Hi.
    - destruct (Hms m ltac:(left)) as (b & -> & Hb).
      destruct IH as (cs & -> & Hlen & Hcs).
      { intros m' Hm'. apply Hms. by right. }
      eexists. split; [done|]. split; [simpl; by rewrite Hlen|].
      intros [|i] s Hi; simpl in Hi; [|by eapply Hcs].
      injection Hi as <-. eexists. split; [done|].
      unfold Bucket_Cursor. rewrite forallb_forall in *.
      intros p Hp. apply Hb. by apply in_rev. }
  destruct Ho as (cs & Ho & Hlen & Hcs). rewrite Ho in *.
  destruct (Z.ltb_spec (maxDesired q) 0); [lia|].
  destruct (Z.ltb_spec maxSliceCap (maxDesired q)); [lia|]. simpl in *.
  set (c0 := mkCtx t (len (mods q)) cs ∅ []) in *.
  assert (Hc0 : clean q c0).
  { split; [simpl; lia|]. intros i cur Hi.
    destruct (Hcs _ _ Hi) as (cur' & [= <-] & Hr). done. }
  destruct (prime_slots_readable q (seq 0 (length cs)) c0 Hc0)
    as (c1 & Hpr & Hc1).
  { apply NoDup_seq. }
  { intros i Hi%elem_of_seq.
    destruct (lookup_lt_is_Some_2 cs i ltac:(lia)) as [s Hs].
    destruct (Hcs _ _ Hs) as (cur & -> & _). eauto. }
  simpl in Hpr. rewrite Hpr in *.
  destruct (search_readable (budget c1) q 0 c1 Hc1) as [Hs|[c2 Hs]].
  - by rewrite Hs in Hnf.
  - rewrite Hs. eauto.
Qed.

End Passes.

(** ** More of the re-check *)

Lemma Satisfies_check search items :
  len (Mods search) = len (MinValues search) →
  ∃ required,
    Satisfies search items = check_items required (len (Mods search)) items ∧
    (NoDup (Mods search) →
     ∀ j name min, Mods search !! j = Some name →
                   MinValues search !! j = Some min →
                   required !! name = Some min) ∧
    (∀ name min, required !! name = Some min → name ∈ Mods search).
Proof.
  intros Hlen. unfold Satisfies. case_decide; [done|].
  assert (Hlen' : length (Mods search) = length (MinValues search)).
  { unfold len in Hlen. lia. }
  destruct (fill_required_spec search 0 (Mods search) ∅ ltac:(lia))
    as (required & -> & _ & Hhas & Hdom).
  exists required. split; [done|]. split.
  - intros Hnd j name min. by apply Hhas.
  - intros name min Hr. destruct (Hdom _ _ Hr) as [|Hr']; [done|].
    by rewrite lookup_empty in Hr'.
Qed.

Lemma check_items_app required n l1 l2 :
  check_items required n (l1 ++ l2) =
    match check_items required n l1 with
    | Answer true => check_items required n l2
    | other => other
    end.
Proof.
  induction l1 as [|item l1 IH]; simpl; [done|].
  destruct (count_satisfied required (GetMods item) 0) as [k|]; [|done].
  by destruct (k <? n).
Qed.

(** X10. [Satisfies] goes through a list item by item and the first item
    that fails or panics decides: on two lists one after the other it is
    [Satisfies] on the first and, if that says yes, on the second. *)
Theorem Satisfies_app search l1 l2 :
  Satisfies search (l1 ++ l2) =
    match Satisfies search l1 with
    | Answer true => Satisfies search l2
    | other => other
    end.
Proof.
  unfold Satisfies. case_decide; [done|].
  destruct (fill_required search 0 (Mods search) ∅); [|done].
  apply check_items_app.
Qed.

Lemma count_satisfied_strip search required ms acc :
  (∀ name min, required !! name = Some min → name ∈ Mods search) →
  count_satisfied required
    (filter (λ m, Template m ∈ Mods search) ms) acc =
  count_satisfied required ms acc.
Proof.
  intros Hdom. revert acc. induction ms as [|m ms IH]; intros acc; [done|].
  destruct (decide (Template m ∈ Mods search)) as [Hin|Hout].
  - rewrite filter_cons_True by done. simpl.
    destruct (required !! Template m); [|apply IH].
    destruct (Values m); [done|]. case_match; apply IH.
  - rewrite filter_cons_False by done. simpl.
    destruct (required !! Template m) as [min|] eqn:Hr; [|apply IH].
    exfalso. apply Hout. by eapply Hdom.
Qed.

(** X11. The mods of an item that the predicate does not name play no part:
    [Satisfies] gives the same answer, or panics alike, with every such mod
    taken off every item. *)
Theorem Satisfies_strip search items :
  Satisfies search (strip search <$> items) = Satisfies search items.
Proof.
  unfold Satisfies. case_decide as Hlen; [done|].
  assert (Hlen' : length (Mods search) = length (MinValues search)).
  { unfold len in Hlen. lia. }
  destruct (fill_required_spec search 0 (Mods search) ∅ ltac:(lia))
    as (required & -> & _ & _ & Hdom).
  assert (Hdom' : ∀ name min, required !! name = Some min →
                              name ∈ Mods search).
  { intros name min Hr. destruct (Hdom _ _ Hr) as [|Hr']; [done|].
    by rewrite lookup_empty in Hr'. }
  induction items as [|item items IH]; simpl; [done|].
  rewrite (count_satisfied_strip search) by done.
  destruct (count_satisfied required (GetMods item) 0) as [k|]; [|done].
  case_match; [done|apply IH].
Qed.

Lemma count_satisfied_total required ms acc :
  (∀ m, m ∈ ms → is_Some (required !! Template m) → Values m ≠ []) →
  is_Some (count_satisfied required ms acc).
Proof.
  revert acc. induction ms as [|m ms IH]; intros acc Hval; simpl; [eauto|].
  assert (Hval' : ∀ m', m' ∈ ms → is_Some (required !! Template m') →
                         Values m' ≠ []).
  { intros m' Hm'. apply Hval. by right. }
  destruct (required !! Template m) as [min|] eqn:Hr; [|by apply IH].
  destruct (Values m) as [|primary rest] eqn:Hvs.
  { exfalso. apply (Hval m); [by left|by rewrite Hr|done]. }
  case_match; by apply IH.
Qed.

(** X12. With as many mods as minima, [Satisfies] gives an answer, and does
    not panic, on every list in which no mod instance named by the
    predicate comes without a value. *)
Theorem Satisfies_answers search items :
  len (Mods search) = len (MinValues search) →
  (∀ item, item ∈ items → valued search item) →
  ∃ b, Satisfies search items = Answer b.
Proof.
  intros Hlen Hval.
  destruct (Satisfies_check search items Hlen) as (required & -> & _ & Hdom).
  induction items as [|item items IH]; simpl; [eauto|].
  destruct (count_satisfied_total required (GetMods item) 0) as [k ->].
  { intros m Hm [min Hr]. apply (Hval item); [by left|done|].
    by eapply Hdom. }
  case_match; [eauto|]. apply IH. intros item' Hi. apply Hval. by right.
Qed.

(** X13. [Satisfies] turns down no list it should accept: when the mods of
    the predicate are pairwise different, no instance of them comes without
    a value, and every item has, for each of them, an instance whose
    primary value reaches the minimum, the answer is yes, however often an
    item repeats a mod. *)
Theorem Satisfies_accepts search items :
  len (Mods search) = len (MinValues search) →
  NoDup (Mods search) →
  (∀ item, item ∈ items →
     valued search item ∧ len (GetMods item) < 2 ^ 63) →
  all_meet search items = true →
  Satisfies search items = Answer true.
Proof.
  intros Hlen Hnd Hitems Hall.
  destruct (Satisfies_check search items Hlen)
    as (required & -> & Hhas & Hdom).
  specialize (Hhas Hnd).
  assert (Hlen' : length (Mods search) = length (MinValues search)).
  { unfold len in Hlen. lia. }
  induction items as [|item items IH]; simpl; [done|].
  simpl in Hall. apply andb_prop in Hall as [Hmeets Hall].
  destruct (Hitems item ltac:(left)) as [Hval Hfit].
  pose proof (length_filter (λ m, counts required m = true) (GetMods item))
    as Hfl.
  rewrite count_satisfied_spec; [|done|unfold len in Hfit; lia|].
  - apply (meets_counted search required Hlen' Hhas) in Hmeets.
    pose proof (NoDup_incl_length (proj1 (NoDup_ListNoDup _) Hnd) Hmeets)
      as Hge.
    unfold counted in Hge. rewrite length_fmap in Hge.
    destruct (Z.ltb_spec
                (0 + Z.of_nat (length (filter (λ m, counts required m = true)
                                              (GetMods item))))
                (len (Mods search))) as [Hlt|_].
    { unfold len in Hlt. lia. }
    apply IH; [|done]. intros item' Hi. apply Hitems. by right.
  - intros m Hm [min Hr]. apply Hval; [done|]. by eapply Hdom.
Qed.

Lemma fill_required_lower search search' i ms r r' r1 :
  Forall2 Z.le (MinValues search') (MinValues search) →
  (∀ name, option_Forall2 Z.le (r' !! name) (r !! name)) →
  fill_required search i ms r = Some r1 →
  ∃ r1', fill_required search' i ms r' = Some r1' ∧
         ∀ name, option_Forall2 Z.le (r1' !! name) (r1 !! name).
Proof.
  intros Hmins. revert i r r'.
  induction ms as [|m ms IH]; intros i r r' Hlow; simpl.
  - intros [= <-]. eauto.
  - destruct (MinValues search !! i) as [v|] eqn:Hv; [|done].
    destruct (Forall2_lookup_r _ _ _ _ _ Hmins Hv) as (v' & -> & Hle).
    apply IH. intros name. rewrite !lookup_insert.
    case_decide; [by constructor|apply Hlow].
Qed.

Lemma count_satisfied_lower required required' ms acc acc' k :
  (∀ name, option_Forall2 Z.le (required' !! name) (required !! name)) →
  0 ≤ acc ≤ acc' → acc' + len ms < 2 ^ 63 →
  count_satisfied required ms acc = Some k →
  ∃ k', count_satisfied required' ms acc' = Some k' ∧ k ≤ k'.
Proof.
  intros Hlow. revert acc acc'.
  induction ms as [|m ms IH]; intros acc acc' Hacc Hfit; simpl.
  - intros [= <-]. exists acc'. split; [done|lia].
  - unfold len in *. simpl in Hfit.
    destruct (Hlow (Template m)) as [min' min Hle|]; [|apply IH; lia].
    destruct (Values m) as [|primary rest]; [done|].
    destruct (Z.leb_spec min primary); destruct (Z.leb_spec min' primary);
      try lia.
    + rewrite !int_wrap_id by lia. apply IH; lia.
    + rewrite int_wrap_id by lia. apply IH; lia.
    + apply IH; lia.
Qed.

(** X14. Lowering minima never turns a yes into a no: a list that
    [Satisfies] accepts is accepted under the same mods with minima that
    are, position by position, no higher. *)
Theorem Satisfies_lower_minimum search search' items :
  Mods search' = Mods search →
  Forall2 Z.le (MinValues search') (MinValues search) →
  (∀ item, item ∈ items → len (GetMods item) < 2 ^ 63) →
  Satisfies search items = Answer true →
  Satisfies search' items = Answer true.
Proof.
  intros Hmods Hmins Hfit. unfold Satisfies. rewrite Hmods.
  pose proof (Forall2_length _ _ _ Hmins) as Hlen. unfold len. rewrite Hlen.
  case_decide; [done|].
  destruct (fill_required search 0 (Mods search) ∅) as [required|] eqn:Hreq;
    [|done].
  destruct (fill_required_lower search search' 0 (Mods search) ∅ ∅ required
              Hmins) as (required' & -> & Hlow); [|done|].
  { intros name. rewrite lookup_empty. constructor. }
  induction items as [|item items IH]; simpl; [done|].
  destruct (count_satisfied required (GetMods item) 0) as [k|] eqn:Hk; [|done].
  destruct (count_satisfied_lower required required' (GetMods item) 0 0 k Hlow)
    as (k' & -> & Hle); [lia| |done|].
  { specialize (Hfit item ltac:(left)). lia. }
  fold (len (Mods search)).
  destruct (Z.ltb_spec k (len (Mods search))); [done|].
  destruct (Z.ltb_spec k' (len (Mods search))); [lia|].
  apply IH. intros item' Hi. apply Hfit. by right.
Qed.

(** ** Order *)

Section Order.

Variable maxSliceCap : Z.
Variable decodeModIndexKey : bytes → error + list Z.
Variable IndexEntry_IDs : bytes → list ID.

Local Abbreviation ForEachID := (db.ForEachID IndexEntry_IDs).
Local Abbreviation checkPair := (db.checkPair decodeModIndexKey IndexEntry_IDs).
Local Abbreviation stride_cursor :=
  (db.stride_cursor decodeModIndexKey IndexEntry_IDs).
Local Abbreviation stride_slots :=
  (db.stride_slots decodeModIndexKey IndexEntry_IDs).
Local Abbreviation stride := (db.stride decodeModIndexKey IndexEntry_IDs).
Local Abbreviation prime_slots :=
  (db.prime_slots decodeModIndexKey IndexEntry_IDs).
Local Abbreviation search := (db.search decodeModIndexKey IndexEntry_IDs).
Local Abbreviation initContext := (db.initContext maxSliceCap).
Local Abbreviation Run_body :=
  (db.Run_body maxSliceCap decodeModIndexKey IndexEntry_IDs).
Local Abbreviation Run := (db.Run maxSliceCap decodeModIndexKey IndexEntry_IDs).
Local Abbreviation primary_of := (idx.primary_of decodeModIndexKey).
Local Abbreviation qualifies := (idx.qualifies decodeModIndexKey).
Local Abbreviation stops := (idx.stops decodeModIndexKey).
Local Abbreviation settled := (idx.settled decodeModIndexKey).
Local Abbreviation ascending := (idx.ascending decodeModIndexKey).
Local Abbreviation store_ascending := (idx.store_ascending decodeModIndexKey).
Local Abbreviation listed_under :=
  (idx.listed_under decodeModIndexKey IndexEntry_IDs).
Local Abbreviation accepted := (idx.accepted decodeModIndexKey).
Local Abbreviation read_to := (idx.read_to decodeModIndexKey IndexEntry_IDs).

Lemma settled_snoc minValue l p :
  settled minValue l = true →
  (∀ p0, p0 ∈ l → stops minValue p0 = true → qualifies minValue p = false) →
  settled minValue (l ++ [p]) = true.
Proof.
  induction l as [|a l IH]; simpl.
  - intros _ _. by destruct (stops minValue p).
  - intros [Ha Hl]%andb_prop Hall. apply andb_true_intro. split.
    + destruct (stops minValue a) eqn:Hstop; [|done].
      rewrite forallb_app, Ha. simpl.
      rewrite (Hall a) by (done || by left). done.
    + apply IH; [done|]. intros p0 Hp0. apply Hall. by right.
Qed.

(** Buckets whose keys ascend by primary value are settled, whatever the
    minimum. *)
Lemma ascending_settled minValue b :
  ascending b → settled minValue (Bucket_Cursor b) = true.
Proof.
  unfold Bucket_Cursor. induction 1 as [|p b Hsorted IH Hp]; simpl; [done|].
  apply settled_snoc; [done|].
  intros p0 Hp0 Hstop.
  apply list_elem_of_In, in_rev, list_elem_of_In in Hp0.
  rewrite Forall_forall in Hp.
  destruct (Hp _ Hp0) as (x & x' & Hx & Hx' & Hle).
  unfold idx.stops in Hstop. rewrite Hx' in Hstop.
  assert (x' < minValue) as Hlt.
  { destruct p0 as [[?|] [?|]]; by apply Z.ltb_lt. }
  unfold idx.qualifies. rewrite Hx. apply Z.leb_gt. lia.
Qed.

(** X15. Over buckets whose keys all decode and ascend by primary value,
    a [Run] that returns, without an error, fewer IDs than [maxDesired] has
    missed nothing: every ID listed in the bucket of every queried mod
    (there being at least one) under a key that reaches the minimum of that
    mod is in the list. *)
Theorem Run_result_complete q d t ids id :
  ctx q = None →
  len (mods q) < 2 ^ 63 →
  db_begin d = inr t →
  store_ascending q t →
  (Run q d).1 = Returned ids None →
  len ids < maxDesired q →
  (0 < length (mods q))%nat →
  (∀ i, (i < length (mods q))%nat → listed_under q t i id) →
  id ∈ ids.
Proof.
  intros Hctx Hn Hd Hasc. eapply Run_complete_settled; try done.
  intros i m b Hm Hb. unfold idx.slot_settled.
  destruct (minModValues q !! i); [|done].
  apply ascending_settled. eapply Hasc; [|done].
  by eapply list_elem_of_lookup_2.
Qed.

(** *** The result only grows at its end *)

Lemma registerID_prefix q id c :
  result c `prefix_of` result (registerID q id c).
Proof. unfold registerID. case_match; simpl; [by apply prefix_app_r|done]. Qed.

Lemma register_all_prefix q l c :
  result c `prefix_of` result (fold_left (λ c id, registerID q id c) l c).
Proof.
  revert c. induction l as [|id l IH]; intros c; simpl; [done|].
  etrans; [apply (registerID_prefix q id)|apply IH].
Qed.

Lemma checkPair_prefix q k v i c r c' :
  checkPair q k v i c = Ret r c' → result c `prefix_of` result c'.
Proof.
  intros H. apply checkPair_cases in H as [(e & _ & ->)|H]; [done|].
  destruct H as (? & ? & ? & _ & _ & _ & [[_ ->]|[_ Hrm]]).
  - apply register_all_prefix.
  - apply removeCursor_Ret in Hrm as (_ & _ & _ & _ & ->). done.
Qed.

Lemma stride_cursor_prefix q i index cur c r c' :
  stride_cursor q i index cur c = Ret r c' → result c `prefix_of` result c'.
Proof.
  revert index c. induction cur as [|[k v] cur IH]; intros index c; simpl.
  - case_match; [|by intros [= _ <-]].
    destruct (removeCursor i c) as [[] c1| |] eqn:Hrm; [|done..].
    intros [= _ <-]. by apply removeCursor_Ret in Hrm as (_ & _ & _ & _ & ->).
  - case_match; [|by intros [= _ <-]].
    destruct k as [kb|].
    + destruct (checkPair q kb (content v) i (moved i cur c))
        as [[n [e|]] c1| |] eqn:Hcp; [| |done..].
      * intros [= _ <-]. by apply checkPair_prefix in Hcp.
      * pose proof (checkPair_count_zero _ _ _ _ _ _ _ _ _ _ Hcp) as ->.
        simpl. intros [= _ <-]. by apply checkPair_prefix in Hcp.
    + destruct v as [vb|].
      * intros Hs. by apply IH in Hs.
      * destruct (removeCursor i (moved i cur c)) as [[] c1| |] eqn:Hrm;
          [|done..].
        intros [= _ <-].
        by apply removeCursor_Ret in Hrm as (_ & _ & _ & _ & ->).
Qed.

Lemma stride_slots_prefix q slots c r c' :
  stride_slots q slots c = Ret r c' → result c `prefix_of` result c'.
Proof.
  revert c. induction slots as [|i slots IH]; intros c; simpl.
  - by intros [= _ <-].
  - destruct (cursors c !! i) as [[cur|]|]; [|apply IH..].
    destruct (stride_cursor q i 0 cur c) as [[e|] c1| |] eqn:Hsc; [| |done..].
    + intros [= _ <-]. by eapply stride_cursor_prefix.
    + intros Hs. etrans; [by eapply stride_cursor_prefix|by apply IH].
Qed.

(** X16. The search never takes an ID out of the result and never puts one
    before those already there: the result it starts from is the head of
    the result it ends with, errors included. *)
Theorem search_keeps_result fuel q found c r c' :
  search fuel q found c = Ret r c' → result c `prefix_of` result c'.
Proof.
  revert found c. induction fuel as [|fuel IH]; intros found c; simpl.
  - case_match; [done|]. by intros [= _ <-].
  - case_match; [|by intros [= _ <-]].
    destruct (stride q c) as [[e|] c1| |] eqn:Hst; [| |done..].
    + intros [= _ <-]. by eapply stride_slots_prefix.
    + intros Hs. etrans; [by eapply stride_slots_prefix|by eapply IH].
Qed.

End Order.

(** ** A query with one mod *)

Section Single.

Variable maxSliceCap : Z.
Variable decodeModIndexKey : bytes → error + list Z.
Variable IndexEntry_IDs : bytes → list ID.

Local Abbreviation ForEachID := (db.ForEachID IndexEntry_IDs).
Local Abbreviation checkPair := (db.checkPair decodeModIndexKey IndexEntry_IDs).
Local Abbreviation stride_cursor :=
  (db.stride_cursor decodeModIndexKey IndexEntry_IDs).
Local Abbreviation stride_slots :=
  (db.stride_slots decodeModIndexKey IndexEntry_IDs).
Local Abbreviation stride := (db.stride decodeModIndexKey IndexEntry_IDs).
Local Abbreviation prime_slots :=
  (db.prime_slots decodeModIndexKey IndexEntry_IDs).
Local Abbreviation search := (db.search decodeModIndexKey IndexEntry_IDs).
Local Abbreviation initContext := (db.initContext maxSliceCap).
Local Abbreviation Run_body :=
  (db.Run_body maxSliceCap decodeModIndexKey IndexEntry_IDs).
Local Abbreviation Run := (db.Run maxSliceCap decodeModIndexKey IndexEntry_IDs).
Local Abbreviation listed := (acc.listed IndexEntry_IDs).
Local Abbreviation accepted := (idx.accepted decodeModIndexKey).
Local Abbreviation read_to := (idx.read_to decodeModIndexKey IndexEntry_IDs).

Lemma registerID_single q id c :
  len (mods q) = 1 → set c = ∅ →
  result (registerID q id c) = result c ++ [id] ∧
  set (registerID q id c) = ∅.
Proof.
  intros Hn Hset. unfold registerID. rewrite Hset, lookup_empty, Hn. simpl.
  rewrite int_wrap_id by lia. simpl.
  split; [done|]. by rewrite delete_insert_eq, delete_empty.
Qed.

Lemma register_all_single q l c :
  len (mods q) = 1 → set c = ∅ →
  result (fold_left (λ c id, registerID q id c) l c) = result c ++ l ∧
  set (fold_left (λ c id, registerID q id c) l c) = ∅.
Proof.
  intros Hn. revert c. induction l as [|id l IH]; intros c Hset; simpl.
  - by rewrite app_nil_r.
  - destruct (registerID_single q id c Hn Hset) as [Hres Hset1].
    destruct (IH _ Hset1) as [-> ->]. rewrite Hres.
    by rewrite <- app_assoc.
Qed.

(** A pair read into the only slot: its IDs go to the end of the result,
    or nothing changes but the slot or the error. *)
Lemma checkPair_single q kb v c r c' :
  len (mods q) = 1 → set c = ∅ → (0 < length (cursors c))%nat →
  checkPair q kb (content v) 0 c = Ret r c' →
  set c' = ∅ ∧
  ((r.2 = None ∧ accepted q (Some kb, v) ∧
    result c' = result c ++ IndexEntry_IDs (content v) ∧
    cursors c' = cursors c) ∨
   (result c' = result c ∧
    (is_Some r.2 ∨ cursors c' !! 0%nat = Some None))).
Proof.
  intros Hn Hset Hlen H. apply checkPair_cases in H as [(e & -> & ->)|H].
  { split; [done|]. right. split; [done|]. left. by eexists. }
  destruct H as (primary & rest & minValue & Hk & Hmin & -> & H).
  destruct H as [[Hle ->]|[Hlt Hrm]].
  - destruct (register_all_single q (IndexEntry_IDs (content v)) c Hn Hset)
      as [Hres Hset'].
    split; [done|]. left. split; [done|]. split.
    + exists minValue. split; [done|].
      unfold idx.qualifies, idx.primary_of. simpl. rewrite Hk.
      by apply Z.leb_le.
    + split; [done|].
      by destruct (register_all_cursors q (IndexEntry_IDs (content v)) c).
  - apply removeCursor_Ret in Hrm as (_ & Hcs & _ & Hset' & Hres).
    split; [congruence|]. right. split; [done|]. right.
    rewrite Hcs. by apply list_lookup_insert_eq.
Qed.

Lemma read_to_next q cur0 j p c c' :
  cur0 !! j = Some p →
  read_to q cur0 j c →
  set c' = ∅ →
  (is_Some p.1 → accepted q p) →
  result c' = result c ++ match p.1 with
                          | Some _ => IndexEntry_IDs (content p.2)
                          | None => []
                          end →
  read_to q cur0 (S j) c'.
Proof.
  intros Hj (Hres & _ & Hacc) Hset Hp Hres'.
  unfold idx.read_to. unfold Cursor, pair in *.
  rewrite (take_S_r _ _ _ Hj). split; [|split; [done|]].
  - rewrite flat_map_app. simpl. rewrite app_nil_r. congruence.
  - intros p0 [Hp0|Hp0]%elem_of_app; [auto|].
    apply list_elem_of_singleton in Hp0. by subst p0.
Qed.

Lemma read_to_same q cur0 j c c' :
  read_to q cur0 j c → set c' = ∅ → result c' = result c →
  read_to q cur0 j c'.
Proof. intros (Hres & _ & Hacc) Hset Hres'. split; [congruence|done]. Qed.

Lemma stride_cursor_single q index cur0 j cur c r c' :
  len (mods q) = 1 →
  read_to q cur0 j c → cur = drop j cur0 →
  cursors c !! 0%nat = Some (Some cur) →
  stride_cursor q 0 index cur c = Ret r c' →
  ∃ j', read_to q cur0 j' c' ∧
        (r = None → ∀ cur', cursors c' !! 0%nat = Some (Some cur') →
                            cur' = drop j' cur0).
Proof.
  intros Hn. revert index j c.
  induction cur as [|[k v] cur IH]; intros index j c Hread Hcur Hi; simpl.
  - case_match.
    + destruct (removeCursor 0 c) as [[] c1| |] eqn:Hrm; [|done..].
      intros [= <- <-].
      apply removeCursor_Ret in Hrm as (Hlt & Hcs & _ & Hset & Hres).
      exists j. split.
      * eapply read_to_same; [done| |done]. rewrite Hset. apply Hread.
      * intros _ cur'. rewrite Hcs, list_lookup_insert_eq by done. done.
    + intros [= <- <-]. exists j. split; [done|].
      intros _ cur'. unfold Cursor in *. rewrite Hi. intros [= <-]. done.
  - assert (Hj : cur0 !! j = Some (k, v)).
    { pose proof (lookup_drop cur0 j 0) as Hd. rewrite <- Hcur in Hd.
      rewrite Nat.add_0_r in Hd. symmetry. exact Hd. }
    assert (Hcur' : cur = drop (S j) cur0).
    { pose proof (drop_S _ _ _ Hj) as Hd. unfold Cursor, pair in *.
      congruence. }
    assert (Hi1 : cursors (moved 0 cur c) !! 0%nat = Some (Some cur)).
    { simpl. apply list_lookup_insert_eq. by eapply lookup_lt_Some. }
    assert (Hlen1 : (0 < length (cursors (moved 0 cur c)))%nat).
    { by eapply lookup_lt_Some. }
    case_match.
    2:{ intros [= <- <-]. exists j. split; [done|].
        intros _ cur'. unfold Cursor in *. rewrite Hi. intros [= <-]. done. }
    destruct k as [kb|].
    + destruct (checkPair q kb (content v) 0 (moved 0 cur c))
        as [[n e] c1| |] eqn:Hcp; [|done..].
      pose proof (checkPair_count_zero _ _ _ _ _ _ _ _ _ _ Hcp) as ->.
      destruct (checkPair_single q kb v (moved 0 cur c) _ _ Hn
                  (proj1 (proj2 Hread)) Hlen1 Hcp)
        as [Hset [(He & Hacc & Hres & Hcs)|(Hres & Hor)]].
      * simpl in He. subst e. simpl. intros [= <- <-].
        exists (S j). split.
        -- eapply (read_to_next q cur0 j (Some kb, v) c); done.
        -- intros _ cur'. rewrite Hcs. unfold Cursor in *. rewrite Hi1.
           by intros [= <-].
      * assert (Hsame : read_to q cur0 j c1).
        { by eapply (read_to_same q cur0 j c). }
        destruct e as [e|]; simpl.
        -- intros [= <- <-]. exists j. split; [done|]. done.
        -- intros [= <- <-]. exists j. split; [done|].
           intros _ cur'. destruct Hor as [[? [=]]|Hnil].
           unfold Cursor in *. by rewrite Hnil.
    + destruct v as [vb|].
      * apply (IH index (S j)); [|done..].
        eapply (read_to_next q cur0 j (None, Some vb) c); try done.
        -- apply Hread.
        -- by intros [? [=]].
        -- simpl. by rewrite app_nil_r.
      * destruct (removeCursor 0 (moved 0 cur c)) as [[] c1| |] eqn:Hrm;
          [|done..].
        intros [= <- <-].
        apply removeCursor_Ret in Hrm as (Hlt & Hcs & _ & Hset & Hres).
        exists j. split.
        -- eapply (read_to_same q cur0 j c); [done| |done].
           rewrite Hset. apply Hread.
        -- intros _ cur'. rewrite Hcs, list_lookup_insert_eq by done. done.
Qed.

Lemma stride_single q cur0 j c r c' :
  len (mods q) = 1 → length (cursors c) = 1%nat →
  read_to q cur0 j c →
  (∀ cur, cursors c !! 0%nat = Some (Some cur) → cur = drop j cur0) →
  stride q c = Ret r c' →
  ∃ j', read_to q cur0 j' c' ∧
        (r = None → ∀ cur', cursors c' !! 0%nat = Some (Some cur') →
                            cur' = drop j' cur0).
Proof.
  intros Hn Hlen Hread Hslot. unfold db.stride. rewrite Hlen. simpl.
  destruct (cursors c !! 0%nat) as [[cur|]|] eqn:Hi.
  - destruct (stride_cursor q 0 0 cur c) as [[e|] c1| |] eqn:Hsc;
      [| |done..]; intros [= <- <-];
      eapply (stride_cursor_single q 0 cur0 j cur c); try done;
      by apply Hslot.
  - intros [= <- <-]. exists j. split; [done|].
    intros _ cur'. unfold Cursor in *. by rewrite Hi.
  - intros [= <- <-]. exists j. split; [done|].
    intros _ cur'. unfold Cursor in *. by rewrite Hi.
Qed.

Lemma search_single fuel q cur0 j found c r c' :
  len (mods q) = 1 → length (cursors c) = 1%nat →
  read_to q cur0 j c →
  (∀ cur, cursors c !! 0%nat = Some (Some cur) → cur = drop j cur0) →
  search fuel q found c = Ret r c' →
  ∃ j', read_to q cur0 j' c'.
Proof.
  intros Hn. revert j found c.
  induction fuel as [|fuel IH]; intros j found c Hlen Hread Hslot; simpl.
  - case_match; [done|]. intros [= _ <-]. eauto.
  - case_match; [|intros [= _ <-]; eauto].
    destruct (stride q c) as [[e|] c1| |] eqn:Hst; [| |done..].
    + intros [= _ <-].
      destruct (stride_single q cur0 j c _ _ Hn Hlen Hread Hslot Hst)
        as (j' & Hread' & _). eauto.
    + destruct (stride_single q cur0 j c _ _ Hn Hlen Hread Hslot Hst)
        as (j' & Hread' & Hslot').
      apply (IH j'); [|done|by apply Hslot'].
      destruct (stride_slots_advanced _ _ _ _ _ _ _ Hst) as [-> _]. done.
Qed.

(** X17. A query with one mod gets back the IDs of its bucket from the tail
    down, as far as it has read: the list is that of the first pairs a
    descending cursor hands out, entry after entry and in the order of each
    entry, and every key among those pairs reaches the minimum. *)
Theorem Run_single_mod q d t m b ids err :
  mods q = [m] →
  ctx q = None →
  db_begin d = inr t →
  getItemModIndexBucketRO (rootType q) (rootFlavor q) m (league q) t = inr b →
  (Run q d).1 = Returned ids err →
  ∃ j, ids = listed (take j (Bucket_Cursor b)) ∧
       ∀ p, p ∈ take j (Bucket_Cursor b) → is_Some p.1 → accepted q p.
Proof.
  intros Hmods Hctx Hd Hb HR.
  apply (Run_Returned maxSliceCap decodeModIndexKey IndexEntry_IDs
           q d t ids err Hctx Hd) in HR as (c & HR & <-).
  apply Run_body_Ret in HR as (c0 & Hin & HR).
  apply initContext_Ok in Hin as (Hop & _ & Hset0 & Hres0 & _).
  rewrite Hmods in Hop. simpl in Hop. rewrite Hb in Hop.
  injection Hop as Hcs0. symmetry in Hcs0.
  set (cur0 := Bucket_Cursor b) in *.
  assert (Hn : len (mods q) = 1) by by rewrite Hmods.
  assert (Hread0 : read_to q cur0 0 c0).
  { split; [done|]. split; [done|]. by intros p ?%elem_of_nil. }
  assert (Hend : ∀ j c, read_to q cur0 j c →
                        ∃ j, result c = listed (take j cur0) ∧
                             ∀ p, p ∈ take j cur0 → is_Some p.1 →
                                  accepted q p).
  { intros j c2 (Hres & _ & Hacc). exists j. split; done. }
  assert (Hprime : ∀ r c1,
            prime_slots q [0%nat] c0 = Ret r c1 →
            ∃ j, read_to q cur0 j c1 ∧ length (cursors c1) = 1%nat ∧
                 (r = None → ∀ cur, cursors c1 !! 0%nat = Some (Some cur) →
                                    cur = drop j cur0)).
  { assert (Hmv : ∀ cur, cursors (moved 0 cur c0) = [Some cur]).
    { intros cur. simpl. by rewrite Hcs0. }
    clearbody cur0. intros r c1. simpl. rewrite Hcs0. simpl.
    destruct cur0 as [|[k v] cur]; simpl.
    - intros [= <- <-]. exists 0%nat. split; [done|].
      split; [by rewrite Hmv|].
      intros _ cur'. rewrite Hmv. by intros [= <-].
    - assert (Hread1 : read_to q ((k, v) :: cur) 0 (moved 0 cur c0)) by done.
      destruct k as [kb|].
      + destruct (checkPair q kb (content v) 0 (moved 0 cur c0))
          as [[n e] c2| |] eqn:Hcp; [|done..].
        pose proof (checkPair_advanced _ _ _ _ _ _ _ _ _ Hcp) as [Hlen _].
        rewrite Hmv in Hlen. simpl in Hlen.
        destruct (checkPair_single q kb v (moved 0 cur c0) _ _ Hn Hset0
                    ltac:(rewrite Hmv; simpl; lia) Hcp)
          as [Hset [(He & Hacc & Hres & Hcs)|(Hres & Hor)]].
        * simpl in He. subst e. intros [= <- <-]. exists 1%nat.
          split; [|split; [done|]].
          -- eapply (read_to_next q _ 0 (Some kb, v) (moved 0 cur c0)); done.
          -- intros _ cur'. rewrite Hcs, Hmv. by intros [= <-].
        * assert (Hsame : read_to q ((Some kb, v) :: cur) 0 c2).
          { by eapply read_to_same. }
          destruct e as [e|]; intros [= <- <-]; exists 0%nat;
            (split; [done|]; split; [done|]); [done|].
          intros _ cur'. destruct Hor as [[? [=]]|Hnil].
          unfold Cursor in *. by rewrite Hnil.
      + intros [= <- <-]. exists 1%nat. split; [|split; [by rewrite Hmv|]].
        * eapply (read_to_next q _ 0 (None, v) (moved 0 cur c0)); try done.
          -- by intros [? [=]].
          -- simpl. by rewrite app_nil_r.
        * intros _ cur'. rewrite Hmv. by intros [= <-]. }
  rewrite Hcs0 in HR. change (seq 0 (length [Some cur0])) with [0%nat] in HR.
  destruct HR as [[_ Hpr]|(c1 & Hpr & Hse)].
  - destruct (Hprime _ _ Hpr) as (j & Hread & _). eauto.
  - destruct (Hprime _ _ Hpr) as (j & Hread & Hlen & Hslot).
    destruct (search_single _ q cur0 j _ _ _ _ Hn Hlen Hread
                (Hslot eq_refl) Hse) as [j' Hread']. eauto.
Qed.

End Single.

(** ** A predicate that names a mod twice *)

Lemma remove_dups_length_le (l : list string) :
  (length (remove_dups l) ≤ length l)%nat.
Proof.
  induction l as [|x l IH]; simpl; [done|]. case_decide; simpl; lia.
Qed.

Lemma remove_dups_shorter (l : list string) :
  ¬ NoDup l → (length (remove_dups l) < length l)%nat.
Proof.
  induction l as [|x l IH]; simpl; intros Hnd.
  - destruct Hnd. constructor.
  - pose proof (remove_dups_length_le l). case_decide; simpl; [lia|].
    apply Nat.succ_lt_mono in IH; [lia|].
    intros Hl. apply Hnd. by constructor.
Qed.

Lemma counted_few search required item :
  (∀ name min, required !! name = Some min → name ∈ Mods search) →
  plain_for search item →
  (length (filter (λ m, counts required m = true) (GetMods item))
     ≤ length (remove_dups (Mods search)))%nat.
Proof.
  intros Hdom [Hnd _].
  rewrite <- (length_fmap Template).
  apply submseteq_length, NoDup_submseteq.
  - eapply sublist_NoDup; [exact Hnd|]. apply fmap_sublist.
    rewrite <- (list_filter_iff
      (λ m, counts required m = true ∧ Template m ∈ Mods search)
      (λ m, counts required m = true)).
    + rewrite <- list_filter_filter. apply sublist_filter.
    + intros m. split; [tauto|]. intros Hc. split; [done|].
      unfold counts in Hc. destruct (required !! Template m) eqn:Hr; [|done].
      by eapply Hdom.
  - intros name Hn. apply elem_of_remove_dups.
    apply list_elem_of_fmap in Hn as (m & -> & Hm).
    apply list_elem_of_filter in Hm as [Hc _].
    unfold counts in Hc. destruct (required !! Template m) eqn:Hr; [|done].
    by eapply Hdom.
Qed.

(** X18. A predicate that names a mod twice asks for more than its map of
    minima holds: [Satisfies] says no to every list that begins with an
    item carrying each mod of the predicate at most once and never without
    a value, however high the values of that item. *)
Theorem Satisfies_repeated_mod search item items :
  len (Mods search) = len (MinValues search) →
  len (Mods search) < 2 ^ 63 →
  ¬ NoDup (Mods search) →
  plain_for search item →
  Satisfies search (item :: items) = Answer false.
Proof.
  intros Hlen Hfit Hdup Hplain.
  destruct (Satisfies_check search (item :: items) Hlen)
    as (required & -> & _ & Hdom).
  pose proof (counted_few search required item Hdom Hplain) as Hfew.
  pose proof (remove_dups_shorter _ Hdup) as Hshort.
  simpl. unfold len in *.
  rewrite count_satisfied_spec; [|lia|lia|].
  - case_match eqn:Hlt; [done|]. apply Z.ltb_ge in Hlt. lia.
  - intros m Hm [min Hr]. apply Hplain; [done|]. by eapply Hdom.
Qed.

(** ** More instances *)

(** Item 1 of [speed_and_fire] over [two_buckets] is listed under a key
    that reaches the minimum in the bucket of movement speed. *)
Lemma Run_result_listed_witness :
  idx.listed_under sample.decode sample.ids sample.speed_and_fire
                   sample.two_buckets_tx 0 1%N.
Proof.
  apply (Run_result_listed sample.max_cap sample.decode sample.ids
           sample.speed_and_fire sample.two_buckets sample.two_buckets_tx
           [2%N; 1%N] None 1%N 0%nat).
  - reflexivity.
  - vm_compute. reflexivity.
  - reflexivity.
  - intros m b Hm Hb.
    repeat (apply elem_of_cons in Hm as [->|Hm]);
      [| |by apply elem_of_nil in Hm];
      vm_compute in Hb; injection Hb as <-;
      apply (bool_decide_unpack _); vm_compute; exact I.
  - vm_compute. reflexivity.
  - apply (bool_decide_unpack _). vm_compute. exact I.
  - simpl. lia.
Defined.

(** Item 3 is left in the map with a count of 1, below the two mods. *)
Lemma Run_body_counts_in_range_witness :
  1 ≤ 1 < len (mods sample.speed_and_fire).
Proof.
  apply (Run_body_counts_in_range sample.max_cap sample.decode sample.ids
           sample.speed_and_fire sample.two_buckets_tx None sample.both_read
           3%N 1).
  - vm_compute. reflexivity.
  - vm_compute. reflexivity.
  - vm_compute. reflexivity.
Defined.

(** Both cursors of [speed_and_fire] are gone at the end, and counted so. *)
Lemma Run_body_validCursors_witness :
  validCursors sample.both_read = Z.of_nat (live sample.both_read) ∧
  length (cursors sample.both_read) = length (mods sample.speed_and_fire).
Proof.
  apply (Run_body_validCursors sample.max_cap sample.decode sample.ids
           sample.speed_and_fire sample.two_buckets_tx None).
  - vm_compute. reflexivity.
  - vm_compute. reflexivity.
Defined.

(** With one item wanted from [four_keys], the cursor ends two keys down
    the bucket it was opened on. *)
Lemma Run_body_cursor_in_own_bucket_witness :
  ∃ m b, mods sample.one_wanted !! 0%nat = Some m ∧
         getItemModIndexBucketRO (rootType sample.one_wanted)
           (rootFlavor sample.one_wanted) m (league sample.one_wanted)
           sample.four_keys_tx = inr b ∧
         rev (take 2 sample.four_keys) `suffix_of` Bucket_Cursor b.
Proof.
  apply (Run_body_cursor_in_own_bucket sample.max_cap sample.decode
           sample.ids sample.one_wanted sample.four_keys_tx None
           sample.two_read 0%nat (rev (take 2 sample.four_keys))).
  - vm_compute. reflexivity.
  - reflexivity.
Defined.

(** Two items found where four were wanted: no cursor is left. *)
Lemma Run_body_short_of_maxDesired_witness :
  validCursors sample.both_read = 0 ∧
  Forall (λ s, s = None) (cursors sample.both_read).
Proof.
  apply (Run_body_short_of_maxDesired sample.max_cap sample.decode sample.ids
           sample.speed_and_fire sample.two_buckets_tx sample.both_read).
  - vm_compute. reflexivity.
  - vm_compute. reflexivity.
  - vm_compute. reflexivity.
Defined.

(** A pass from [primed] moves the one cursor over one key. *)
Lemma stride_one_keyed_pair_per_cursor_witness :
  cursors sample.two_read !! 0%nat = Some None ∨
  ∃ skipped p cur',
    rev (take 3 sample.four_keys) = skipped ++ p :: cur' ∧
    forallb nested skipped = true ∧ is_Some p.1 ∧
    cursors sample.two_read !! 0%nat = Some (Some cur').
Proof.
  apply (stride_one_keyed_pair_per_cursor sample.decode sample.ids
           sample.forty_wanted sample.primed sample.two_read 0%nat
           (rev (take 3 sample.four_keys))).
  - vm_compute. reflexivity.
  - reflexivity.
Defined.

(** The key of [odd_key] does not decode, and [Run] says so. *)
Lemma Run_error_is_key_error_witness :
  ∃ e0, idx.key_error sample.decode e0 ∧
        (Wrap (Wrap (External 0) "failed to decode mod index key")
              "failed to check value in bucekt"
           = Wrap e0 "failed to check value in bucekt" ∨
         Wrap (Wrap (External 0) "failed to decode mod index key")
              "failed to check value in bucekt"
           = Wrap (Wrap e0 "failed to check value pair") "failed a stride").
Proof.
  apply (Run_error_is_key_error sample.max_cap sample.decode sample.ids
           sample.one_wanted sample.odd_key []).
  - reflexivity.
  - vm_compute. reflexivity.
Defined.

(** [two_under_one_key] began a transaction and opened its bucket. *)
Lemma Run_returns_after_opening_witness :
  ∃ t, db_begin sample.two_under_one_key = inr t ∧
       (∀ m, m ∈ mods sample.one_wanted →
          ∃ b, getItemModIndexBucketRO (rootType sample.one_wanted)
                 (rootFlavor sample.one_wanted) m (league sample.one_wanted) t
               = inr b) ∧
       0 ≤ maxDesired sample.one_wanted ≤ sample.max_cap.
Proof.
  apply (Run_returns_after_opening sample.max_cap sample.decode sample.ids
           sample.one_wanted sample.two_under_one_key [1%N; 2%N] None).
  - reflexivity.
  - vm_compute. reflexivity.
Defined.

(** [speed_and_fire] over [two_buckets] gets a list and no error. *)
Lemma Run_succeeds_witness :
  ∃ ids, (Run sample.max_cap sample.decode sample.ids sample.speed_and_fire
              sample.two_buckets).1 = Returned ids None.
Proof.
  apply (Run_succeeds sample.max_cap sample.decode sample.ids
           sample.speed_and_fire sample.two_buckets sample.two_buckets_tx).
  - reflexivity.
  - intros m Hm.
    repeat (apply elem_of_cons in Hm as [->|Hm]);
      [| |by apply elem_of_nil in Hm];
      (eexists; split; [vm_compute; reflexivity|vm_compute; reflexivity]).
  - simpl. lia.
  - vm_compute. split; discriminate.
Defined.

(** [good_boots] has a mod without a value, but not one [boots] names. *)
Lemma Satisfies_answers_witness :
  ∃ b, Satisfies sample.boots [sample.good_boots] = Answer b.
Proof.
  apply (Satisfies_answers sample.boots [sample.good_boots]).
  - reflexivity.
  - intros item Hitem. apply list_elem_of_singleton in Hitem as ->.
    intros m Hm Hin.
    repeat (apply elem_of_cons in Hm as [->|Hm]); try discriminate.
    + exfalso. revert Hin. apply (bool_decide_unpack _). vm_compute. exact I.
    + by apply elem_of_nil in Hm.
Defined.

(** Movement speed twice, fire resistance once: accepted. *)
Lemma Satisfies_accepts_witness :
  Satisfies sample.boots [sample.fast_twice_warm] = Answer true.
Proof.
  apply (Satisfies_accepts sample.boots [sample.fast_twice_warm]).
  - reflexivity.
  - apply (bool_decide_unpack _). vm_compute. exact I.
  - intros item Hitem. apply list_elem_of_singleton in Hitem as ->. split.
    + intros m Hm _.
      repeat (apply elem_of_cons in Hm as [->|Hm]); try discriminate.
      by apply elem_of_nil in Hm.
    + vm_compute. reflexivity.
  - vm_compute. reflexivity.
Defined.

(** What [boots] accepts at 24, [slower_boots] accepts at 20. *)
Lemma Satisfies_lower_minimum_witness :
  Satisfies sample.slower_boots [sample.fast_twice_warm] = Answer true.
Proof.
  apply (Satisfies_lower_minimum sample.boots sample.slower_boots
           [sample.fast_twice_warm]).
  - reflexivity.
  - repeat constructor; lia.
  - intros item Hitem. apply list_elem_of_singleton in Hitem as ->.
    vm_compute. reflexivity.
  - vm_compute. reflexivity.
Defined.

(** Item 1 reaches both minima of [speed_and_fire], and is returned. *)
Lemma Run_result_complete_witness : 1%N ∈ [2%N; 1%N].
Proof.
  apply (Run_result_complete sample.max_cap sample.decode sample.ids
           sample.speed_and_fire sample.two_buckets sample.two_buckets_tx
           [2%N; 1%N] 1%N).
  - reflexivity.
  - vm_compute. reflexivity.
  - reflexivity.
  - intros m b Hm Hb.
    repeat (apply elem_of_cons in Hm as [->|Hm]);
      [| |by apply elem_of_nil in Hm];
      vm_compute in Hb; injection Hb as <-;
      repeat (constructor;
              try (eexists _, _;
                   split; [vm_compute; reflexivity|];
                   split; [vm_compute; reflexivity|lia])).
  - vm_compute. reflexivity.
  - vm_compute. reflexivity.
  - simpl. lia.
  - intros i Hi. destruct i as [|[|i]]; [| |simpl in Hi; lia].
    + exists 5%N, sample.speed_bucket, [Byte.x00; Byte.x0a],
        (sample.entry [Byte.x01; Byte.x02]), 10, [], 10.
      repeat split; try reflexivity; try lia.
      * apply list_elem_of_here.
      * apply (bool_decide_unpack _). vm_compute. exact I.
    + exists 6%N, sample.fire_bucket, [Byte.x00; Byte.x14],
        (sample.entry [Byte.x01]), 20, [], 20.
      repeat split; try reflexivity; try lia.
      * apply list_elem_of_further, list_elem_of_here.
      * apply (bool_decide_unpack _). vm_compute. exact I.
Defined.

(** The item found by priming stays first through the search. *)
Lemma search_keeps_result_witness :
  result sample.primed `prefix_of` result sample.all_read.
Proof.
  apply (search_keeps_result sample.decode sample.ids (budget sample.primed)
           sample.forty_wanted 0 sample.primed None sample.all_read).
  vm_compute. reflexivity.
Defined.

(** [four_keys] read from the tail: items 4, 3, 2 and 1. *)
Lemma Run_single_mod_witness :
  ∃ j, [4%N; 3%N; 2%N; 1%N]
         = acc.listed sample.ids (take j (Bucket_Cursor sample.four_keys)) ∧
       ∀ p, p ∈ take j (Bucket_Cursor sample.four_keys) → is_Some p.1 →
            idx.accepted sample.decode sample.forty_wanted p.
Proof.
  apply (Run_single_mod sample.max_cap sample.decode sample.ids
           sample.forty_wanted (sample.uniform sample.four_keys)
           sample.four_keys_tx 5%N sample.four_keys [4%N; 3%N; 2%N; 1%N] None).
  - reflexivity.
  - reflexivity.
  - reflexivity.
  - reflexivity.
  - vm_compute. reflexivity.
Defined.

(** [good_boots] against a predicate that names movement speed twice. *)
Lemma Satisfies_repeated_mod_witness :
  Satisfies sample.speed_twice [sample.good_boots] = Answer false.
Proof.
  apply (Satisfies_repeated_mod sample.speed_twice sample.good_boots []).
  - reflexivity.
  - vm_compute. reflexivity.
  - intros Hnd. apply NoDup_cons in Hnd as [Hnd _]. apply Hnd.
    apply list_elem_of_here.
  - split.
    + apply (bool_decide_unpack _). vm_compute. exact I.
    + intros m Hm Hin.
      repeat (apply elem_of_cons in Hm as [->|Hm]); try discriminate.
      * exfalso. revert Hin. apply (bool_decide_unpack _). vm_compute. exact I.
      * by apply elem_of_nil in Hm.
Defined.
